(** * Execution-span instrumentation and validation engine

    A shallow embedding of [src/execution/types.ts], [spans.ts],
    [validator.ts], [context.ts] and the two operation wrappers of
    [instrumented-sdk.ts], followed by the properties proved about them.

    Conventions of the embedding:
    - a JavaScript string is its sequence of UTF-16 code units ([list N]);
    - [string | null] is [option]; a TypeScript union of literals is an
      inductive type;
    - [randomUUID()] and [new Date().toISOString()] read the environment: the
      [World] holds the two oracles and how far each has been read;
    - a [Map] is a [gmap]; an array is a [list], updated by index;
    - a method of [ExecutionContext] takes the object and returns its new
      state; a thrown exception is an [Abrupt] completion. *)

From Stdlib Require Import Strings.String Strings.Ascii NArith Decimal.
From stdpp Require Import base option list gmap.

Set Default Proof Using "Type".

(* ===================================================================== *)
(** ** JavaScript strings *)
(* ===================================================================== *)

Abbreviation jsstring := (list N).

(** The code units of an ASCII literal. *)
Fixpoint lit (s : string) : jsstring :=
  match s with
  | EmptyString => []
  | String a s' => N_of_ascii a :: lit s'
  end.
Arguments lit _%_string.

(** The double-quote character, U+0022. *)
Definition dquote : jsstring := [34%N].

Fixpoint digits (d : Decimal.uint) : jsstring :=
  match d with
  | Decimal.Nil => []
  | Decimal.D0 d => 48%N :: digits d
  | Decimal.D1 d => 49%N :: digits d
  | Decimal.D2 d => 50%N :: digits d
  | Decimal.D3 d => 51%N :: digits d
  | Decimal.D4 d => 52%N :: digits d
  | Decimal.D5 d => 53%N :: digits d
  | Decimal.D6 d => 54%N :: digits d
  | Decimal.D7 d => 55%N :: digits d
  | Decimal.D8 d => 56%N :: digits d
  | Decimal.D9 d => 57%N :: digits d
  end.

(** [`${n}`] for an array length [n]. *)
Definition String_of_nat (n : nat) : jsstring := digits (Nat.to_uint n).

(** ECMAScript WhiteSpace and LineTerminator code points, the ones
    [String.prototype.trim] strips. *)
Definition isWhiteSpace (c : N) : bool :=
  ((c =? 9) || (c =? 10) || (c =? 11) || (c =? 12) || (c =? 13) || (c =? 32)
   || (c =? 160) || (c =? 5760) || ((8192 <=? c) && (c <=? 8202))
   || (c =? 8232) || (c =? 8233) || (c =? 8239) || (c =? 8287)
   || (c =? 12288) || (c =? 65279))%N.

Fixpoint trimStart (s : jsstring) : jsstring :=
  match s with
  | [] => []
  | c :: s' => if isWhiteSpace c then trimStart s' else s
  end.

Definition trimEnd (s : jsstring) : jsstring := reverse (trimStart (reverse s)).

Definition trim (s : jsstring) : jsstring := trimEnd (trimStart s).

(** Truthiness of a string: only the empty string is falsy. *)
Definition truthy (s : jsstring) : bool :=
  match s with [] => false | _ :: _ => true end.

(** [!s || s.trim() === ''] *)
Definition blank (s : jsstring) : bool :=
  negb (truthy s) || bool_decide (trim s = []).

(* ===================================================================== *)
(** ** types.ts *)
(* ===================================================================== *)

Inductive SpanType := core | repo | agent.
Inductive SpanStatus := running | completed | failed.
Inductive EvidenceType := id_evidence | hash_evidence | uri_evidence.

Global Instance SpanType_eq_dec : EqDecision SpanType.
Proof. solve_decision. Defined.
Global Instance SpanStatus_eq_dec : EqDecision SpanStatus.
Proof. solve_decision. Defined.

(** A value the engine never looks into ([unknown]): artifact content and
    span metadata. *)
#[warning="-register-all"]
Inductive JsValue :=
| JsNull
| JsBool (b : bool)
| JsNumber (z : Z)
| JsString (s : jsstring)
| JsArray (items : list JsValue)
| JsObject (fields : list (jsstring * JsValue)).

Module SpanArtifact.
Record t := mk {
  id : jsstring;
  type : jsstring;
  name : jsstring;
  content : JsValue;
  produced_at : jsstring;
}.
End SpanArtifact.

Module SpanEvidence.
Record t := mk {
  type : EvidenceType;
  value : jsstring;
  description : jsstring;
}.
End SpanEvidence.

(** [ExecutionSpan], with the fields [RepoSpan] and [AgentSpan] add: an object
    that lacks one of them has [None] there. *)
Record ExecutionSpan := {
  span_id : jsstring;
  parent_span_id : option jsstring;
  type : SpanType;
  name : jsstring;
  repo_name : option jsstring;
  agent_name : option jsstring;
  operation : option jsstring;
  status : SpanStatus;
  start_time : jsstring;
  end_time : option jsstring;
  artifacts : list SpanArtifact.t;
  evidence : list SpanEvidence.t;
  failure_reasons : list jsstring;
  metadata : gmap jsstring JsValue;
}.

Module ValidationFailure.
Record t := mk {
  span_id : jsstring;
  rule : jsstring;
  message : jsstring;
}.
End ValidationFailure.

Module CoreExecutionResult.
Record t (R : Type) := mk {
  success : bool;
  core_span_id : jsstring;
  execution_graph : list ExecutionSpan;
  validation_failures : list ValidationFailure.t;
  failure_reasons : list jsstring;
  result : R;
}.
Arguments mk {R}.
Arguments success {R}.
Arguments core_span_id {R}.
Arguments execution_graph {R}.
Arguments validation_failures {R}.
Arguments failure_reasons {R}.
Arguments result {R}.
End CoreExecutionResult.

Module InvocationContext.
Record t := mk {
  parent_span_id : jsstring;
  core_span_id : jsstring;
}.
End InvocationContext.

(* ===================================================================== *)
(** ** The environment, exceptions, and the monad of the code *)
(* ===================================================================== *)

(** What a [catch] clause receives: an [Error] object with its message; any
    other value for which [String(...)] returns, with that rendering; or any
    other value for which [String(...)] itself throws, with what it throws
    (for an object without [toString] and [valueOf], a [TypeError]). *)
Inductive Thrown :=
| ErrorObject (message : jsstring)
| NonError (rendering : jsstring)
| Unrenderable (raised : Thrown).

Inductive Completion (A : Type) :=
| Normal (a : A)
| Abrupt (error : Thrown).
Arguments Normal {A}.
Arguments Abrupt {A}.

(** [uuid_at w i] is what the [i]-th call of [randomUUID] returns and
    [iso_at w i] what the [i]-th reading of the clock returns. *)
Record World := {
  uuid_at : nat → jsstring;
  uuid_pos : nat;
  iso_at : nat → jsstring;
  clock_pos : nat;
}.

Definition M (A : Type) : Type := World → Completion A * World.

Definition ret {A} (a : A) : M A := λ w, (Normal a, w).

Definition bind {A B} (m : M A) (f : A → M B) : M B :=
  λ w, match m w with
       | (Normal a, w') => f a w'
       | (Abrupt e, w') => (Abrupt e, w')
       end.

Notation "'do' x <- m ; f" := (bind m (λ x, f))
  (at level 10, x pattern, m at level 100, f at level 200,
   format "'[v' 'do'  x  <-  m ;  '/' f ']'").

(** [try { body } catch (error) { handler }] *)
Definition try_catch {A} (body : M A) (handler : Thrown → M A) : M A :=
  λ w, match body w with
       | (Normal a, w') => (Normal a, w')
       | (Abrupt e, w') => handler e w'
       end.

(** One invocation of a caller-supplied callable ([fn], [aggregator]): how it
    settles, and how many identifiers and clock readings it takes from the
    environment while it runs. *)
Record External (T : Type) := {
  settles : Completion T;
  draws : nat;
  clock_reads : nat;
}.
Arguments settles {T}.
Arguments draws {T}.
Arguments clock_reads {T}.

Definition call {T} (fn : External T) : M T :=
  λ w, (settles fn,
        {| uuid_at := uuid_at w; uuid_pos := uuid_pos w + draws fn;
           iso_at := iso_at w; clock_pos := clock_pos w + clock_reads fn |}).

(** [throw e] *)
Definition throw {A} (e : Thrown) : M A := λ w, (Abrupt e, w).

(** [error instanceof Error ? error.message : String(error)]: the conversion
    to a string can throw in its turn. *)
Definition errorMessage (error : Thrown) : M jsstring :=
  match error with
  | ErrorObject message => ret message
  | NonError rendering => ret rendering
  | Unrenderable raised => throw raised
  end.

(* ===================================================================== *)
(** ** spans.ts *)
(* ===================================================================== *)

Definition generateSpanId : M jsstring :=
  λ w, (Normal (uuid_at w (uuid_pos w)),
        {| uuid_at := uuid_at w; uuid_pos := S (uuid_pos w);
           iso_at := iso_at w; clock_pos := clock_pos w |}).

Definition now : M jsstring :=
  λ w, (Normal (iso_at w (clock_pos w)),
        {| uuid_at := uuid_at w; uuid_pos := uuid_pos w;
           iso_at := iso_at w; clock_pos := S (clock_pos w) |}).

Definition createCoreSpan (name : jsstring) (parentSpanId : option jsstring)
  : M ExecutionSpan :=
  do id <- generateSpanId;
  do t <- now;
  ret {| span_id := id; parent_span_id := parentSpanId; type := core;
         name := name; repo_name := None; agent_name := None;
         operation := None; status := running; start_time := t;
         end_time := None; artifacts := []; evidence := [];
         failure_reasons := []; metadata := ∅ |}.

Definition createRepoSpan (repoName parentSpanId : jsstring) : M ExecutionSpan :=
  do id <- generateSpanId;
  do t <- now;
  ret {| span_id := id; parent_span_id := Some parentSpanId; type := repo;
         name := lit "repo:" ++ repoName; repo_name := Some repoName;
         agent_name := None; operation := None; status := running;
         start_time := t; end_time := None; artifacts := []; evidence := [];
         failure_reasons := []; metadata := ∅ |}.

Definition createAgentSpan (agentName operation parentSpanId : jsstring)
  : M ExecutionSpan :=
  do id <- generateSpanId;
  do t <- now;
  ret {| span_id := id; parent_span_id := Some parentSpanId; type := agent;
         name := lit "agent:" ++ agentName ++ lit ":" ++ operation;
         repo_name := None; agent_name := Some agentName;
         operation := Some operation; status := running; start_time := t;
         end_time := None; artifacts := []; evidence := [];
         failure_reasons := []; metadata := ∅ |}.

(** [{...span, status: 'completed', end_time: now()}] *)
Definition completeSpan (span : ExecutionSpan) : M ExecutionSpan :=
  do t <- now;
  ret {| span_id := span_id span; parent_span_id := parent_span_id span;
         type := type span; name := name span; repo_name := repo_name span;
         agent_name := agent_name span; operation := operation span;
         status := completed; start_time := start_time span;
         end_time := Some t; artifacts := artifacts span;
         evidence := evidence span; failure_reasons := failure_reasons span;
         metadata := metadata span |}.

(** [{...span, status: 'failed', end_time: now(),
      failure_reasons: [...span.failure_reasons, ...reasons]}] *)
Definition failSpan (span : ExecutionSpan) (reasons : list jsstring)
  : M ExecutionSpan :=
  do t <- now;
  ret {| span_id := span_id span; parent_span_id := parent_span_id span;
         type := type span; name := name span; repo_name := repo_name span;
         agent_name := agent_name span; operation := operation span;
         status := failed; start_time := start_time span;
         end_time := Some t; artifacts := artifacts span;
         evidence := evidence span;
         failure_reasons := failure_reasons span ++ reasons;
         metadata := metadata span |}.

(** The argument of [attachArtifact]: an artifact whose [produced_at] may be
    missing. *)
Module ArtifactInput.
Record t := mk {
  id : jsstring;
  type : jsstring;
  name : jsstring;
  content : JsValue;
  produced_at : option jsstring;
}.
End ArtifactInput.

Definition with_artifacts (span : ExecutionSpan) (l : list SpanArtifact.t)
  : ExecutionSpan :=
  {| span_id := span_id span; parent_span_id := parent_span_id span;
     type := type span; name := name span; repo_name := repo_name span;
     agent_name := agent_name span; operation := operation span;
     status := status span; start_time := start_time span;
     end_time := end_time span; artifacts := l; evidence := evidence span;
     failure_reasons := failure_reasons span; metadata := metadata span |}.

Definition with_evidence (span : ExecutionSpan) (l : list SpanEvidence.t)
  : ExecutionSpan :=
  {| span_id := span_id span; parent_span_id := parent_span_id span;
     type := type span; name := name span; repo_name := repo_name span;
     agent_name := agent_name span; operation := operation span;
     status := status span; start_time := start_time span;
     end_time := end_time span; artifacts := artifacts span; evidence := l;
     failure_reasons := failure_reasons span; metadata := metadata span |}.

(** [produced_at: artifact.produced_at || now()]: the clock is read only when
    the field is missing or empty. *)
Definition attachArtifact (span : ExecutionSpan) (artifact : ArtifactInput.t)
  : M ExecutionSpan :=
  do produced <-
    match ArtifactInput.produced_at artifact with
    | Some p => if truthy p then ret p else now
    | None => now
    end;
  ret (with_artifacts span
         (artifacts span ++
            [SpanArtifact.mk (ArtifactInput.id artifact)
               (ArtifactInput.type artifact) (ArtifactInput.name artifact)
               (ArtifactInput.content artifact) produced])).

Definition attachEvidence (span : ExecutionSpan) (ev : SpanEvidence.t)
  : M ExecutionSpan :=
  ret (with_evidence span (evidence span ++ [ev])).

(* ===================================================================== *)
(** ** validator.ts *)
(* ===================================================================== *)

(** One turn of the indexing loop: [spanMap.set(span.span_id, span)] and,
    when [span.parent_span_id] is truthy, the push onto the parent's list of
    children. *)
Definition index_step
    (acc : gmap jsstring ExecutionSpan * gmap jsstring (list ExecutionSpan))
    (span : ExecutionSpan)
  : gmap jsstring ExecutionSpan * gmap jsstring (list ExecutionSpan) :=
  let spanMap := <[span_id span := span]> acc.1 in
  match parent_span_id span with
  | Some parent =>
      if truthy parent then
        let children := default [] (acc.2 !! parent) in
        (spanMap, <[parent := children ++ [span]]> acc.2)
      else (spanMap, acc.2)
  | None => (spanMap, acc.2)
  end.

Definition index_spans (spans : list ExecutionSpan)
  : gmap jsstring ExecutionSpan * gmap jsstring (list ExecutionSpan) :=
  foldl index_step (∅, ∅) spans.

(** [spanMap.has(key)] *)
Definition has (spanMap : gmap jsstring ExecutionSpan) (key : jsstring) : bool :=
  match spanMap !! key with Some _ => true | None => false end.

(** [childrenByParent.get(key) || []] *)
Definition get_or_empty (childrenByParent : gmap jsstring (list ExecutionSpan))
    (key : jsstring) : list ExecutionSpan :=
  default [] (childrenByParent !! key).

Definition is_type (t : SpanType) (s : ExecutionSpan) : bool :=
  bool_decide (type s = t).

Definition core_span_required : ValidationFailure.t :=
  ValidationFailure.mk (lit "graph") (lit "core_span_required")
    (lit "Execution graph must contain at least one core-level span").

Definition core_must_have_repo_children (coreSpan : ExecutionSpan)
  : ValidationFailure.t :=
  ValidationFailure.mk (span_id coreSpan) (lit "core_must_have_repo_children")
    (lit "Core span " ++ dquote ++ name coreSpan ++ dquote
       ++ lit " has no repo-level child spans").

Definition repo_must_have_agent_children (repoSpan : ExecutionSpan)
  : ValidationFailure.t :=
  ValidationFailure.mk (span_id repoSpan) (lit "repo_must_have_agent_children")
    (lit "Repo span " ++ dquote ++ name repoSpan ++ dquote
       ++ lit " has no agent-level child spans").

Definition valid_parent_reference (span : ExecutionSpan) (parent : jsstring)
  : ValidationFailure.t :=
  ValidationFailure.mk (span_id span) (lit "valid_parent_reference")
    (lit "Span " ++ dquote ++ name span ++ dquote
       ++ lit " references non-existent parent_span_id "
       ++ dquote ++ parent ++ dquote).

Definition no_self_reference (span : ExecutionSpan) : ValidationFailure.t :=
  ValidationFailure.mk (span_id span) (lit "no_self_reference")
    (lit "Span " ++ dquote ++ name span ++ dquote
       ++ lit " references itself as parent").

Definition evidence_must_be_verifiable (span : ExecutionSpan)
  : ValidationFailure.t :=
  ValidationFailure.mk (span_id span) (lit "evidence_must_be_verifiable")
    (lit "Span " ++ dquote ++ name span ++ dquote
       ++ lit " has evidence with empty value").

Definition artifact_must_have_id (span : ExecutionSpan) : ValidationFailure.t :=
  ValidationFailure.mk (span_id span) (lit "artifact_must_have_id")
    (lit "Span " ++ dquote ++ name span ++ dquote
       ++ lit " has artifact without stable identifier").

(** The body of [for (const coreSpan of coreSpans)]. *)
Definition check_core (childrenByParent : gmap jsstring (list ExecutionSpan))
    (coreSpan : ExecutionSpan) : list ValidationFailure.t :=
  let repoChildren :=
    filter (λ s, is_type repo s) (get_or_empty childrenByParent (span_id coreSpan)) in
  (if decide (length repoChildren = 0)
   then [core_must_have_repo_children coreSpan] else [])
  ++ flat_map
       (λ repoSpan,
          let agentChildren :=
            filter (λ s, is_type agent s)
              (get_or_empty childrenByParent (span_id repoSpan)) in
          if decide (length agentChildren = 0)
          then [repo_must_have_agent_children repoSpan] else [])
       repoChildren.

(** [span.parent_span_id && !spanMap.has(span.parent_span_id) &&
     span.type !== 'core'] *)
Definition check_parent (spanMap : gmap jsstring ExecutionSpan)
    (span : ExecutionSpan) : list ValidationFailure.t :=
  match parent_span_id span with
  | Some parent =>
      if truthy parent && negb (has spanMap parent)
         && negb (is_type core span)
      then [valid_parent_reference span parent] else []
  | None => []
  end.

(** [span.parent_span_id === span.span_id] *)
Definition check_self (span : ExecutionSpan) : list ValidationFailure.t :=
  if decide (parent_span_id span = Some (span_id span))
  then [no_self_reference span] else [].

Definition check_evidence (span : ExecutionSpan) : list ValidationFailure.t :=
  flat_map
    (λ ev, if blank (SpanEvidence.value ev)
           then [evidence_must_be_verifiable span] else [])
    (evidence span).

Definition check_artifacts (span : ExecutionSpan) : list ValidationFailure.t :=
  flat_map
    (λ artifact, if blank (SpanArtifact.id artifact)
                 then [artifact_must_have_id span] else [])
    (artifacts span).

Definition validateExecutionGraph (spans : list ExecutionSpan)
  : list ValidationFailure.t :=
  let '(spanMap, childrenByParent) := index_spans spans in
  let coreSpans := filter (λ s, is_type core s) spans in
  if decide (length coreSpans = 0) then [core_span_required]
  else
    flat_map (check_core childrenByParent) coreSpans
    ++ flat_map (check_parent spanMap) spans
    ++ flat_map check_self spans
    ++ flat_map check_evidence spans
    ++ flat_map check_artifacts spans.

Definition isValidExecutionGraph (spans : list ExecutionSpan) : bool :=
  bool_decide (length (validateExecutionGraph spans) = 0).

(* ===================================================================== *)
(** ** context.ts *)
(* ===================================================================== *)

(** The two private fields of an [ExecutionContext]. [ExecutionGraph], a
    record whose one field is [spans], is written as that list. *)
Record ExecutionContext := {
  coreSpan : ExecutionSpan;
  spans : list ExecutionSpan;
}.

(** [this.spans.push(span)] *)
Definition push (ctx : ExecutionContext) (span : ExecutionSpan)
  : ExecutionContext :=
  {| coreSpan := coreSpan ctx; spans := spans ctx ++ [span] |}.

(** [constructor(coreName, parentSpanId = null)] *)
Definition new_ExecutionContext (coreName : jsstring)
    (parentSpanId : option jsstring) : M ExecutionContext :=
  do c <- createCoreSpan coreName parentSpanId;
  ret {| coreSpan := c; spans := [c] |}.

Definition coreSpanId (ctx : ExecutionContext) : jsstring :=
  span_id (coreSpan ctx).

Definition getInvocationContext (ctx : ExecutionContext) : InvocationContext.t :=
  InvocationContext.mk (span_id (coreSpan ctx)) (span_id (coreSpan ctx)).

Definition startRepoSpan (repoName : jsstring) (ctx : ExecutionContext)
  : M (ExecutionSpan * ExecutionContext) :=
  do span <- createRepoSpan repoName (span_id (coreSpan ctx));
  ret (span, push ctx span).

Definition startAgentSpan (parentRepoSpanId agentName operation : jsstring)
    (ctx : ExecutionContext) : M (ExecutionSpan * ExecutionContext) :=
  do span <- createAgentSpan agentName operation parentRepoSpanId;
  ret (span, push ctx span).

(** [updateSpan]: [list_find] returns the index [findIndex] finds together
    with [this.spans[index]]; [None] is the index -1. *)
Definition updateSpan (spanId : jsstring)
    (updater : ExecutionSpan → M ExecutionSpan) (ctx : ExecutionContext)
  : M ExecutionContext :=
  match list_find (λ s, span_id s = spanId) (spans ctx) with
  | Some (index, s) =>
      do s' <- updater s;
      ret {| coreSpan := coreSpan ctx; spans := <[index := s']> (spans ctx) |}
  | None => ret ctx
  end.

Definition completeRepoSpan (spanId : jsstring) : ExecutionContext → M ExecutionContext :=
  updateSpan spanId (λ s, completeSpan s).

Definition failRepoSpan (spanId : jsstring) (reasons : list jsstring)
  : ExecutionContext → M ExecutionContext :=
  updateSpan spanId (λ s, failSpan s reasons).

Definition completeAgentSpan (spanId : jsstring) : ExecutionContext → M ExecutionContext :=
  updateSpan spanId (λ s, completeSpan s).

Definition failAgentSpan (spanId : jsstring) (reasons : list jsstring)
  : ExecutionContext → M ExecutionContext :=
  updateSpan spanId (λ s, failSpan s reasons).

(** What a caller can pass to [ingestRepoSpans]: an array of its own, or the
    array [this.spans] itself, which [finalize] hands out as
    [execution_graph.spans]. *)
Inductive SpansArgument :=
| OtherArray (spans : list ExecutionSpan)
| RecordedArray.

(** [for (const span of spans) { this.spans.push(span); }]: at each turn the
    iterator reads [spans[i]] from the array as it is then, and ends when
    [i] has reached its length. [fuel] bounds the number of turns; the
    result is [None] when the loop has not ended within them. *)
Fixpoint ingest_from (fuel i : nat) (spans_argument : SpansArgument)
    (ctx : ExecutionContext) : option ExecutionContext :=
  match fuel with
  | 0 => None
  | S fuel' =>
      let array :=
        match spans_argument with
        | OtherArray l => l
        | RecordedArray => spans ctx
        end in
      match array !! i with
      | Some span => ingest_from fuel' (S i) spans_argument (push ctx span)
      | None => Some ctx
      end
  end.

Definition ingestRepoSpans (fuel : nat) (spans_argument : SpansArgument)
    (ctx : ExecutionContext) : option ExecutionContext :=
  ingest_from fuel 0 spans_argument ctx.

(** The argument of [attachArtifactToSpan] has no [produced_at]. *)
Module ArtifactArg.
Record t := mk {
  id : jsstring;
  type : jsstring;
  name : jsstring;
  content : JsValue;
}.
End ArtifactArg.

Definition attachArtifactToSpan (spanId : jsstring) (artifact : ArtifactArg.t)
  : ExecutionContext → M ExecutionContext :=
  updateSpan spanId
    (λ s, do produced <- now;
          ret (with_artifacts s
                 (artifacts s ++
                    [SpanArtifact.mk (ArtifactArg.id artifact)
                       (ArtifactArg.type artifact) (ArtifactArg.name artifact)
                       (ArtifactArg.content artifact) produced]))).

Definition attachEvidenceToSpan (spanId : jsstring) (ev : SpanEvidence.t)
  : ExecutionContext → M ExecutionContext :=
  updateSpan spanId (λ s, ret (with_evidence s (evidence s ++ [ev]))).

(** [`[${f.rule}] ${f.message}`] *)
Definition format_failure (f : ValidationFailure.t) : jsstring :=
  lit "[" ++ ValidationFailure.rule f ++ lit "] " ++ ValidationFailure.message f.

(** [s.span_id !== this.coreSpan.span_id && s.status === 'failed'] *)
Definition is_failed_child (ctx : ExecutionContext) (s : ExecutionSpan) : Prop :=
  span_id s ≠ span_id (coreSpan ctx) ∧ status s = failed.

Global Instance is_failed_child_dec ctx s : Decision (is_failed_child ctx s).
Proof. unfold is_failed_child. apply _. Defined.

Definition finalize {R} (operationResult : R) (ctx : ExecutionContext)
  : M (CoreExecutionResult.t R * ExecutionContext) :=
  let validationFailures := validateExecutionGraph (spans ctx) in
  let isValid := bool_decide (length validationFailures = 0) in
  let coreFailureReasons : list jsstring := [] in
  let coreFailureReasons :=
    if negb isValid
    then coreFailureReasons ++ map format_failure validationFailures
    else coreFailureReasons in
  let failedChildren := filter (is_failed_child ctx) (spans ctx) in
  let coreFailureReasons :=
    if decide (0 < length failedChildren)
    then coreFailureReasons
           ++ [String_of_nat (length failedChildren) ++ lit " child span(s) failed"]
    else coreFailureReasons in
  let success := bool_decide (length coreFailureReasons = 0) in
  do ctx <-
    (if success
     then updateSpan (span_id (coreSpan ctx)) (λ s, completeSpan s) ctx
     else updateSpan (span_id (coreSpan ctx))
            (λ s, failSpan s coreFailureReasons) ctx);
  ret (CoreExecutionResult.mk success (span_id (coreSpan ctx)) (spans ctx)
         validationFailures coreFailureReasons operationResult,
       ctx).

(* ===================================================================== *)
(** ** instrumented-sdk.ts: the two operation wrappers *)
(* ===================================================================== *)

(** The evidence a wrapper attaches after a collaborator resolved. *)
Definition completion_evidence (repoName agentName operation agentSpanId : jsstring)
  : SpanEvidence.t :=
  SpanEvidence.mk id_evidence
    (repoName ++ lit ":" ++ operation ++ lit ":" ++ agentSpanId)
    (lit "Completed " ++ operation ++ lit " via " ++ agentName).

Definition agent_failed (agentName errorMessage : jsstring) : jsstring :=
  lit "Agent " ++ dquote ++ agentName ++ dquote ++ lit " failed: " ++ errorMessage.

(** [fn] cannot reach [ctx], and it is the first statement of the [try]
    block: when the handler runs, [ctx] is as it was before the block. *)
Definition executeWithSpans {T} (coreName : jsstring)
    (parentSpanId : option jsstring) (repoName agentName operation : jsstring)
    (fn : External T) : M (CoreExecutionResult.t (option T)) :=
  do ctx <- new_ExecutionContext coreName parentSpanId;
  do (repoSpan, ctx) <- startRepoSpan repoName ctx;
  do (agentSpan, ctx) <- startAgentSpan (span_id repoSpan) agentName operation ctx;
  do (operationResult, ctx) <-
    try_catch
      (do v <- call fn;
       do ctx <- attachEvidenceToSpan (span_id agentSpan)
                   (completion_evidence repoName agentName operation
                      (span_id agentSpan)) ctx;
       do ctx <- completeAgentSpan (span_id agentSpan) ctx;
       do ctx <- completeRepoSpan (span_id repoSpan) ctx;
       ret (Some v, ctx))
      (λ error,
         do errorMessage <- errorMessage error;
         do ctx <- failAgentSpan (span_id agentSpan) [errorMessage] ctx;
         do ctx <- failRepoSpan (span_id repoSpan)
                     [agent_failed agentName errorMessage] ctx;
         ret (None, ctx));
  do (res, _) <- finalize operationResult ctx;
  ret res.

(** An element of the [repos] argument. *)
Module RepoEntry.
Record t (U : Type) := mk {
  repoName : jsstring;
  agentName : jsstring;
  operation : jsstring;
  fn : External U;
}.
Arguments mk {U}.
Arguments repoName {U}.
Arguments agentName {U}.
Arguments operation {U}.
Arguments fn {U}.
End RepoEntry.

(** The state the [for] loop of [executeMultiRepoWithSpans] works on. *)
Record LoopState (U : Type) := {
  loop_ctx : ExecutionContext;
  results : list (option U);
  hasFailure : bool;
}.
Arguments Build_LoopState {U}.
Arguments loop_ctx {U}.
Arguments results {U}.
Arguments hasFailure {U}.

(** One turn of the loop. [results.push(null)] pushes [None]. *)
Definition multi_step {U} (st : LoopState U) (entry : RepoEntry.t U)
  : M (LoopState U) :=
  let ctx := loop_ctx st in
  do (repoSpan, ctx) <- startRepoSpan (RepoEntry.repoName entry) ctx;
  do (agentSpan, ctx) <-
    startAgentSpan (span_id repoSpan) (RepoEntry.agentName entry)
      (RepoEntry.operation entry) ctx;
  try_catch
    (do result <- call (RepoEntry.fn entry);
     let results := results st ++ [Some result] in
     do ctx <- attachEvidenceToSpan (span_id agentSpan)
                 (completion_evidence (RepoEntry.repoName entry)
                    (RepoEntry.agentName entry) (RepoEntry.operation entry)
                    (span_id agentSpan)) ctx;
     do ctx <- completeAgentSpan (span_id agentSpan) ctx;
     do ctx <- completeRepoSpan (span_id repoSpan) ctx;
     ret (Build_LoopState ctx results (hasFailure st)))
    (λ error,
       do errorMessage <- errorMessage error;
       do ctx <- failAgentSpan (span_id agentSpan) [errorMessage] ctx;
       do ctx <- failRepoSpan (span_id repoSpan)
                   [agent_failed (RepoEntry.agentName entry) errorMessage] ctx;
       ret (Build_LoopState ctx (results st ++ [None]) true)).

Fixpoint multi_loop {U} (repos : list (RepoEntry.t U)) (st : LoopState U)
  : M (LoopState U) :=
  match repos with
  | [] => ret st
  | entry :: repos' => do st <- multi_step st entry; multi_loop repos' st
  end.

Definition executeMultiRepoWithSpans {U T} (coreName : jsstring)
    (parentSpanId : option jsstring) (repos : list (RepoEntry.t U))
    (aggregator : list (option U) → External T)
  : M (CoreExecutionResult.t (option T)) :=
  do ctx <- new_ExecutionContext coreName parentSpanId;
  do st <- multi_loop repos (Build_LoopState ctx [] false);
  do aggregatedResult <-
    (if negb (hasFailure st)
     then try_catch (do a <- call (aggregator (results st)); ret (Some a))
            (λ _, ret None)
     else ret None);
  do (res, _) <- finalize aggregatedResult (loop_ctx st);
  ret res.

(* ===================================================================== *)
(** * The vocabulary of the statements *)
(* ===================================================================== *)

(** ** The validator, read on the list of spans *)

(** [s] is listed under the key [k] of [childrenByParent]: the empty string
    is never a key, since an empty [parent_span_id] is falsy. *)
Definition is_child_of (k : jsstring) (s : ExecutionSpan) : Prop :=
  parent_span_id s = Some k ∧ k ≠ [].

Global Instance is_child_of_dec k s : Decision (is_child_of k s).
Proof. unfold is_child_of. apply _. Defined.

(** The validator without its indexes: the children of a span are the
    spans that name it as parent, and a parent resolves when some span has
    that identifier. *)
Definition repo_children (l : list ExecutionSpan) (c : ExecutionSpan)
  : list ExecutionSpan :=
  filter (λ s, is_type repo s) (filter (is_child_of (span_id c)) l).

Definition agent_children (l : list ExecutionSpan) (r : ExecutionSpan)
  : list ExecutionSpan :=
  filter (λ s, is_type agent s) (filter (is_child_of (span_id r)) l).

Definition core_failures (l : list ExecutionSpan) (c : ExecutionSpan)
  : list ValidationFailure.t :=
  (if decide (repo_children l c = [])
   then [core_must_have_repo_children c] else [])
  ++ flat_map
       (λ r, if decide (agent_children l r = [])
             then [repo_must_have_agent_children r] else [])
       (repo_children l c).

(** A span with a dangling parent: not a core span, and its
    [parent_span_id] is a non-empty string that is no span's [span_id]. *)
Definition dangling (l : list ExecutionSpan) (s : ExecutionSpan) (p : jsstring)
  : Prop :=
  p ≠ [] ∧ (p ∉ map span_id l) ∧ type s ≠ core.

Global Instance dangling_dec l s p : Decision (dangling l s p).
Proof. unfold dangling. apply _. Defined.

Definition parent_failures (l : list ExecutionSpan) (s : ExecutionSpan)
  : list ValidationFailure.t :=
  match parent_span_id s with
  | Some p => if decide (dangling l s p) then [valid_parent_reference s p] else []
  | None => []
  end.

(** The failure [f] reports the rule [r]. *)
Definition has_rule (r : jsstring) (f : ValidationFailure.t) : Prop :=
  ValidationFailure.rule f = r.

Global Instance has_rule_dec r f : Decision (has_rule r f).
Proof. unfold has_rule. apply _. Defined.

(** ** Concrete inputs *)

Module Sample.
(** A terminal span with no artifacts, as the validator tests build them. *)
Definition span (id : string) (parent : option jsstring) (t : SpanType)
    (nm : string) (ev : list SpanEvidence.t) : ExecutionSpan :=
  {| span_id := lit id; parent_span_id := parent; type := t; name := lit nm;
     repo_name := None; agent_name := None; operation := None;
     status := completed; start_time := lit "2026-01-01T00:00:00.000Z";
     end_time := Some (lit "2026-01-01T00:00:01.000Z"); artifacts := [];
     evidence := ev; failure_reasons := []; metadata := ∅ |}.

Definition core1 := span "core-1" None core "test-core" [].
Definition repo1 := span "repo-1" (Some (lit "core-1")) repo "repo:test" [].
Definition agent1 := span "agent-1" (Some (lit "repo-1")) agent "agent:test:op" [].

(** A repo span that names a parent no span has. *)
Definition orphan_repo :=
  span "repo-1" (Some (lit "nonexistent")) repo "repo:orphan" [].

(** A core span with an empty evidence value and a good one. *)
Definition core_two_evidence :=
  span "core-1" None core "test-core"
    [SpanEvidence.mk id_evidence [] (lit "empty");
     SpanEvidence.mk hash_evidence (lit "abc") (lit "kept")].

(** A repo span with no parent at all. *)
Definition rootless_repo := span "repo-2" None repo "repo:rootless" [].

(** A core span whose one evidence entry has a single space as value. *)
Definition space_evidence := SpanEvidence.mk id_evidence (lit " ") (lit "space").
Definition core_with_space := span "core-1" None core "test-core" [space_evidence].

(** An environment whose identifiers are span-0, span-1, ... and whose
    clock readings are t0, t1, ... *)
Definition world : World :=
  {| uuid_at := λ i, lit "span-" ++ [(N.of_nat i + 48)%N]; uuid_pos := 0;
     iso_at := λ i, lit "t" ++ [(N.of_nat i + 48)%N]; clock_pos := 0 |}.

(** What [createCoreSpan] returns first in that environment. *)
Definition started_core : ExecutionSpan :=
  {| span_id := lit "span-0"; parent_span_id := None; type := core;
     name := lit "test-core"; repo_name := None; agent_name := None;
     operation := None; status := running; start_time := lit "t0";
     end_time := None; artifacts := []; evidence := [];
     failure_reasons := []; metadata := ∅ |}.

(** [failSpan started_core ["boom"]] at [world]. *)
Definition failed_core : ExecutionSpan :=
  {| span_id := lit "span-0"; parent_span_id := None; type := core;
     name := lit "test-core"; repo_name := None; agent_name := None;
     operation := None; status := failed; start_time := lit "t0";
     end_time := Some (lit "t0"); artifacts := []; evidence := [];
     failure_reasons := [lit "boom"]; metadata := ∅ |}.

(** [completeSpan failed_core] at [world]. *)
Definition refinished_core : ExecutionSpan :=
  {| span_id := lit "span-0"; parent_span_id := None; type := core;
     name := lit "test-core"; repo_name := None; agent_name := None;
     operation := None; status := completed; start_time := lit "t0";
     end_time := Some (lit "t0"); artifacts := []; evidence := [];
     failure_reasons := [lit "boom"]; metadata := ∅ |}.

(** The context the constructor returns in that environment. *)
Definition new_context : ExecutionContext :=
  {| coreSpan := started_core; spans := [started_core] |}.

(** A context whose one span is terminal. *)
Definition fresh_context : ExecutionContext :=
  {| coreSpan := core1; spans := [core1] |}.

(** A collaborator that resolves, one that throws [Error("Connection
    refused")], and an aggregator that counts what it is given or throws. *)
Definition resolving : External JsValue :=
  {| settles := Normal (JsString (lit "items")); draws := 0; clock_reads := 1 |}.

Definition refusing : External JsValue :=
  {| settles := Abrupt (ErrorObject (lit "Connection refused"));
     draws := 0; clock_reads := 1 |}.

Definition counting (results : list (option JsValue)) : External JsValue :=
  {| settles := Normal (JsNumber (Z.of_nat (length results)));
     draws := 0; clock_reads := 1 |}.

Definition crashing (results : list (option JsValue)) : External JsValue :=
  {| settles := Abrupt (ErrorObject (lit "cannot aggregate"));
     draws := 0; clock_reads := 0 |}.

Definition entry (repoName : string) (fn : External JsValue)
  : RepoEntry.t JsValue :=
  RepoEntry.mk (lit repoName) (lit "agent") (lit "list") fn.

(** Three collaborators of which the second throws, and two that resolve. *)
Definition three_one_refusing : list (RepoEntry.t JsValue) :=
  [entry "analytics" resolving; entry "marketplace" refusing;
   entry "benchmark" resolving].

Definition two_resolving : list (RepoEntry.t JsValue) :=
  [entry "analytics" resolving; entry "benchmark" resolving].

Definition report : ArtifactArg.t :=
  ArtifactArg.mk (lit "art-1") (lit "report") (lit "Test Report") JsNull.

Definition id_evidence_123 : SpanEvidence.t :=
  SpanEvidence.mk id_evidence (lit "evidence-123") (lit "Test evidence").
End Sample.

(** ** Spans and contexts a caller can obtain *)

(** The spans a factory and a sequence of span-model operations give. The
    guard [G] says to which spans [completeSpan] may be applied. *)
Inductive obtainable (G : ExecutionSpan → Prop) : ExecutionSpan → Prop :=
| obtain_core name parentSpanId w s w' :
    createCoreSpan name parentSpanId w = (Normal s, w') → obtainable G s
| obtain_repo repoName parentSpanId w s w' :
    createRepoSpan repoName parentSpanId w = (Normal s, w') → obtainable G s
| obtain_agent agentName operation parentSpanId w s w' :
    createAgentSpan agentName operation parentSpanId w = (Normal s, w') →
    obtainable G s
| obtain_complete s w s' w' :
    obtainable G s → G s → completeSpan s w = (Normal s', w') →
    obtainable G s'
| obtain_fail s reasons w s' w' :
    obtainable G s → failSpan s reasons w = (Normal s', w') → obtainable G s'
| obtain_artifact s artifact w s' w' :
    obtainable G s → attachArtifact s artifact w = (Normal s', w') →
    obtainable G s'
| obtain_evidence s ev w s' w' :
    obtainable G s → attachEvidence s ev w = (Normal s', w') →
    obtainable G s'.

(** [failure_reasons] is empty unless [status = failed]. *)
Definition reasons_only_when_failed (s : ExecutionSpan) : Prop :=
  status s = failed ∨ failure_reasons s = [].

(** The contexts a caller can hold: what the constructor returns, and what
    any public method leaves behind, whatever the environment does between
    the calls. *)
Inductive reachable : ExecutionContext → Prop :=
| reach_new coreName parentSpanId w ctx w' :
    new_ExecutionContext coreName parentSpanId w = (Normal ctx, w') →
    reachable ctx
| reach_startRepoSpan ctx repoName w span ctx' w' :
    reachable ctx →
    startRepoSpan repoName ctx w = (Normal (span, ctx'), w') → reachable ctx'
| reach_startAgentSpan ctx parentRepoSpanId agentName operation w span ctx' w' :
    reachable ctx →
    startAgentSpan parentRepoSpanId agentName operation ctx w
    = (Normal (span, ctx'), w') →
    reachable ctx'
| reach_completeRepoSpan ctx spanId w ctx' w' :
    reachable ctx → completeRepoSpan spanId ctx w = (Normal ctx', w') →
    reachable ctx'
| reach_failRepoSpan ctx spanId reasons w ctx' w' :
    reachable ctx → failRepoSpan spanId reasons ctx w = (Normal ctx', w') →
    reachable ctx'
| reach_completeAgentSpan ctx spanId w ctx' w' :
    reachable ctx → completeAgentSpan spanId ctx w = (Normal ctx', w') →
    reachable ctx'
| reach_failAgentSpan ctx spanId reasons w ctx' w' :
    reachable ctx → failAgentSpan spanId reasons ctx w = (Normal ctx', w') →
    reachable ctx'
| reach_ingestRepoSpans ctx fuel spans_argument ctx' :
    reachable ctx → ingestRepoSpans fuel spans_argument ctx = Some ctx' →
    reachable ctx'
| reach_attachArtifactToSpan ctx spanId artifact w ctx' w' :
    reachable ctx →
    attachArtifactToSpan spanId artifact ctx w = (Normal ctx', w') →
    reachable ctx'
| reach_attachEvidenceToSpan ctx spanId ev w ctx' w' :
    reachable ctx →
    attachEvidenceToSpan spanId ev ctx w = (Normal ctx', w') →
    reachable ctx'
| reach_finalize (R : Type) (operationResult : R) ctx w res ctx' w' :
    reachable ctx →
    finalize operationResult ctx w = (Normal (res, ctx'), w') →
    reachable ctx'.

(** The first recorded span is the core span's entry. *)
Definition core_first (ctx : ExecutionContext) : Prop :=
  ∃ c rest, spans ctx = c :: rest ∧ span_id c = span_id (coreSpan ctx).

(** An updater that leaves [span_id] alone. *)
Definition keeps_id (updater : ExecutionSpan → M ExecutionSpan) : Prop :=
  ∀ s w s' w', updater s w = (Normal s', w') → span_id s' = span_id s.

(** The summary entry of [finalize]: present when some recorded span other
    than the core span's entry is failed, and then it counts those spans. *)
Definition child_summary (ctx : ExecutionContext) : list jsstring :=
  let n := length (filter (is_failed_child ctx) (spans ctx)) in
  if decide (0 < n) then [String_of_nat n ++ lit " child span(s) failed"]
  else [].

(** The core-level failure reasons: one entry per validation failure, then
    the summary entry. *)
Definition core_failure_reasons (ctx : ExecutionContext) : list jsstring :=
  map format_failure (validateExecutionGraph (spans ctx)) ++ child_summary ctx.

(** ** Runs of the monad *)

(** [m] started in [w] returns normally, with a value and an environment that
    satisfy [Q]. *)
Definition returns {A} (m : M A) (w : World) (Q : A → World → Prop) : Prop :=
  ∃ a w', m w = (Normal a, w') ∧ Q a w'.

(** [w'] has the oracles of [w], and [k] more identifiers were drawn. *)
Definition moved (w w' : World) (k : nat) : Prop :=
  uuid_at w' = uuid_at w ∧ uuid_pos w' = uuid_pos w + k.

(** The pure parts of [completeSpan] and [failSpan]. *)
Definition completed_at (s : ExecutionSpan) (t : jsstring) : ExecutionSpan :=
  {| span_id := span_id s; parent_span_id := parent_span_id s;
     type := type s; name := name s; repo_name := repo_name s;
     agent_name := agent_name s; operation := operation s;
     status := completed; start_time := start_time s; end_time := Some t;
     artifacts := artifacts s; evidence := evidence s;
     failure_reasons := failure_reasons s; metadata := metadata s |}.

Definition failed_at (s : ExecutionSpan) (reasons : list jsstring)
    (t : jsstring) : ExecutionSpan :=
  {| span_id := span_id s; parent_span_id := parent_span_id s;
     type := type s; name := name s; repo_name := repo_name s;
     agent_name := agent_name s; operation := operation s;
     status := failed; start_time := start_time s; end_time := Some t;
     artifacts := artifacts s; evidence := evidence s;
     failure_reasons := failure_reasons s ++ reasons;
     metadata := metadata s |}.

(** ** What the wrappers build *)

(** The identifiers of the environment are pairwise distinct and non-empty,
    as those of [randomUUID] are taken to be. *)
Definition fresh_ids (w : World) : Prop :=
  (∀ i j, uuid_at w i = uuid_at w j → i = j) ∧ (∀ i, uuid_at w i ≠ []).

(** Every span of [l] got its identifier from the environment, earlier. *)
Definition ids_below (w : World) (l : list ExecutionSpan) : Prop :=
  ∀ s, s ∈ l → ∃ i, i < uuid_pos w ∧ span_id s = uuid_at w i.

Definition outcome_status {T} (o : Completion T) : SpanStatus :=
  match o with Normal _ => completed | Abrupt _ => failed end.

(** A thrown value out of which the [catch] clause gets a message: an
    [Error] object, or a value that [String(...)] renders. *)
Definition renderable (error : Thrown) : Prop :=
  match error with
  | ErrorObject _ | NonError _ => True
  | Unrenderable _ => False
  end.

(** The message it gets. *)
Definition message_of (error : Thrown) : jsstring :=
  match error with
  | ErrorObject message => message
  | NonError rendering => rendering
  | Unrenderable _ => []
  end.

(** A collaborator that resolves, or throws a value with a message. *)
Definition renders {T} (fn : External T) : Prop :=
  match settles fn with
  | Normal _ => True
  | Abrupt error => renderable error
  end.

(** The repo span of an entry once its collaborator has settled. *)
Definition settled_repo {U} (e : RepoEntry.t U) (coreId rid t1 t2 : jsstring)
  : ExecutionSpan :=
  {| span_id := rid; parent_span_id := Some coreId; type := repo;
     name := lit "repo:" ++ RepoEntry.repoName e;
     repo_name := Some (RepoEntry.repoName e); agent_name := None;
     operation := None;
     status := outcome_status (settles (RepoEntry.fn e));
     start_time := t1; end_time := Some t2; artifacts := []; evidence := [];
     failure_reasons :=
       match settles (RepoEntry.fn e) with
       | Normal _ => []
       | Abrupt error =>
           [agent_failed (RepoEntry.agentName e) (message_of error)]
       end;
     metadata := ∅ |}.

(** The agent span of an entry once its collaborator has settled. *)
Definition settled_agent {U} (e : RepoEntry.t U) (rid aid t1 t2 : jsstring)
  : ExecutionSpan :=
  {| span_id := aid; parent_span_id := Some rid; type := agent;
     name := lit "agent:" ++ RepoEntry.agentName e ++ lit ":"
             ++ RepoEntry.operation e;
     repo_name := None; agent_name := Some (RepoEntry.agentName e);
     operation := Some (RepoEntry.operation e);
     status := outcome_status (settles (RepoEntry.fn e));
     start_time := t1; end_time := Some t2; artifacts := [];
     evidence :=
       match settles (RepoEntry.fn e) with
       | Normal _ =>
           [completion_evidence (RepoEntry.repoName e) (RepoEntry.agentName e)
              (RepoEntry.operation e) aid]
       | Abrupt _ => []
       end;
     failure_reasons :=
       match settles (RepoEntry.fn e) with
       | Normal _ => []
       | Abrupt error => [message_of error]
       end;
     metadata := ∅ |}.

(** What an entry leaves in [results]. *)
Definition placeholder {U} (e : RepoEntry.t U) : option U :=
  match settles (RepoEntry.fn e) with
  | Normal v => Some v
  | Abrupt _ => None
  end.

Definition throws {U} (e : RepoEntry.t U) : bool :=
  match settles (RepoEntry.fn e) with
  | Normal _ => false
  | Abrupt _ => true
  end.

(** The spans the entries leave behind the core span, pair after pair. *)
Inductive settled_pairs {U} (coreId : jsstring)
  : list (RepoEntry.t U) → list ExecutionSpan → Prop :=
| settled_nil : settled_pairs coreId [] []
| settled_cons e repos rid aid t1 t2 t3 t4 tail :
    rid ≠ [] → rid ≠ coreId → aid ≠ coreId → aid ≠ rid →
    settled_pairs coreId repos tail →
    settled_pairs coreId (e :: repos)
      (settled_repo e coreId rid t1 t2 :: settled_agent e rid aid t3 t4 :: tail).

(** A span that sits properly below the core span [coreId] in [l]: it is not
    a core span, its parent is another span (the core span or a span of [l]),
    its evidence and artifacts pass, and if it is a repo span some agent span
    of [l] names it as parent. *)
Definition well_attached (coreId : jsstring) (l : list ExecutionSpan)
    (s : ExecutionSpan) : Prop :=
  type s ≠ core
  ∧ (∃ p, parent_span_id s = Some p ∧ p ≠ span_id s
          ∧ (p = coreId ∨ p ∈ map span_id l))
  ∧ check_evidence s = []
  ∧ check_artifacts s = []
  ∧ (type s = repo →
     span_id s ≠ []
     ∧ ∃ a, a ∈ l ∧ type a = agent ∧ parent_span_id a = Some (span_id s)).

(** The core span as the constructor records it, in a graph where it is not
    its own parent. *)
Definition opening_core (c : ExecutionSpan) : Prop :=
  type c = core ∧ status c = running ∧ span_id c ≠ []
  ∧ parent_span_id c ≠ Some (span_id c)
  ∧ evidence c = [] ∧ artifacts c = [] ∧ failure_reasons c = [].

(** The core-level reasons of a graph a wrapper built: the complaint about
    a core span without repo children when there was no entry, and the count
    of failed spans, two for each entry whose collaborator threw. *)
Definition built_reasons {U} (repos : list (RepoEntry.t U)) (c : ExecutionSpan)
  : list jsstring :=
  (if decide (repos = [])
   then [format_failure (core_must_have_repo_children c)] else [])
  ++ (if decide (0 < 2 * length (filter (λ e, throws e) repos))
      then [String_of_nat (2 * length (filter (λ e, throws e) repos))
            ++ lit " child span(s) failed"]
      else []).

(** The result a wrapper returns, given the core span [c] it opened, the
    settled pairs behind it, the time [t] the core span ended and the
    payload. *)
Definition built_result {U R} (repos : list (RepoEntry.t U)) (c : ExecutionSpan)
    (tail : list ExecutionSpan) (t : jsstring) (payload : R)
  : CoreExecutionResult.t R :=
  CoreExecutionResult.mk
    (bool_decide (built_reasons repos c = []))
    (span_id c)
    ((if decide (built_reasons repos c = []) then completed_at c t
      else failed_at c (built_reasons repos c) t) :: tail)
    (if decide (repos = []) then [core_must_have_repo_children c] else [])
    (built_reasons repos c)
    payload.

(** The payload [executeMultiRepoWithSpans] passes to [finalize]. *)
Definition aggregated {U T} (repos : list (RepoEntry.t U))
    (aggregator : list (option U) → External T) : option T :=
  if existsb throws repos then None
  else match settles (aggregator (map placeholder repos)) with
       | Normal a => Some a
       | Abrupt _ => None
       end.

(** What identifies a span and places it in the graph: the fields no
    operation of the context changes. *)
Record Skeleton := {
  sk_id : jsstring;
  sk_parent : option jsstring;
  sk_type : SpanType;
  sk_name : jsstring;
  sk_repo_name : option jsstring;
  sk_agent_name : option jsstring;
  sk_operation : option jsstring;
}.

Definition skeleton (s : ExecutionSpan) : Skeleton :=
  {| sk_id := span_id s; sk_parent := parent_span_id s; sk_type := type s;
     sk_name := name s; sk_repo_name := repo_name s;
     sk_agent_name := agent_name s; sk_operation := operation s |}.

Definition core_skeleton (coreName : jsstring) (parentSpanId : option jsstring)
    (coreId : jsstring) : Skeleton :=
  {| sk_id := coreId; sk_parent := parentSpanId; sk_type := core;
     sk_name := coreName; sk_repo_name := None; sk_agent_name := None;
     sk_operation := None |}.

(** The repo span and the agent span of an entry, the repo span below the
    core span and the agent span below the repo span. *)
Definition entry_skeletons {U} (coreId : jsstring) (e : RepoEntry.t U)
    (ids : jsstring * jsstring) : list Skeleton :=
  [ {| sk_id := ids.1; sk_parent := Some coreId; sk_type := repo;
       sk_name := lit "repo:" ++ RepoEntry.repoName e;
       sk_repo_name := Some (RepoEntry.repoName e); sk_agent_name := None;
       sk_operation := None |};
    {| sk_id := ids.2; sk_parent := Some ids.1; sk_type := agent;
       sk_name := lit "agent:" ++ RepoEntry.agentName e ++ lit ":"
                  ++ RepoEntry.operation e;
       sk_repo_name := None;
       sk_agent_name := Some (RepoEntry.agentName e);
       sk_operation := Some (RepoEntry.operation e) |} ].

(** An updater that always returns, with a span of the same skeleton. *)
Definition keeps_skeleton (updater : ExecutionSpan → M ExecutionSpan) : Prop :=
  ∀ s w, ∃ s' w', updater s w = (Normal s', w') ∧ skeleton s' = skeleton s.

(** ** Graphs without violation *)

(** A string with a character that is not white space. *)
Definition visible (s : jsstring) : Prop :=
  ∃ c, c ∈ s ∧ isWhiteSpace c = false.

(** The seven conditions of the validator, on the list of spans: there is a
    core span; every core span has a non-empty identifier that some repo
    span names as parent; every such repo span has a non-empty identifier
    that some agent span names as parent; a non-core span with a non-empty
    parent names the identifier of some span; no span names itself; every
    evidence value and every artifact identifier is visible. *)
Definition accepted (l : list ExecutionSpan) : Prop :=
  (∃ c, c ∈ l ∧ type c = core)
  ∧ (∀ c, c ∈ l → type c = core →
       span_id c ≠ []
       ∧ ∃ r, r ∈ l ∧ type r = repo ∧ parent_span_id r = Some (span_id c))
  ∧ (∀ c r, c ∈ l → type c = core → r ∈ l → type r = repo →
       parent_span_id r = Some (span_id c) →
       span_id r ≠ []
       ∧ ∃ a, a ∈ l ∧ type a = agent ∧ parent_span_id a = Some (span_id r))
  ∧ (∀ s p, s ∈ l → type s ≠ core → parent_span_id s = Some p → p ≠ [] →
       p ∈ map span_id l)
  ∧ (∀ s, s ∈ l → parent_span_id s ≠ Some (span_id s))
  ∧ (∀ s ev, s ∈ l → ev ∈ evidence s → visible (SpanEvidence.value ev))
  ∧ (∀ s a, s ∈ l → a ∈ artifacts s → visible (SpanArtifact.id a)).

(** ** More concrete inputs *)

Module Cases.
(** A repo span that names itself as parent. *)
Definition own_parent : ExecutionSpan :=
  Sample.span "repo-9" (Some (lit "repo-9")) repo "repo:loop" [].

(** An agent span with two artifacts, the first of which has a tab as its
    identifier. *)
Definition tab_artifact : SpanArtifact.t :=
  SpanArtifact.mk [9%N] (lit "report") (lit "Tab") JsNull (lit "t0").

Definition named_artifact : SpanArtifact.t :=
  SpanArtifact.mk (lit "art-1") (lit "report") (lit "Test Report") JsNull
    (lit "t0").

Definition agent_with_artifacts : ExecutionSpan :=
  with_artifacts Sample.agent1 [tab_artifact; named_artifact].
End Cases.

(** ** What the validator reads *)

(** The fields of a span the validator looks at: the identifier, the parent,
    the type, the name (for the messages), the values of the evidence and the
    identifiers of the artifacts. *)
Definition checked (s : ExecutionSpan)
  : jsstring * option jsstring * SpanType * jsstring
    * list jsstring * list jsstring :=
  (span_id s, parent_span_id s, type s, name s,
   map SpanEvidence.value (evidence s), map SpanArtifact.id (artifacts s)).


Module Lifecycle.
(** The graph of [Sample] after its agent span failed at [t7] and its repo
    span completed at [t8]. *)
Definition before : list ExecutionSpan :=
  [Sample.core1; Sample.repo1; Sample.agent1].

Definition after : list ExecutionSpan :=
  [Sample.core1; completed_at Sample.repo1 (lit "t8");
   failed_at Sample.agent1 [lit "boom"] (lit "t7")].

(** The context of [Sample] after [failRepoSpan] on its core span's
    identifier. *)
Definition failed_context : ExecutionContext :=
  {| coreSpan := Sample.started_core; spans := [Sample.failed_core] |}.
End Lifecycle.


(** ** What a method call does to the recorded spans *)

(** One call of a method of the context that can change it, whatever the
    arguments and the environment. *)
Inductive method_call : ExecutionContext → ExecutionContext → Prop :=
| call_startRepoSpan ctx repoName w span ctx' w' :
    startRepoSpan repoName ctx w = (Normal (span, ctx'), w') →
    method_call ctx ctx'
| call_startAgentSpan ctx parentRepoSpanId agentName operation w span ctx' w' :
    startAgentSpan parentRepoSpanId agentName operation ctx w
    = (Normal (span, ctx'), w') →
    method_call ctx ctx'
| call_completeRepoSpan ctx spanId w ctx' w' :
    completeRepoSpan spanId ctx w = (Normal ctx', w') → method_call ctx ctx'
| call_failRepoSpan ctx spanId reasons w ctx' w' :
    failRepoSpan spanId reasons ctx w = (Normal ctx', w') →
    method_call ctx ctx'
| call_completeAgentSpan ctx spanId w ctx' w' :
    completeAgentSpan spanId ctx w = (Normal ctx', w') → method_call ctx ctx'
| call_failAgentSpan ctx spanId reasons w ctx' w' :
    failAgentSpan spanId reasons ctx w = (Normal ctx', w') →
    method_call ctx ctx'
| call_ingestRepoSpans ctx fuel spans_argument ctx' :
    ingestRepoSpans fuel spans_argument ctx = Some ctx' →
    method_call ctx ctx'
| call_attachArtifactToSpan ctx spanId artifact w ctx' w' :
    attachArtifactToSpan spanId artifact ctx w = (Normal ctx', w') →
    method_call ctx ctx'
| call_attachEvidenceToSpan ctx spanId ev w ctx' w' :
    attachEvidenceToSpan spanId ev ctx w = (Normal ctx', w') →
    method_call ctx ctx'
| call_finalize (R : Type) (operationResult : R) ctx w res ctx' w' :
    finalize operationResult ctx w = (Normal (res, ctx'), w') →
    method_call ctx ctx'.

(** [s'] is a later state of the recorded span [s]: what identifies and
    places the span, its start time and its metadata are the same; a span
    that is running was running; artifacts, evidence and failure reasons
    were only added at the end. *)
Definition grows (s s' : ExecutionSpan) : Prop :=
  skeleton s' = skeleton s
  ∧ start_time s' = start_time s
  ∧ metadata s' = metadata s
  ∧ (status s' = running → status s = running ∧ end_time s' = end_time s)
  ∧ (∃ k, artifacts s' = artifacts s ++ k)
  ∧ (∃ k, evidence s' = evidence s ++ k)
  ∧ (∃ k, failure_reasons s' = failure_reasons s ++ k).


(** ** Operations by identifier that find their span *)

(** The environment after one reading of the clock. *)
Definition after_clock_reading (w : World) : World :=
  {| uuid_at := uuid_at w; uuid_pos := uuid_pos w; iso_at := iso_at w;
     clock_pos := S (clock_pos w) |}.

Module Twins.
(** A context in which two recorded spans have the identifier [repo-1]. *)
Definition context : ExecutionContext :=
  {| coreSpan := Sample.started_core;
     spans := [Sample.started_core; Sample.repo1; Sample.repo1] |}.
End Twins.


Module Misuse.
(** An evidence entry whose value is a line break, and an artifact whose
    identifier is empty. *)
Definition blank_evidence : SpanEvidence.t :=
  SpanEvidence.mk hash_evidence [10%N] (lit "nothing to check").

Definition anonymous_artifact : ArtifactArg.t :=
  ArtifactArg.mk [] (lit "report") (lit "Test Report") JsNull.
End Misuse.


Module Shuffled.
(** The graph of [Sample], and the same spans leaf first. *)
Definition root_first : list ExecutionSpan :=
  [Sample.core1; Sample.repo1; Sample.agent1].

Definition leaf_first : list ExecutionSpan :=
  [Sample.agent1; Sample.repo1; Sample.core1].
End Shuffled.


(** ** Runs that end in a throw *)

(** [m] started in [w] throws [e]. *)
Definition raises {A} (m : M A) (w : World) (e : Thrown) : Prop :=
  ∃ w', m w = (Abrupt e, w').

Module Unprintable.
(** A collaborator that throws an object [String(...)] cannot render: the
    conversion throws a [TypeError]. *)
Definition type_error : Thrown :=
  ErrorObject (lit "Cannot convert object to primitive value").

Definition bare_object : External JsValue :=
  {| settles := Abrupt (Unrenderable type_error); draws := 0;
     clock_reads := 0 |}.

(** Three entries of which the second throws such an object. *)
Definition second_unprintable : list (RepoEntry.t JsValue) :=
  [Sample.entry "analytics" Sample.resolving;
   Sample.entry "marketplace" bare_object;
   Sample.entry "benchmark" Sample.resolving].
End Unprintable.


(** ** Contexts on which [finalize] is read closely *)

Module Recount.
(** A failed span of type core with an identifier of its own, as a repo may
    return it, and the context of [Sample] after it was ingested. *)
Definition foreign_core : ExecutionSpan :=
  {| span_id := lit "core-9"; parent_span_id := None; type := core;
     name := lit "other-core"; repo_name := None; agent_name := None;
     operation := None; status := failed; start_time := lit "t0";
     end_time := Some (lit "t1"); artifacts := []; evidence := [];
     failure_reasons := [lit "down"]; metadata := ∅ |}.

Definition ingested : ExecutionContext :=
  {| coreSpan := Sample.started_core;
     spans := [Sample.started_core; foreign_core] |}.

(** The environment of [Sample] after [i] identifiers were drawn and the
    clock was read [j] times. *)
Definition world_at (i j : nat) : World :=
  {| uuid_at := uuid_at Sample.world; uuid_pos := i;
     iso_at := iso_at Sample.world; clock_pos := j |}.

(** The repo span [startRepoSpan "billing"] records on the context of
    [Sample], that span after [failRepoSpan] with the reason [down], and the
    two contexts. *)
Definition started_repo : ExecutionSpan :=
  {| span_id := lit "span-1"; parent_span_id := Some (lit "span-0");
     type := repo; name := lit "repo:billing";
     repo_name := Some (lit "billing"); agent_name := None;
     operation := None; status := running; start_time := lit "t1";
     end_time := None; artifacts := []; evidence := [];
     failure_reasons := []; metadata := ∅ |}.

Definition failed_repo : ExecutionSpan :=
  failed_at started_repo [lit "down"] (lit "t2").

Definition open_context : ExecutionContext :=
  {| coreSpan := Sample.started_core;
     spans := [Sample.started_core; started_repo] |}.

Definition childless_context : ExecutionContext :=
  {| coreSpan := Sample.started_core;
     spans := [Sample.started_core; failed_repo] |}.
End Recount.

(* ===================================================================== *)
(** * Properties *)
(* ===================================================================== *)

(** ** Strings *)

Section strings.
Implicit Types s t : jsstring.

Lemma trimStart_nil_iff s : trimStart s = [] ↔ forallb isWhiteSpace s = true.
Proof.
  induction s as [|c s IH]; simpl; [done|].
  destruct (isWhiteSpace c); simpl; [done|]. split; discriminate.
Qed.

(** What [trimStart] returns is empty or starts with a visible character. *)
Lemma trimStart_whitespace_only s :
  forallb isWhiteSpace (trimStart s) = true → trimStart s = [].
Proof.
  induction s as [|c s IH]; simpl; [done|].
  destruct (isWhiteSpace c) eqn:Hc; [done|]. simpl. by rewrite Hc.
Qed.

Lemma forallb_reverse (p : N → bool) s :
  forallb p (reverse s) = forallb p s.
Proof.
  induction s as [|c s IH]; [done|].
  rewrite reverse_cons, forallb_app, IH. simpl.
  by rewrite andb_true_r, andb_comm.
Qed.

Lemma trimEnd_nil_iff s : trimEnd s = [] ↔ forallb isWhiteSpace s = true.
Proof.
  unfold trimEnd. rewrite <- (forallb_reverse _ s), <- trimStart_nil_iff.
  split; [|by intros ->].
  intros H. apply (f_equal reverse) in H. by rewrite reverse_involutive in H.
Qed.

Lemma trim_nil_iff s : trim s = [] ↔ forallb isWhiteSpace s = true.
Proof.
  unfold trim. rewrite trimEnd_nil_iff. split.
  - intros H. by apply trimStart_nil_iff, trimStart_whitespace_only.
  - intros H. apply trimStart_nil_iff in H. by rewrite H.
Qed.

(** The validator's emptiness test holds of exactly the strings made of
    white space only, the empty string among them. *)
Lemma blank_whitespace_only s : blank s = forallb isWhiteSpace s.
Proof.
  unfold blank. destruct s as [|c s]; [done|].
  cbn [truthy negb orb].
  destruct (forallb isWhiteSpace (c :: s)) eqn:H.
  - apply bool_decide_eq_true, trim_nil_iff, H.
  - apply bool_decide_eq_false. rewrite trim_nil_iff. congruence.
Qed.

Lemma blank_app_visible s c t : isWhiteSpace c = false → blank (s ++ c :: t) = false.
Proof.
  intros Hc. rewrite blank_whitespace_only, forallb_app. simpl.
  rewrite Hc. apply andb_false_r.
Qed.
End strings.

(** ** The validator's two indexes, read as lists *)

Section validator_index.
Implicit Types (l : list ExecutionSpan) (k : jsstring).

Lemma index_spans_snoc l x :
  index_spans (l ++ [x]) = index_step (index_spans l) x.
Proof. unfold index_spans. by rewrite foldl_snoc. Qed.

Lemma index_step_fst acc x : (index_step acc x).1 = <[span_id x := x]> acc.1.
Proof.
  unfold index_step.
  destruct (parent_span_id x) as [p|]; [destruct (truthy p)|]; done.
Qed.

Lemma has_index_spans l k :
  has (index_spans l).1 k = bool_decide (k ∈ map span_id l).
Proof.
  induction l as [|x l IH] using rev_ind.
  - unfold has. cbn. rewrite lookup_empty. symmetry.
    apply bool_decide_eq_false. apply not_elem_of_nil.
  - rewrite index_spans_snoc, index_step_fst, map_app. unfold has in *.
    destruct (decide (span_id x = k)) as [Heq|Hne].
    + subst k. rewrite lookup_insert_eq. symmetry. apply bool_decide_eq_true.
      apply elem_of_app. right. apply list_elem_of_singleton. done.
    + rewrite lookup_insert_ne by done. rewrite IH. apply bool_decide_ext.
      rewrite elem_of_app. simpl. rewrite list_elem_of_singleton.
      intuition congruence.
Qed.

Lemma truthy_ne_nil k : truthy k = true ↔ k ≠ [].
Proof. by destruct k. Qed.

Lemma filter_one_True {A} (P : A → Prop) `{∀ a, Decision (P a)} (a : A) :
  P a → filter P [a] = [a].
Proof. intros. by rewrite filter_cons_True. Qed.

Lemma filter_one_False {A} (P : A → Prop) `{∀ a, Decision (P a)} (a : A) :
  ¬ P a → filter P [a] = [].
Proof. intros. by rewrite filter_cons_False. Qed.

Lemma children_index_spans l k :
  get_or_empty (index_spans l).2 k = filter (is_child_of k) l.
Proof.
  unfold get_or_empty. induction l as [|x l IH] using rev_ind.
  - cbn. by rewrite lookup_empty.
  - rewrite index_spans_snoc, filter_app. unfold index_step.
    destruct (parent_span_id x) as [p|] eqn:Hp; cbn [snd].
    + destruct (truthy p) eqn:Ht; cbn [snd].
      * destruct (decide (p = k)) as [->|Hne].
        -- rewrite lookup_insert_eq, filter_one_True.
           ++ cbn. by rewrite IH.
           ++ split; [done|]. by apply truthy_ne_nil.
        -- rewrite lookup_insert_ne by done. rewrite IH.
           rewrite filter_one_False; [by rewrite app_nil_r|].
           intros [? _]. congruence.
      * rewrite IH. rewrite filter_one_False; [by rewrite app_nil_r|].
        intros [? Hk]. apply truthy_ne_nil in Hk. congruence.
    + rewrite IH. rewrite filter_one_False; [by rewrite app_nil_r|].
      intros [? _]. congruence.
Qed.
End validator_index.

Section validator_lists.
Implicit Types (l : list ExecutionSpan).

Lemma length_zero_iff_nil {A} (k : list A) : length k = 0 ↔ k = [].
Proof. by destruct k. Qed.

Lemma check_core_lists l c :
  check_core (index_spans l).2 c = core_failures l c.
Proof.
  unfold check_core, core_failures, repo_children, agent_children.
  rewrite children_index_spans. f_equal.
  - do 2 case_decide; try done; exfalso;
      rewrite length_zero_iff_nil in *; done.
  - apply flat_map_ext. intros r. rewrite children_index_spans.
    do 2 case_decide; try done; exfalso;
      rewrite length_zero_iff_nil in *; done.
Qed.

Lemma check_parent_lists l s :
  check_parent (index_spans l).1 s = parent_failures l s.
Proof.
  unfold check_parent, parent_failures.
  destruct (parent_span_id s) as [p|]; [|done].
  rewrite has_index_spans. unfold dangling, is_type.
  destruct (truthy p) eqn:Ht; cbn [andb].
  - apply truthy_ne_nil in Ht.
    destruct (decide (p ∈ map span_id l)) as [Hin|Hin].
    + rewrite (bool_decide_eq_true_2 _ Hin). cbn.
      rewrite decide_False; [done|]. by intros (_ & ? & _).
    + rewrite (bool_decide_eq_false_2 _ Hin). cbn.
      destruct (decide (type s = core)) as [Hc|Hc].
      * rewrite (bool_decide_eq_true_2 _ Hc). cbn.
        rewrite decide_False; [done|]. by intros (_ & _ & ?).
      * rewrite (bool_decide_eq_false_2 _ Hc). cbn.
        rewrite decide_True; done.
  - rewrite decide_False; [done|]. intros [Hp _].
    apply truthy_ne_nil in Hp. congruence.
Qed.

(** [validateExecutionGraph] computes what the list reading describes. *)
Lemma validateExecutionGraph_lists l :
  validateExecutionGraph l =
    if decide (filter (λ s, is_type core s) l = []) then [core_span_required]
    else flat_map (core_failures l) (filter (λ s, is_type core s) l)
         ++ flat_map (parent_failures l) l
         ++ flat_map check_self l
         ++ flat_map check_evidence l
         ++ flat_map check_artifacts l.
Proof.
  unfold validateExecutionGraph.
  destruct (index_spans l) as [spanMap childrenByParent] eqn:Hix.
  assert (spanMap = (index_spans l).1) as -> by by rewrite Hix.
  assert (childrenByParent = (index_spans l).2) as -> by by rewrite Hix.
  do 2 case_decide; try done;
    try (exfalso; rewrite length_zero_iff_nil in *; done).
  f_equal; [|f_equal].
  - apply flat_map_ext. intros c. apply check_core_lists.
  - apply flat_map_ext. intros s. apply check_parent_lists.
Qed.
End validator_lists.

(** ** Which rule a failure reports *)

Section rules.
Context {A B : Type}.
Implicit Types (P : B → Prop) (f : A → list B).

Lemma Forall_flat_map_intro P f (l : list A) :
  (∀ a, Forall P (f a)) → Forall P (flat_map f l).
Proof.
  intros Hf. induction l as [|a l IH]; simpl; [constructor|].
  apply Forall_app. auto.
Qed.

Lemma filter_Forall_id P `{∀ b, Decision (P b)} (k : list B) :
  Forall P k → filter P k = k.
Proof.
  induction 1 as [|b k Hb _ IH]; [done|].
  by rewrite filter_cons_True, IH.
Qed.

Lemma filter_Forall_nil P `{∀ b, Decision (P b)} (k : list B) :
  Forall (λ b, ¬ P b) k → filter P k = [].
Proof.
  induction 1 as [|b k Hb _ IH]; [done|].
  by rewrite filter_cons_False.
Qed.

End rules.

(** Proves [Forall P k] for a literal list [k] of failures. *)
Ltac each_rule :=
  repeat first
    [ apply Forall_nil_2
    | apply Forall_cons_2; [by (unfold has_rule; cbn; auto)|] ].

Section rules_of_checks.
Implicit Types (l : list ExecutionSpan) (s c : ExecutionSpan).

Lemma core_failures_rules l c :
  Forall (λ f, has_rule (lit "core_must_have_repo_children") f
               ∨ has_rule (lit "repo_must_have_agent_children") f)
    (core_failures l c).
Proof.
  unfold core_failures. apply Forall_app. split.
  - case_decide; each_rule.
  - apply Forall_flat_map_intro. intros r.
    case_decide; each_rule.
Qed.

Lemma parent_failures_rules l s :
  Forall (has_rule (lit "valid_parent_reference")) (parent_failures l s).
Proof.
  unfold parent_failures. destruct (parent_span_id s); [|each_rule].
  case_decide; each_rule.
Qed.

Lemma check_self_rules s :
  Forall (has_rule (lit "no_self_reference")) (check_self s).
Proof. unfold check_self. case_decide; each_rule. Qed.

Lemma check_evidence_rules s :
  Forall (has_rule (lit "evidence_must_be_verifiable")) (check_evidence s).
Proof.
  unfold check_evidence. apply Forall_flat_map_intro. intros ev.
  destruct (blank _); each_rule.
Qed.

Lemma check_artifacts_rules s :
  Forall (has_rule (lit "artifact_must_have_id")) (check_artifacts s).
Proof.
  unfold check_artifacts. apply Forall_flat_map_intro. intros a.
  destruct (blank _); each_rule.
Qed.

Lemma has_core_filter l :
  (∃ c, c ∈ l ∧ type c = core) → filter (λ s, is_type core s) l ≠ [].
Proof.
  intros (c & Hc & Ht) Hnil.
  eapply (filter_nil_not_elem_of _ _ c); [exact Hnil| |exact Hc].
  unfold is_type. by apply bool_decide_pack.
Qed.
End rules_of_checks.

(** Closes [Forall (λ f, ¬ has_rule r f) k] from a lemma that names the rules
    of [k]: the rule names are distinct literals. *)
Ltac other_rule lem :=
  eapply Forall_impl; [apply lem|];
  unfold has_rule; cbn; intros ? H1 H2; rewrite H2 in H1;
  repeat (destruct H1 as [H1|H1]); discriminate H1.

(** Decides a closed decidable proposition by evaluation. *)
Ltac by_evaluation := apply (bool_decide_unpack _); vm_compute; exact I.

(** ** The validator on the graphs of its tests *)

Example valid_graph_accepted :
  validateExecutionGraph [Sample.core1; Sample.repo1; Sample.agent1] = []
  ∧ isValidExecutionGraph [Sample.core1; Sample.repo1; Sample.agent1] = true.
Proof. split; vm_compute; reflexivity. Qed.

Example lone_core_rejected :
  validateExecutionGraph [Sample.core1]
  = [core_must_have_repo_children Sample.core1].
Proof. vm_compute. reflexivity. Qed.

Example childless_repo_rejected :
  validateExecutionGraph [Sample.core1; Sample.repo1]
  = [repo_must_have_agent_children Sample.repo1].
Proof. vm_compute. reflexivity. Qed.

Example empty_graph_rejected : validateExecutionGraph [] = [core_span_required].
Proof. vm_compute. reflexivity. Qed.

Example orphan_repo_rejected :
  validateExecutionGraph [Sample.core1; Sample.orphan_repo]
  = [core_must_have_repo_children Sample.core1;
     valid_parent_reference Sample.orphan_repo (lit "nonexistent")].
Proof. vm_compute. reflexivity. Qed.

(** ** The parent-reference rule and the evidence rule *)

(** The failures of one rule, taken out of a validation in which a core span
    exists: the five passes report pairwise different rules. *)
Lemma filter_rule_validate (r : jsstring) (l : list ExecutionSpan) :
  (∃ c, c ∈ l ∧ type c = core) →
  filter (has_rule r) (validateExecutionGraph l) =
    filter (has_rule r)
      (flat_map (core_failures l) (filter (λ s, is_type core s) l))
    ++ filter (has_rule r) (flat_map (parent_failures l) l)
    ++ filter (has_rule r) (flat_map check_self l)
    ++ filter (has_rule r) (flat_map check_evidence l)
    ++ filter (has_rule r) (flat_map check_artifacts l).
Proof.
  intros Hcore. rewrite validateExecutionGraph_lists.
  rewrite decide_False by by apply has_core_filter.
  by rewrite !filter_app.
Qed.

(** C5, as the code has it. In a graph with a core span, the
    [valid_parent_reference] failures are, in graph order, one for each span
    that is not a core span and whose [parent_span_id] is a non-empty string
    equal to no [span_id] of the graph. No other span gets one: not a span
    whose parent is some span's [span_id], and not a span whose
    [parent_span_id] is null or the empty string. *)
Theorem valid_parent_reference_failures (l : list ExecutionSpan) :
  (∃ c, c ∈ l ∧ type c = core) →
  filter (has_rule (lit "valid_parent_reference")) (validateExecutionGraph l)
  = flat_map
      (λ s, match parent_span_id s with
            | Some p =>
                if decide (p ≠ [] ∧ (p ∉ map span_id l) ∧ type s ≠ core)
                then [valid_parent_reference s p] else []
            | None => []
            end) l.
Proof.
  intros Hcore. rewrite filter_rule_validate by done.
  rewrite (filter_Forall_nil _ (flat_map (core_failures l) _)).
  2:{ apply Forall_flat_map_intro. intros c. other_rule core_failures_rules. }
  rewrite (filter_Forall_id _ (flat_map (parent_failures l) l)).
  2:{ apply Forall_flat_map_intro. intros s. apply parent_failures_rules. }
  rewrite (filter_Forall_nil _ (flat_map check_self l)).
  2:{ apply Forall_flat_map_intro. intros s. other_rule check_self_rules. }
  rewrite (filter_Forall_nil _ (flat_map check_evidence l)).
  2:{ apply Forall_flat_map_intro. intros s. other_rule check_evidence_rules. }
  rewrite (filter_Forall_nil _ (flat_map check_artifacts l)).
  2:{ apply Forall_flat_map_intro. intros s. other_rule check_artifacts_rules. }
  cbn [app]. rewrite app_nil_r. done.
Qed.

Lemma valid_parent_reference_failures_witness :
  (∃ c, c ∈ [Sample.core1; Sample.orphan_repo] ∧ type c = core)
  ∧ filter (has_rule (lit "valid_parent_reference"))
      (validateExecutionGraph [Sample.core1; Sample.orphan_repo])
    = [valid_parent_reference Sample.orphan_repo (lit "nonexistent")].
Proof.
  assert (∃ c, c ∈ [Sample.core1; Sample.orphan_repo] ∧ type c = core)
    as Hcore by (exists Sample.core1; split; [left|reflexivity]).
  split; [exact Hcore|].
  rewrite (valid_parent_reference_failures _ Hcore).
  vm_compute. reflexivity.
Defined.

(** C5 as stated fails: a repo span whose [parent_span_id] is null resolves
    to nothing, yet the validator emits no [valid_parent_reference] for it. *)
Lemma rootless_repo_not_reported :
  Sample.core1 ∈ [Sample.core1; Sample.rootless_repo]
  ∧ type Sample.core1 = core
  ∧ Sample.rootless_repo ∈ [Sample.core1; Sample.rootless_repo]
  ∧ type Sample.rootless_repo ≠ core
  ∧ parent_span_id Sample.rootless_repo = None
  ∧ filter (has_rule (lit "valid_parent_reference"))
      (validateExecutionGraph [Sample.core1; Sample.rootless_repo]) = [].
Proof.
  split_and!; [left|done|right; left|done|done|].
  vm_compute. reflexivity.
Qed.

(** C6, as the code has it. In a graph with a core span, the
    [evidence_must_be_verifiable] failures are, in graph order, one for each
    evidence entry whose value is empty or made of white space only, reported
    on the span that carries the entry; an entry whose value has a character
    that is not white space gets none. *)
Theorem evidence_must_be_verifiable_failures (l : list ExecutionSpan) :
  (∃ c, c ∈ l ∧ type c = core) →
  filter (has_rule (lit "evidence_must_be_verifiable")) (validateExecutionGraph l)
  = flat_map
      (λ s, flat_map
              (λ ev, if forallb isWhiteSpace (SpanEvidence.value ev)
                     then [evidence_must_be_verifiable s] else [])
              (evidence s)) l.
Proof.
  intros Hcore. rewrite filter_rule_validate by done.
  rewrite (filter_Forall_nil _ (flat_map (core_failures l) _)).
  2:{ apply Forall_flat_map_intro. intros c. other_rule core_failures_rules. }
  rewrite (filter_Forall_nil _ (flat_map (parent_failures l) l)).
  2:{ apply Forall_flat_map_intro. intros s. other_rule parent_failures_rules. }
  rewrite (filter_Forall_nil _ (flat_map check_self l)).
  2:{ apply Forall_flat_map_intro. intros s. other_rule check_self_rules. }
  rewrite (filter_Forall_id _ (flat_map check_evidence l)).
  2:{ apply Forall_flat_map_intro. intros s. apply check_evidence_rules. }
  rewrite (filter_Forall_nil _ (flat_map check_artifacts l)).
  2:{ apply Forall_flat_map_intro. intros s. other_rule check_artifacts_rules. }
  cbn [app]. rewrite app_nil_r.
  apply flat_map_ext. intros s. unfold check_evidence.
  apply flat_map_ext. intros ev. by rewrite blank_whitespace_only.
Qed.

Lemma evidence_must_be_verifiable_failures_witness :
  (∃ c, c ∈ [Sample.core_two_evidence; Sample.repo1; Sample.agent1]
        ∧ type c = core)
  ∧ filter (has_rule (lit "evidence_must_be_verifiable"))
      (validateExecutionGraph
         [Sample.core_two_evidence; Sample.repo1; Sample.agent1])
    = [evidence_must_be_verifiable Sample.core_two_evidence].
Proof.
  assert (∃ c, c ∈ [Sample.core_two_evidence; Sample.repo1; Sample.agent1]
               ∧ type c = core)
    as Hcore by (exists Sample.core_two_evidence; split; [left|reflexivity]).
  split; [exact Hcore|].
  rewrite (evidence_must_be_verifiable_failures _ Hcore).
  vm_compute. reflexivity.
Defined.

(** C6 as stated fails: the value [" "] is not the empty string, and the
    entry is reported all the same. *)
Lemma space_evidence_reported :
  SpanEvidence.value Sample.space_evidence ≠ []
  ∧ Sample.space_evidence ∈ evidence Sample.core_with_space
  ∧ validateExecutionGraph [Sample.core_with_space; Sample.repo1; Sample.agent1]
    = [evidence_must_be_verifiable Sample.core_with_space].
Proof.
  split_and!; [done|left|].
  vm_compute. reflexivity.
Qed.

(** ** Updating a span by its identifier *)

Lemma elem_of_map_span_id (l : list ExecutionSpan) (k : jsstring) :
  k ∈ map span_id l ↔ ∃ s, s ∈ l ∧ span_id s = k.
Proof.
  rewrite list_elem_of_In, in_map_iff. split.
  - intros (s & Hs & Hin). exists s. by rewrite list_elem_of_In.
  - intros (s & Hin & Hs). exists s. by rewrite <- list_elem_of_In.
Qed.

Lemma updateSpan_miss spanId updater ctx w :
  spanId ∉ map span_id (spans ctx) →
  updateSpan spanId updater ctx w = (Normal ctx, w).
Proof.
  intros Hmiss. unfold updateSpan.
  destruct (list_find _ _) as [[index s]|] eqn:Hfind; [|done].
  apply list_find_Some in Hfind as (Hlook & Hid & _).
  exfalso. apply Hmiss, elem_of_map_span_id. exists s. split; [|done].
  by eapply list_elem_of_lookup_2.
Qed.

(** [updateSpan] on the first span that has the identifier. *)
Lemma updateSpan_hit spanId updater ctx pre s post s' w w' :
  spans ctx = pre ++ s :: post →
  spanId ∉ map span_id pre →
  span_id s = spanId →
  updater s w = (Normal s', w') →
  updateSpan spanId updater ctx w
  = (Normal {| coreSpan := coreSpan ctx; spans := pre ++ s' :: post |}, w').
Proof.
  intros Hspans Hpre Hid Hupd. unfold updateSpan. rewrite Hspans.
  assert (list_find (λ t, span_id t = spanId) (pre ++ s :: post)
          = Some (length pre, s)) as ->.
  { apply list_find_Some. split_and!.
    - by rewrite list_lookup_middle.
    - done.
    - intros j y Hj Hlt Hy. apply Hpre, elem_of_map_span_id. exists y.
      split; [|done]. rewrite lookup_app_l in Hj by done.
      by eapply list_elem_of_lookup_2. }
  unfold bind. rewrite Hupd. unfold ret.
  by rewrite insert_app_r_alt, Nat.sub_diag by done.
Qed.

(** C10. An identifier that no recorded span has makes each of the six
    by-identifier operations return normally with the context, and the
    environment, exactly as they were. *)
Theorem unknown_span_id_is_noop
    (ctx : ExecutionContext) (spanId : jsstring) (reasons : list jsstring)
    (artifact : ArtifactArg.t) (ev : SpanEvidence.t) (w : World) :
  spanId ∉ map span_id (spans ctx) →
  completeRepoSpan spanId ctx w = (Normal ctx, w)
  ∧ failRepoSpan spanId reasons ctx w = (Normal ctx, w)
  ∧ completeAgentSpan spanId ctx w = (Normal ctx, w)
  ∧ failAgentSpan spanId reasons ctx w = (Normal ctx, w)
  ∧ attachArtifactToSpan spanId artifact ctx w = (Normal ctx, w)
  ∧ attachEvidenceToSpan spanId ev ctx w = (Normal ctx, w).
Proof.
  intros Hmiss. split_and!; by apply updateSpan_miss.
Qed.

Lemma unknown_span_id_is_noop_witness :
  (lit "missing" ∉ map span_id (spans Sample.fresh_context))
  ∧ completeRepoSpan (lit "missing") Sample.fresh_context Sample.world
    = (Normal Sample.fresh_context, Sample.world)
  ∧ failAgentSpan (lit "missing") [lit "late"] Sample.fresh_context Sample.world
    = (Normal Sample.fresh_context, Sample.world).
Proof.
  assert (lit "missing" ∉ map span_id (spans Sample.fresh_context)) as Hmiss
    by by_evaluation.
  split; [exact Hmiss|].
  destruct (unknown_span_id_is_noop Sample.fresh_context (lit "missing")
              [lit "late"] Sample.report Sample.id_evidence_123 Sample.world
              Hmiss) as (H1 & _ & _ & H4 & _).
  split; [exact H1|exact H4].
Defined.

(** ** The span model: which spans carry failure reasons *)

(** Inverts one run of a span-model function. *)
Ltac run_inv H :=
  cbv [createCoreSpan createRepoSpan createAgentSpan completeSpan failSpan
       attachArtifact attachEvidence bind ret generateSpanId now] in H;
  repeat match type of H with
    | context [match ?x with _ => _ end] => destruct x
    end;
  inversion H; subst; clear H.

(** C7, as the code has it. [completeSpan] keeps [failure_reasons] as they
    are, so the invariant holds of the spans obtained without completing a
    failed span; completing such a span that satisfies it gives a span that
    satisfies it. *)
Theorem reasons_only_when_failed_unless_refinished (s : ExecutionSpan) :
  obtainable (λ s, status s ≠ failed) s →
  reasons_only_when_failed s
  ∧ ∀ w s' w', completeSpan s w = (Normal s', w') → status s ≠ failed →
      reasons_only_when_failed s'.
Proof.
  intros Hs.
  assert (reasons_only_when_failed s) as Hinv.
  { induction Hs as
      [ ? ? ? ? ? Hrun | ? ? ? ? ? Hrun | ? ? ? ? ? ? Hrun
      | ? ? ? ? _ IH Hlive Hrun | ? ? ? ? ? _ IH Hrun
      | ? ? ? ? ? _ IH Hrun | ? ? ? ? ? _ IH Hrun ];
      unfold reasons_only_when_failed in *.
    - run_inv Hrun. by right.
    - run_inv Hrun. by right.
    - run_inv Hrun. by right.
    - run_inv Hrun. cbn. right. by destruct IH.
    - run_inv Hrun. cbn. by left.
    - run_inv Hrun; cbn; done.
    - run_inv Hrun. cbn. done. }
  split; [exact Hinv|].
  intros w s' w' Hrun Hlive. run_inv Hrun.
  unfold reasons_only_when_failed in *. cbn. right. by destruct Hinv.
Qed.

Lemma started_core_obtainable G : obtainable G Sample.started_core.
Proof.
  by eapply (obtain_core G (lit "test-core") None Sample.world).
Qed.

Lemma reasons_only_when_failed_unless_refinished_witness :
  obtainable (λ s, status s ≠ failed) Sample.started_core
  ∧ reasons_only_when_failed Sample.started_core
  ∧ ∀ w s' w', completeSpan Sample.started_core w = (Normal s', w') →
      status Sample.started_core ≠ failed → reasons_only_when_failed s'.
Proof.
  split; [apply started_core_obtainable|].
  apply (reasons_only_when_failed_unless_refinished Sample.started_core).
  apply started_core_obtainable.
Defined.

(** C7 as stated fails: failing a span and then completing it gives a span
    that is [completed] and still carries the failure reason. *)
Lemma refinished_span_keeps_reasons :
  obtainable (λ _, True) Sample.refinished_core
  ∧ ¬ reasons_only_when_failed Sample.refinished_core.
Proof.
  split.
  - eapply (obtain_complete _ Sample.failed_core Sample.world);
      [|exact I|reflexivity].
    eapply (obtain_fail _ Sample.started_core [lit "boom"] Sample.world);
      [|reflexivity].
    apply started_core_obtainable.
  - intros [H|H]; discriminate H.
Qed.

(** ** The execution context *)

Section context_invariant.
Implicit Types (ctx : ExecutionContext) (w : World).

(** The loop of [ingestRepoSpans] over an array that is not the recorded
    one, from index [i]: when it ends, the rest of the array was appended. *)
Lemma ingest_from_other fuel i l ctx ctx' :
  ingest_from fuel i (OtherArray l) ctx = Some ctx' →
  ctx' = {| coreSpan := coreSpan ctx; spans := spans ctx ++ drop i l |}.
Proof.
  revert i ctx. induction fuel as [|fuel IH]; intros i ctx; [done|].
  cbn [ingest_from]. destruct (l !! i) as [span|] eqn:Hi.
  - intros Hrun. apply IH in Hrun. rewrite Hrun. unfold push. cbn.
    rewrite <- app_assoc. cbn. by rewrite <- (drop_S _ _ _ Hi).
  - intros [= <-]. apply lookup_ge_None in Hi.
    rewrite drop_ge, app_nil_r by done. by destruct ctx.
Qed.

(** Over the recorded array itself the loop does not end, however many
    turns it is given, once the index is inside the array. *)
Lemma ingest_from_recorded fuel i ctx :
  i < length (spans ctx) → ingest_from fuel i RecordedArray ctx = None.
Proof.
  revert i ctx. induction fuel as [|fuel IH]; intros i ctx Hi; [done|].
  cbn [ingest_from]. destruct (spans ctx !! i) as [span|] eqn:Hlook.
  - apply IH. unfold push. cbn. rewrite length_app. cbn. lia.
  - apply lookup_ge_None in Hlook. lia.
Qed.

(** What a call of [ingestRepoSpans] that returns has done. *)
Lemma ingestRepoSpans_inv fuel spans_argument ctx ctx' :
  ingestRepoSpans fuel spans_argument ctx = Some ctx' →
  ∃ l, ctx' = {| coreSpan := coreSpan ctx; spans := spans ctx ++ l |}.
Proof.
  unfold ingestRepoSpans. destruct spans_argument as [l|].
  - intros Hrun%ingest_from_other. by exists l.
  - destruct (spans ctx) as [|c rest] eqn:Hs.
    + destruct fuel as [|fuel]; [done|]. cbn [ingest_from]. rewrite Hs. cbn.
      intros [= <-]. exists []. destruct ctx. cbn in *. by subst.
    + rewrite ingest_from_recorded; [done|]. rewrite Hs. cbn. lia.
Qed.

Lemma keeps_id_completeSpan : keeps_id (λ s, completeSpan s).
Proof. intros s w s' w' H. by run_inv H. Qed.

Lemma keeps_id_failSpan reasons : keeps_id (λ s, failSpan s reasons).
Proof. intros s w s' w' H. by run_inv H. Qed.

Lemma push_core_first ctx span : core_first ctx → core_first (push ctx span).
Proof.
  intros (c & rest & Hs & Hid). exists c, (rest ++ [span]).
  cbn. by rewrite Hs.
Qed.

Lemma updateSpan_core_first spanId updater ctx w ctx' w' :
  keeps_id updater → core_first ctx →
  updateSpan spanId updater ctx w = (Normal ctx', w') → core_first ctx'.
Proof.
  intros Hkeep (c & rest & Hs & Hid) Hrun. unfold updateSpan in Hrun.
  destruct (list_find _ _) as [[index s]|] eqn:Hfind.
  - unfold bind in Hrun. destruct (updater s w) as [[s'|e] w1] eqn:Hupd;
      [|discriminate]. inversion Hrun; subst; clear Hrun. cbn.
    apply list_find_Some in Hfind as (Hlook & _ & _).
    apply Hkeep in Hupd. rewrite Hs in *. destruct index as [|index]; cbn.
    + inversion Hlook; subst. exists s', rest. split; [done|]. cbn. congruence.
    + by exists c, (<[index := s']> rest).
  - inversion Hrun; subst. by exists c, rest.
Qed.

Lemma finalize_core_first {R} (r : R) ctx w res ctx' w' :
  core_first ctx → finalize r ctx w = (Normal (res, ctx'), w') →
  core_first ctx'.
Proof.
  intros Hinv Hrun. unfold finalize in Hrun. cbv zeta in Hrun.
  unfold bind at 1 in Hrun.
  match type of Hrun with
  | context [if ?b then _ else _] => destruct b
  end.
  - destruct (updateSpan _ _ ctx w) as [[ctx1|e] w1] eqn:Hupd; [|discriminate].
    inversion Hrun; subst.
    eapply updateSpan_core_first; [apply keeps_id_completeSpan|done..].
  - destruct (updateSpan _ _ ctx w) as [[ctx1|e] w1] eqn:Hupd; [|discriminate].
    inversion Hrun; subst.
    eapply updateSpan_core_first; [apply keeps_id_failSpan|done..].
Qed.

Lemma reachable_core_first ctx : reachable ctx → core_first ctx.
Proof.
  induction 1 as
    [ ? ? ? ? ? Hrun | ? ? ? ? ? ? _ IH Hrun | ? ? ? ? ? ? ? ? _ IH Hrun
    | ? ? ? ? ? _ IH Hrun | ? ? ? ? ? ? _ IH Hrun | ? ? ? ? ? _ IH Hrun
    | ? ? ? ? ? ? _ IH Hrun | ctx fuel spans_argument ctx' _ IH Hrun
    | ? ? ? ? ? ? _ IH Hrun
    | ? ? ? ? ? ? _ IH Hrun | ? ? ? ? ? ? ? _ IH Hrun ].
  - cbv [new_ExecutionContext createCoreSpan bind ret generateSpanId now] in Hrun.
    inversion Hrun; subst. by eexists _, _.
  - cbv [startRepoSpan createRepoSpan bind ret generateSpanId now] in Hrun.
    inversion Hrun; subst. by apply push_core_first.
  - cbv [startAgentSpan createAgentSpan bind ret generateSpanId now] in Hrun.
    inversion Hrun; subst. by apply push_core_first.
  - eapply updateSpan_core_first; [apply keeps_id_completeSpan|done..].
  - eapply updateSpan_core_first; [apply keeps_id_failSpan|done..].
  - eapply updateSpan_core_first; [apply keeps_id_completeSpan|done..].
  - eapply updateSpan_core_first; [apply keeps_id_failSpan|done..].
  - apply ingestRepoSpans_inv in Hrun as (l & ->).
    destruct IH as (c & rest & Hs & Hid). exists c, (rest ++ l).
    cbn. by rewrite Hs.
  - eapply updateSpan_core_first; [|done..].
    intros s w1 s' w2 H1. cbv [bind now ret] in H1. by inversion H1.
  - eapply updateSpan_core_first; [|done..].
    intros s w1 s' w2 H1. cbv [ret] in H1. by inversion H1.
  - by eapply finalize_core_first.
Qed.
End context_invariant.

(** What [finalize] does on a context whose first recorded span [c] is the
    core span's entry. *)
Lemma finalize_run {R : Type} (ctx : ExecutionContext) (operationResult : R)
    (w : World) c rest :
  spans ctx = c :: rest →
  span_id c = coreSpanId ctx →
  let reasons := core_failure_reasons ctx in
  ∃ c' w',
    (if decide (reasons = []) then completeSpan c w else failSpan c reasons w)
    = (Normal c', w')
    ∧ status c' = (if decide (reasons = []) then completed else failed)
    ∧ finalize operationResult ctx w
      = (Normal
           (CoreExecutionResult.mk (bool_decide (reasons = []))
              (coreSpanId ctx) (c' :: rest)
              (validateExecutionGraph (spans ctx)) reasons operationResult,
            {| coreSpan := coreSpan ctx; spans := c' :: rest |}),
         w').
Proof.
  intros Hspans Hid reasons.
  assert (∃ c' w',
    (if decide (reasons = []) then completeSpan c w else failSpan c reasons w)
    = (Normal c', w')
    ∧ status c' = (if decide (reasons = []) then completed else failed))
    as (c' & w' & Hupd & Hstatus).
  { case_decide; by eexists _, _. }
  exists c', w'. split_and!; [done..|].
  unfold finalize. cbv zeta.
  set (failures := validateExecutionGraph (spans ctx)) in *.
  set (n := length (filter (is_failed_child ctx) (spans ctx))) in *.
  assert ((if negb (bool_decide (length failures = 0))
           then [] ++ map format_failure failures else [])
          = map format_failure failures) as ->.
  { by destruct failures. }
  assert ((if decide (0 < n)
           then map format_failure failures
                ++ [String_of_nat n ++ lit " child span(s) failed"]
           else map format_failure failures) = reasons) as ->.
  { unfold reasons, core_failure_reasons, child_summary. cbv zeta.
    fold failures. fold n.
    destruct (decide (0 < n)); [done|by rewrite app_nil_r]. }
  rewrite (bool_decide_ext (length reasons = 0) (reasons = []))
    by apply length_zero_iff_nil.
  unfold bind at 1.
  assert (spans ctx = [] ++ c :: rest) as Happ by done.
  assert (span_id (coreSpan ctx) ∉ map span_id []) as Hnil
    by apply not_elem_of_nil.
  destruct (decide (reasons = [])) as [Hr|Hr].
  - rewrite (bool_decide_eq_true_2 _ Hr). cbv iota.
    by rewrite (updateSpan_hit _ (λ s, completeSpan s) ctx [] c rest c' w w'
                  Happ Hnil Hid Hupd).
  - rewrite (bool_decide_eq_false_2 _ Hr). cbv iota.
    by rewrite (updateSpan_hit _ (λ s, failSpan s reasons) ctx [] c rest c' w w'
                  Happ Hnil Hid Hupd).
Qed.

(** ** Reasoning about runs *)

Section runs.
Context {A B : Type}.
Implicit Types (w : World) (ctx : ExecutionContext).

Lemma returns_ret (a : A) w (Q : A → World → Prop) :
  Q a w → returns (ret a) w Q.
Proof. intros HQ. by exists a, w. Qed.

Lemma returns_bind (m : M A) (f : A → M B) w (Q : B → World → Prop) :
  returns m w (λ a w', returns (f a) w' Q) → returns (bind m f) w Q.
Proof.
  intros (a & w1 & Hm & b & w2 & Hf & HQ). exists b, w2.
  unfold bind. by rewrite Hm.
Qed.

Lemma returns_mono (m : M A) w (Q Q' : A → World → Prop) :
  returns m w Q → (∀ a w', Q a w' → Q' a w') → returns m w Q'.
Proof. intros (a & w' & Hm & HQ) Himp. exists a, w'. auto. Qed.

(** A [try] block that starts with the call of a collaborator. *)
Lemma returns_try_call (fn : External A) (f : A → M B) (h : Thrown → M B) w
    (Q : B → World → Prop) :
  (∀ w1, moved w w1 (draws fn) →
     match settles fn with
     | Normal v => returns (f v) w1 Q
     | Abrupt error => returns (h error) w1 Q
     end) →
  returns (try_catch (bind (call fn) f) h) w Q.
Proof.
  intros Hk.
  specialize (Hk {| uuid_at := uuid_at w; uuid_pos := uuid_pos w + draws fn;
                    iso_at := iso_at w;
                    clock_pos := clock_pos w + clock_reads fn |}
                (conj eq_refl eq_refl)).
  unfold returns, try_catch, bind, call in *.
  destruct (settles fn) as [v|error].
  - destruct Hk as (b & w2 & Hf & HQ). exists b, w2. by rewrite Hf.
  - destruct Hk as (b & w2 & Hf & HQ). by exists b, w2.
Qed.

(** A [catch] clause that starts by taking the message of what was thrown. *)
Lemma returns_errorMessage (error : Thrown) (f : jsstring → M B) w
    (Q : B → World → Prop) :
  renderable error →
  returns (f (message_of error)) w Q →
  returns (bind (errorMessage error) f) w Q.
Proof. destruct error; [intros _ H; exact H..|done]. Qed.
End runs.

Lemma moved_trans w1 w2 w3 j k :
  moved w1 w2 j → moved w2 w3 k → moved w1 w3 (j + k).
Proof. intros [H1 H2] [H3 H4]. split; [congruence|lia]. Qed.

Lemma createCoreSpan_returns coreName parentSpanId w :
  returns (createCoreSpan coreName parentSpanId) w
    (λ s w', moved w w' 1
       ∧ ∃ t, s = {| span_id := uuid_at w (uuid_pos w);
                     parent_span_id := parentSpanId; type := core;
                     name := coreName; repo_name := None; agent_name := None;
                     operation := None; status := running; start_time := t;
                     end_time := None; artifacts := []; evidence := [];
                     failure_reasons := []; metadata := ∅ |}).
Proof.
  eexists _, _. split; [reflexivity|]. split; [split; cbn; [done|lia]|].
  by eexists.
Qed.

Lemma createRepoSpan_returns repoName parentSpanId w :
  returns (createRepoSpan repoName parentSpanId) w
    (λ s w', moved w w' 1
       ∧ ∃ t, s = {| span_id := uuid_at w (uuid_pos w);
                     parent_span_id := Some parentSpanId; type := repo;
                     name := lit "repo:" ++ repoName;
                     repo_name := Some repoName; agent_name := None;
                     operation := None; status := running; start_time := t;
                     end_time := None; artifacts := []; evidence := [];
                     failure_reasons := []; metadata := ∅ |}).
Proof.
  eexists _, _. split; [reflexivity|]. split; [split; cbn; [done|lia]|].
  by eexists.
Qed.

Lemma createAgentSpan_returns agentName operation parentSpanId w :
  returns (createAgentSpan agentName operation parentSpanId) w
    (λ s w', moved w w' 1
       ∧ ∃ t, s = {| span_id := uuid_at w (uuid_pos w);
                     parent_span_id := Some parentSpanId; type := agent;
                     name := lit "agent:" ++ agentName ++ lit ":" ++ operation;
                     repo_name := None; agent_name := Some agentName;
                     operation := Some operation; status := running;
                     start_time := t; end_time := None; artifacts := [];
                     evidence := []; failure_reasons := []; metadata := ∅ |}).
Proof.
  eexists _, _. split; [reflexivity|]. split; [split; cbn; [done|lia]|].
  by eexists.
Qed.

Lemma completeSpan_returns s w :
  returns (completeSpan s) w
    (λ s' w', moved w w' 0 ∧ ∃ t, s' = completed_at s t).
Proof.
  eexists _, _. split; [reflexivity|]. split; [split; cbn; [done|lia]|].
  by eexists.
Qed.

Lemma failSpan_returns s reasons w :
  returns (failSpan s reasons) w
    (λ s' w', moved w w' 0 ∧ ∃ t, s' = failed_at s reasons t).
Proof.
  eexists _, _. split; [reflexivity|]. split; [split; cbn; [done|lia]|].
  by eexists.
Qed.

(** [updateSpan] on the first span that has the identifier, as a rule. *)
Lemma updateSpan_returns spanId updater ctx pre s post w
    (Q : ExecutionSpan → World → Prop) :
  spans ctx = pre ++ s :: post →
  spanId ∉ map span_id pre →
  span_id s = spanId →
  returns (updater s) w Q →
  returns (updateSpan spanId updater ctx) w
    (λ ctx' w', ∃ s', Q s' w'
       ∧ ctx' = {| coreSpan := coreSpan ctx; spans := pre ++ s' :: post |}).
Proof.
  intros Hspans Hpre Hid (s' & w' & Hupd & HQ).
  exists {| coreSpan := coreSpan ctx; spans := pre ++ s' :: post |}, w'.
  split; [by eapply updateSpan_hit|]. by exists s'.
Qed.

(** ** A repo span and its agent span, from creation to settlement *)

Section pair_updates.
Implicit Types (w : World) (ctx : ExecutionContext) (pre : list ExecutionSpan).

Lemma fresh_not_recorded w l k :
  fresh_ids w → ids_below w l → uuid_pos w ≤ k →
  uuid_at w k ∉ map span_id l.
Proof.
  intros [Hinj _] Hbelow Hk Hin. apply elem_of_map_span_id in Hin.
  destruct Hin as (s & Hs & Hid). destruct (Hbelow s Hs) as (i & Hi & Hsi).
  assert (i = k) by (apply Hinj; congruence). lia.
Qed.

Lemma ids_below_moved w w' k l :
  moved w w' k → ids_below w l → ids_below w' l.
Proof.
  intros [Hat Hpos] Hbelow s Hs. destruct (Hbelow s Hs) as (i & Hi & Hsi).
  exists i. rewrite Hat, Hpos. split; [lia|done].
Qed.

Lemma fresh_ids_moved w w' k : moved w w' k → fresh_ids w → fresh_ids w'.
Proof. intros [Hat _] [Hinj Hne]. unfold fresh_ids. rewrite Hat. done. Qed.

Lemma push_push ctx r a :
  push (push ctx r) a
  = {| coreSpan := coreSpan ctx; spans := spans ctx ++ [r; a] |}.
Proof. unfold push. cbn. by rewrite <- app_assoc. Qed.

Lemma startRepoSpan_returns repoName ctx w :
  returns (startRepoSpan repoName ctx) w
    (λ '(span, ctx') w', moved w w' 1 ∧ ctx' = push ctx span
       ∧ ∃ t, span = {| span_id := uuid_at w (uuid_pos w);
                        parent_span_id := Some (span_id (coreSpan ctx));
                        type := repo; name := lit "repo:" ++ repoName;
                        repo_name := Some repoName; agent_name := None;
                        operation := None; status := running; start_time := t;
                        end_time := None; artifacts := []; evidence := [];
                        failure_reasons := []; metadata := ∅ |}).
Proof.
  unfold startRepoSpan. apply returns_bind.
  eapply returns_mono; [apply createRepoSpan_returns|].
  intros s w' (Hm & t & ->). apply returns_ret. split_and!; [done..|].
  by exists t.
Qed.

Lemma startAgentSpan_returns parentRepoSpanId agentName operation ctx w :
  returns (startAgentSpan parentRepoSpanId agentName operation ctx) w
    (λ '(span, ctx') w', moved w w' 1 ∧ ctx' = push ctx span
       ∧ ∃ t, span = {| span_id := uuid_at w (uuid_pos w);
                        parent_span_id := Some parentRepoSpanId;
                        type := agent;
                        name := lit "agent:" ++ agentName ++ lit ":"
                                ++ operation;
                        repo_name := None; agent_name := Some agentName;
                        operation := Some operation; status := running;
                        start_time := t; end_time := None; artifacts := [];
                        evidence := []; failure_reasons := [];
                        metadata := ∅ |}).
Proof.
  unfold startAgentSpan. apply returns_bind.
  eapply returns_mono; [apply createAgentSpan_returns|].
  intros s w' (Hm & t & ->). apply returns_ret. split_and!; [done..|].
  by exists t.
Qed.

(** Updating the agent span of the last pair. *)
Lemma update_last_agent updater ctx pre r a w
    (Q : ExecutionSpan → World → Prop) :
  spans ctx = pre ++ [r; a] →
  span_id a ∉ map span_id pre → span_id a ≠ span_id r →
  returns (updater a) w Q →
  returns (updateSpan (span_id a) updater ctx) w
    (λ ctx' w', ∃ a', Q a' w'
       ∧ ctx' = {| coreSpan := coreSpan ctx; spans := pre ++ [r; a'] |}).
Proof.
  intros Hspans Hpre Hne Hupd.
  eapply returns_mono.
  - apply (updateSpan_returns _ updater ctx (pre ++ [r]) a [] w Q);
      [by rewrite <- app_assoc| |done|done].
    rewrite map_app. cbn. rewrite elem_of_app, list_elem_of_singleton.
    intros [?|?]; done.
  - intros ctx' w' (a' & HQ & ->). exists a'. by rewrite <- app_assoc.
Qed.

(** Updating the repo span of the last pair. *)
Lemma update_last_repo updater ctx pre r a w
    (Q : ExecutionSpan → World → Prop) :
  spans ctx = pre ++ [r; a] →
  span_id r ∉ map span_id pre →
  returns (updater r) w Q →
  returns (updateSpan (span_id r) updater ctx) w
    (λ ctx' w', ∃ r', Q r' w'
       ∧ ctx' = {| coreSpan := coreSpan ctx; spans := pre ++ [r'; a] |}).
Proof.
  intros Hspans Hpre Hupd.
  by apply (updateSpan_returns _ updater ctx pre r [a] w Q).
Qed.
End pair_updates.

Section settle.
Context {B : Type}.
Implicit Types (w : World) (ctx : ExecutionContext) (K : ExecutionContext → M B).

(** The three updates after a collaborator resolved, before what follows. *)
Lemma resolved_updates ctx pre r a ev w K (Q : B → World → Prop) :
  spans ctx = pre ++ [r; a] →
  span_id r ∉ map span_id pre → span_id a ∉ map span_id pre →
  span_id a ≠ span_id r →
  (∀ t1 t2 w', moved w w' 0 →
     returns
       (K {| coreSpan := coreSpan ctx;
             spans := pre ++ [completed_at r t2;
                              completed_at
                                (with_evidence a (evidence a ++ [ev])) t1] |})
       w' Q) →
  returns
    (bind (attachEvidenceToSpan (span_id a) ev ctx)
       (λ ctx, bind (completeAgentSpan (span_id a) ctx)
                 (λ ctx, bind (completeRepoSpan (span_id r) ctx) K)))
    w Q.
Proof.
  intros Hspans Hr Ha Hne HK.
  apply returns_bind. eapply returns_mono.
  { apply (update_last_agent _ ctx pre r a w (λ s' w', s' = with_evidence a
             (evidence a ++ [ev]) ∧ w' = w)); [done..|].
    by apply returns_ret. }
  intros ctx1 w1 (a1 & [-> ->] & ->).
  apply returns_bind. eapply returns_mono.
  { apply (update_last_agent (λ s, completeSpan s) _ pre r
             (with_evidence a (evidence a ++ [ev])));
      [reflexivity|exact Ha|exact Hne|apply completeSpan_returns]. }
  intros ctx2 w2 (a2 & (Hm2 & t1 & ->) & ->).
  apply returns_bind. eapply returns_mono.
  { apply (update_last_repo (λ s, completeSpan s) _ pre r
             (completed_at (with_evidence a (evidence a ++ [ev])) t1));
      [reflexivity|exact Hr|apply completeSpan_returns]. }
  intros ctx3 w3 (r3 & (Hm3 & t2 & ->) & ->).
  apply HK. apply (moved_trans _ _ _ 0 0 Hm2 Hm3).
Qed.

(** The two updates after a collaborator threw, before what follows. *)
Lemma rejected_updates ctx pre r a reasons_a reasons_r w K
    (Q : B → World → Prop) :
  spans ctx = pre ++ [r; a] →
  span_id r ∉ map span_id pre → span_id a ∉ map span_id pre →
  span_id a ≠ span_id r →
  (∀ t1 t2 w', moved w w' 0 →
     returns
       (K {| coreSpan := coreSpan ctx;
             spans := pre ++ [failed_at r reasons_r t2;
                              failed_at a reasons_a t1] |})
       w' Q) →
  returns
    (bind (failAgentSpan (span_id a) reasons_a ctx)
       (λ ctx, bind (failRepoSpan (span_id r) reasons_r ctx) K))
    w Q.
Proof.
  intros Hspans Hr Ha Hne HK.
  apply returns_bind. eapply returns_mono.
  { apply (update_last_agent (λ s, failSpan s reasons_a) _ pre r a);
      [exact Hspans|exact Ha|exact Hne|apply failSpan_returns]. }
  intros ctx2 w2 (a2 & (Hm2 & t1 & ->) & ->).
  apply returns_bind. eapply returns_mono.
  { apply (update_last_repo (λ s, failSpan s reasons_r) _ pre r
             (failed_at a reasons_a t1));
      [reflexivity|exact Hr|apply failSpan_returns]. }
  intros ctx3 w3 (r3 & (Hm3 & t2 & ->) & ->).
  apply HK. apply (moved_trans _ _ _ 0 0 Hm2 Hm3).
Qed.
End settle.

(** One turn of the multi-repo loop, in an environment of fresh identifiers:
    the pair of spans it appends is settled as the collaborator did. *)
Lemma multi_step_returns {U} (st : LoopState U) (e : RepoEntry.t U) w :
  fresh_ids w → ids_below w (spans (loop_ctx st)) →
  renders (RepoEntry.fn e) →
  returns (multi_step st e) w
    (λ st' w',
       moved w w' (2 + draws (RepoEntry.fn e))
       ∧ ∃ t1 t2 t3 t4,
           st' =
             {| loop_ctx :=
                  {| coreSpan := coreSpan (loop_ctx st);
                     spans :=
                       spans (loop_ctx st)
                       ++ [settled_repo e (span_id (coreSpan (loop_ctx st)))
                             (uuid_at w (uuid_pos w)) t1 t2;
                           settled_agent e (uuid_at w (uuid_pos w))
                             (uuid_at w (S (uuid_pos w))) t3 t4] |};
                results := results st ++ [placeholder e];
                hasFailure := hasFailure st || throws e |}).
Proof.
  intros Hfresh Hbelow Hrenders. unfold multi_step.
  apply returns_bind. eapply returns_mono; [apply startRepoSpan_returns|].
  intros [r ctx1] w1 (Hm1 & -> & t1 & ->). cbv beta iota.
  apply returns_bind. eapply returns_mono; [apply startAgentSpan_returns|].
  intros [a ctx2] w2 (Hm2 & -> & t3 & ->). cbv beta iota.
  rewrite push_push.
  assert (uuid_at w1 (uuid_pos w1) = uuid_at w (S (uuid_pos w))) as Haid.
  { destruct Hm1 as [-> ->]. f_equal. lia. }
  rewrite Haid. clear Haid.
  set (r := {| span_id := uuid_at w (uuid_pos w); type := repo |}).
  set (a := {| span_id := uuid_at w (S (uuid_pos w)); type := agent |}).
  assert (span_id r ∉ map span_id (spans (loop_ctx st))) as Hr
    by by apply fresh_not_recorded.
  assert (span_id a ∉ map span_id (spans (loop_ctx st))) as Ha
    by (apply fresh_not_recorded; [done|done|lia]).
  assert (span_id a ≠ span_id r) as Hne.
  { cbn. intros Heq. apply Hfresh in Heq. lia. }
  pose proof (moved_trans _ _ _ _ _ Hm1 Hm2) as Hm12.
  apply returns_try_call. intros w3 Hm3.
  pose proof (moved_trans _ _ _ _ _ Hm12 Hm3) as Hm13.
  unfold placeholder, throws, settled_repo, settled_agent.
  unfold renders in Hrenders.
  destruct (settles (RepoEntry.fn e)) as [v|error].
  - apply (resolved_updates _ (spans (loop_ctx st)) r a); [done..|].
    intros t2 t4 w4 Hm4. apply returns_ret. split.
    + pose proof (moved_trans _ _ _ _ _ Hm13 Hm4) as [? ?]. split; [done|lia].
    + exists t1, t4, t3, t2. rewrite orb_false_r. done.
  - apply returns_errorMessage; [done|].
    apply (rejected_updates _ (spans (loop_ctx st)) r a); [done..|].
    intros t2 t4 w4 Hm4. apply returns_ret. split.
    + pose proof (moved_trans _ _ _ _ _ Hm13 Hm4) as [? ?]. split; [done|lia].
    + exists t1, t4, t3, t2. rewrite orb_true_r. done.
Qed.

(** The whole loop, in an environment of fresh identifiers, on a context
    whose spans, the core span among them, got their identifiers from it. *)
Lemma multi_loop_returns {U} (repos : list (RepoEntry.t U)) (st : LoopState U) w :
  fresh_ids w → ids_below w (spans (loop_ctx st)) →
  span_id (coreSpan (loop_ctx st)) ∈ map span_id (spans (loop_ctx st)) →
  Forall (λ e, renders (RepoEntry.fn e)) repos →
  returns (multi_loop repos st) w
    (λ st' w',
       ∃ tail,
         st' = {| loop_ctx :=
                    {| coreSpan := coreSpan (loop_ctx st);
                       spans := spans (loop_ctx st) ++ tail |};
                  results := results st ++ map placeholder repos;
                  hasFailure := hasFailure st || existsb throws repos |}
         ∧ settled_pairs (span_id (coreSpan (loop_ctx st))) repos tail).
Proof.
  revert st w.
  induction repos as [|e repos IH]; intros st w Hfresh Hbelow Hcore Hrenders.
  - apply returns_ret. exists []. split; [|constructor].
    destruct st as [[c l] rs hf]. cbn. by rewrite !app_nil_r, orb_false_r.
  - apply Forall_cons in Hrenders as [Hrender Hrenders].
    cbn [multi_loop]. apply returns_bind.
    eapply returns_mono; [by apply multi_step_returns|].
    intros st1 w1 (Hm & t1 & t2 & t3 & t4 & ->).
    assert (uuid_at w (uuid_pos w) ∉ map span_id (spans (loop_ctx st))) as Hr
      by by apply fresh_not_recorded.
    assert (uuid_at w (S (uuid_pos w)) ∉ map span_id (spans (loop_ctx st)))
      as Ha by (apply fresh_not_recorded; [done|done|lia]).
    eapply returns_mono.
    { apply IH; cbn [loop_ctx spans coreSpan].
      - by eapply fresh_ids_moved.
      - intros s Hs. apply elem_of_app in Hs as [Hs|Hs].
        + by eapply ids_below_moved.
        + destruct Hm as [Hat Hpos]. rewrite Hat, Hpos.
          apply elem_of_cons in Hs as [->|Hs];
            [exists (uuid_pos w); split; [lia|done]|].
          apply list_elem_of_singleton in Hs as ->.
          exists (S (uuid_pos w)). split; [lia|done].
      - rewrite map_app. apply elem_of_app. by left.
      - done. }
    cbn [loop_ctx spans coreSpan results hasFailure].
    intros st2 w2 (tail & -> & Hpairs). eexists. split.
    + rewrite <- !app_assoc. cbn [app map existsb]. by rewrite orb_assoc.
    + apply settled_cons; [| | | |exact Hpairs].
      * apply Hfresh.
      * intros Heq. by rewrite Heq in Hr.
      * intros Heq. by rewrite Heq in Ha.
      * intros Heq. apply Hfresh in Heq. lia.
Qed.

(** ** Graphs the validator accepts *)

Section accepted.
Implicit Types (l tail : list ExecutionSpan) (c s : ExecutionSpan).

Lemma flat_map_nil_in {A B} (f : A → list B) (k : list A) :
  (∀ a, a ∈ k → f a = []) → flat_map f k = [].
Proof.
  induction k as [|a k IH]; intros Hf; simpl; [done|].
  rewrite Hf by left. apply IH. intros b Hb. apply Hf. by right.
Qed.

Lemma well_attached_mono coreId l l' s :
  (∀ x, x ∈ l → x ∈ l') → well_attached coreId l s → well_attached coreId l' s.
Proof.
  intros Hsub (Ht & (p & Hp & Hne & Hin) & Hev & Har & Hrepo).
  split_and!; [done| |done|done|].
  - exists p. split_and!; [done..|]. destruct Hin as [?|Hin]; [by left|right].
    apply elem_of_map_span_id in Hin as (x & Hx & Hid).
    apply elem_of_map_span_id. exists x. auto.
  - intros Hr. destruct (Hrepo Hr) as (Hid & a & Ha & ?). split; [done|].
    exists a. auto.
Qed.

(** The validator accepts a core span followed by spans attached below it,
    one of which is a repo span whose parent is the core span. *)
Lemma validate_well_attached c tail :
  type c = core → span_id c ≠ [] →
  parent_span_id c ≠ Some (span_id c) →
  check_evidence c = [] → check_artifacts c = [] →
  Forall (well_attached (span_id c) tail) tail →
  (∃ r, r ∈ tail ∧ type r = repo ∧ parent_span_id r = Some (span_id c)) →
  validateExecutionGraph (c :: tail) = [].
Proof.
  intros Hc Hid Hself Hev Har Htail (r & Hr & Hrt & Hrp).
  rewrite Forall_forall in Htail.
  rewrite validateExecutionGraph_lists.
  assert (filter (λ s, is_type core s) (c :: tail) = [c]) as ->.
  { rewrite filter_cons_True by (by apply bool_decide_pack). f_equal.
    apply filter_Forall_nil, Forall_forall. intros s Hs Hcore.
    apply bool_decide_unpack in Hcore. by destruct (Htail s Hs). }
  rewrite decide_False by done.
  assert (core_failures (c :: tail) c = []) as Hcf.
  { unfold core_failures.
    assert (r ∈ repo_children (c :: tail) c) as Hrin.
    { unfold repo_children. rewrite !list_elem_of_filter. split_and!.
      - by apply bool_decide_pack.
      - done.
      - by right. }
    rewrite decide_False by (intros Hnil; rewrite Hnil in Hrin;
                             by apply not_elem_of_nil in Hrin).
    cbn [app]. apply flat_map_nil_in. intros r' Hr'.
    unfold repo_children in Hr'. rewrite !list_elem_of_filter in Hr'.
    destruct Hr' as (Hrt' & _ & Hin'). apply bool_decide_unpack in Hrt'.
    apply elem_of_cons in Hin' as [->|Hin']; [congruence|].
    destruct (Htail r' Hin') as (_ & _ & _ & _ & Hrepo).
    destruct (Hrepo Hrt') as (Hne & a & Ha & Hat & Hap).
    rewrite decide_False; [done|]. intros Hnil.
    assert (a ∈ agent_children (c :: tail) r') as Hain.
    { unfold agent_children. rewrite !list_elem_of_filter. split_and!.
      - by apply bool_decide_pack.
      - done.
      - by right. }
    rewrite Hnil in Hain. by apply not_elem_of_nil in Hain. }
  cbn [flat_map]. rewrite Hcf. cbn [app].
  assert (∀ s, s ∈ tail →
            parent_failures (c :: tail) s = [] ∧ check_self s = []
            ∧ check_evidence s = [] ∧ check_artifacts s = []) as Heach.
  { intros s Hs.
    destruct (Htail s Hs) as (Ht & (p & Hp & Hne & Hin) & Hev' & Har' & _).
    split_and!; [| |done|done].
    - unfold parent_failures. rewrite Hp. rewrite decide_False; [done|].
      intros (_ & Hnotin & _). apply Hnotin. cbn [map].
      destruct Hin as [->|Hin]; [left|by right].
    - unfold check_self. rewrite Hp. rewrite decide_False; [done|]. congruence. }
  rewrite Hev, Har.
  assert (parent_failures (c :: tail) c = []) as ->.
  { unfold parent_failures. destruct (parent_span_id c); [|done].
    rewrite decide_False; [done|]. by intros (_ & _ & ?). }
  assert (check_self c = []) as ->.
  { unfold check_self. by rewrite decide_False. }
  cbn [app].
  rewrite !flat_map_nil_in; [done|intros s Hs; by apply Heach..].
Qed.

Lemma completion_evidence_passes repoName agentName operation agentSpanId :
  blank (SpanEvidence.value
           (completion_evidence repoName agentName operation agentSpanId))
  = false.
Proof. cbn. by apply blank_app_visible. Qed.

Lemma settled_pairs_well_attached {U} coreId (repos : list (RepoEntry.t U)) tail :
  settled_pairs coreId repos tail → Forall (well_attached coreId tail) tail.
Proof.
  induction 1 as [|e repos rid aid t1 t2 t3 t4 tail Hrid Hrc Hac Har _ IH];
    [constructor|].
  assert (well_attached coreId
            (settled_repo e coreId rid t1 t2
             :: settled_agent e rid aid t3 t4 :: tail)
            (settled_repo e coreId rid t1 t2)) as Hr.
  { split_and!; [done| |done|done|].
    - exists coreId. split_and!; [done|by cbn|by left].
    - intros _. split; [done|].
      exists (settled_agent e rid aid t3 t4). split_and!; [|done|done].
      right. left. }
  assert (well_attached coreId
            (settled_repo e coreId rid t1 t2
             :: settled_agent e rid aid t3 t4 :: tail)
            (settled_agent e rid aid t3 t4)) as Ha.
  { split_and!; [done| | |done|done].
    - exists rid. split_and!; [done|by cbn|]. right. left.
    - unfold check_evidence, settled_agent. cbn [evidence].
      destruct (settles (RepoEntry.fn e)); [|done]. cbn [flat_map app].
      by rewrite completion_evidence_passes. }
  constructor; [done|]. constructor; [done|].
  eapply Forall_impl; [exact IH|]. intros s Hs.
  eapply well_attached_mono; [|exact Hs]. intros x Hx. by do 2 right.
Qed.

Lemma settled_pairs_length {U} coreId (repos : list (RepoEntry.t U)) tail :
  settled_pairs coreId repos tail → length tail = 2 * length repos.
Proof. induction 1; cbn; [done|lia]. Qed.
End accepted.

(** ** What the wrappers hand to [finalize] *)

Section settled_graph.
Context {U : Type}.
Implicit Types (repos : list (RepoEntry.t U)) (c : ExecutionSpan)
  (tail : list ExecutionSpan).

Lemma validate_settled repos c tail :
  opening_core c → settled_pairs (span_id c) repos tail →
  validateExecutionGraph (c :: tail)
  = if decide (repos = []) then [core_must_have_repo_children c] else [].
Proof.
  intros (Hc & _ & Hid & Hself & Hev & Har & _) Hpairs.
  destruct Hpairs as [|e repos rid aid t1 t2 t3 t4 tail Hrid Hrc Hac Hra Hrest].
  - rewrite decide_True by done. rewrite validateExecutionGraph_lists.
    rewrite filter_one_True by (by apply bool_decide_pack).
    rewrite decide_False by done. cbn [flat_map].
    unfold core_failures, repo_children.
    assert (filter (is_child_of (span_id c)) [c] = []) as ->.
    { apply filter_one_False. intros [? _]. congruence. }
    rewrite filter_nil, (decide_True (P := [] = [])) by done.
    unfold parent_failures, check_self, check_evidence, check_artifacts.
    rewrite Hev, Har. cbn [flat_map app].
    rewrite (decide_False (P := parent_span_id c = Some (span_id c))) by done.
    destruct (parent_span_id c) as [p|]; [|done].
    rewrite decide_False; [done|]. by intros (_ & _ & ?).
  - rewrite decide_False by done.
    apply validate_well_attached; [done|done|done| | | |].
    + unfold check_evidence. by rewrite Hev.
    + unfold check_artifacts. by rewrite Har.
    + eapply settled_pairs_well_attached. by constructor.
    + exists (settled_repo e (span_id c) rid t1 t2). split_and!; [left|done..].
Qed.

Lemma failed_children_tail repos ctx tail :
  settled_pairs (span_id (coreSpan ctx)) repos tail →
  length (filter (is_failed_child ctx) tail)
  = 2 * length (filter (λ e, throws e) repos).
Proof.
  induction 1 as [|e repos rid aid t1 t2 t3 t4 tail Hrid Hrc Hac Hra _ IH];
    [done|].
  destruct (settles (RepoEntry.fn e)) as [v|error] eqn:Hset.
  - rewrite (filter_cons_False (λ e, throws e))
      by (unfold throws; rewrite Hset; cbn; tauto).
    rewrite !filter_cons_False; [done| |].
    + intros [_ H]. cbn in H. by rewrite Hset in H.
    + intros [_ H]. cbn in H. by rewrite Hset in H.
  - rewrite (filter_cons_True (λ e, throws e))
      by (unfold throws; rewrite Hset; cbn; tauto).
    rewrite !filter_cons_True.
    + cbn [length]. rewrite IH. lia.
    + split; [done|]. cbn. by rewrite Hset.
    + split; [done|]. cbn. by rewrite Hset.
Qed.

Lemma failed_children_settled repos c tail :
  settled_pairs (span_id c) repos tail →
  length (filter (is_failed_child {| coreSpan := c; spans := c :: tail |})
            (c :: tail))
  = 2 * length (filter (λ e, throws e) repos).
Proof.
  intros Hpairs.
  rewrite filter_cons_False by (intros [? _]; done).
  by apply failed_children_tail.
Qed.

(** The reasons [finalize] collects on what a wrapper built. *)
Lemma core_failure_reasons_settled repos c tail :
  opening_core c → settled_pairs (span_id c) repos tail →
  core_failure_reasons {| coreSpan := c; spans := c :: tail |}
  = (if decide (repos = [])
     then [format_failure (core_must_have_repo_children c)] else [])
    ++ (if decide (0 < 2 * length (filter (λ e, throws e) repos))
        then [String_of_nat (2 * length (filter (λ e, throws e) repos))
              ++ lit " child span(s) failed"]
        else []).
Proof.
  intros Hc Hpairs. unfold core_failure_reasons, child_summary. cbv zeta.
  cbn [spans]. rewrite (validate_settled repos) by done.
  rewrite (failed_children_settled repos) by done.
  f_equal. by case_decide.
Qed.
End settled_graph.

Lemma finalize_settled {U R} (repos : list (RepoEntry.t U)) c tail
    (payload : R) w :
  opening_core c → settled_pairs (span_id c) repos tail →
  returns (finalize payload {| coreSpan := c; spans := c :: tail |}) w
    (λ '(res, _) w', ∃ t, res = built_result repos c tail t payload).
Proof.
  intros Hc Hpairs.
  destruct (finalize_run {| coreSpan := c; spans := c :: tail |} payload w
              c tail eq_refl eq_refl) as (c' & w' & Hupd & _ & Hrun).
  rewrite (core_failure_reasons_settled repos) in Hupd, Hrun by done.
  cbn [spans] in Hrun. rewrite (validate_settled repos) in Hrun by done.
  fold (built_reasons repos c) in Hupd, Hrun.
  eexists _, _. split; [exact Hrun|]. unfold built_result.
  destruct (decide (built_reasons repos c = [])).
  - destruct (completeSpan_returns c w) as (? & ? & Heq & _ & t & ->).
    exists t. rewrite Hupd in Heq. by inversion Heq.
  - destruct (failSpan_returns c (built_reasons repos c) w)
      as (? & ? & Heq & _ & t & ->).
    exists t. rewrite Hupd in Heq. by inversion Heq.
Qed.

Lemma new_ExecutionContext_returns coreName parentSpanId w :
  fresh_ids w → parentSpanId ≠ Some (uuid_at w (uuid_pos w)) →
  returns (new_ExecutionContext coreName parentSpanId) w
    (λ ctx w', moved w w' 1
       ∧ ∃ c, ctx = {| coreSpan := c; spans := [c] |}
              ∧ opening_core c ∧ name c = coreName
              ∧ parent_span_id c = parentSpanId
              ∧ span_id c = uuid_at w (uuid_pos w)).
Proof.
  intros [_ Hne] Hparent. unfold new_ExecutionContext. apply returns_bind.
  eapply returns_mono; [apply createCoreSpan_returns|].
  intros c w' (Hm & t & ->). apply returns_ret. split; [done|].
  eexists. split; [done|]. unfold opening_core. cbn.
  split_and!; [done|done|apply Hne|exact Hparent|done..].
Qed.

(** [executeMultiRepoWithSpans] in an environment of fresh identifiers none
    of which is the external parent's. *)
Lemma executeMultiRepoWithSpans_returns {U T} coreName parentSpanId
    (repos : list (RepoEntry.t U)) (aggregator : list (option U) → External T)
    w :
  fresh_ids w → parentSpanId ≠ Some (uuid_at w (uuid_pos w)) →
  Forall (λ e, renders (RepoEntry.fn e)) repos →
  returns (executeMultiRepoWithSpans coreName parentSpanId repos aggregator) w
    (λ res w',
       ∃ c tail t,
         opening_core c ∧ name c = coreName
         ∧ settled_pairs (span_id c) repos tail
         ∧ res = built_result repos c tail t (aggregated repos aggregator)).
Proof.
  intros Hfresh Hparent Hrenders. unfold executeMultiRepoWithSpans.
  apply returns_bind.
  eapply returns_mono; [by apply new_ExecutionContext_returns|].
  intros ctx w1 (Hm1 & c & -> & Hc & Hname & _ & Hid).
  apply returns_bind. eapply returns_mono.
  { apply multi_loop_returns; cbn [loop_ctx spans coreSpan].
    - by eapply fresh_ids_moved.
    - intros s Hs. apply list_elem_of_singleton in Hs as ->.
      exists (uuid_pos w). destruct Hm1 as [-> ->]. split; [lia|done].
    - left.
    - done. }
  cbn [loop_ctx spans coreSpan results hasFailure app orb].
  intros st w2 (tail & -> & Hpairs).
  cbn [loop_ctx spans coreSpan results hasFailure app].
  apply returns_bind.
  assert (∀ w3,
    returns (finalize (aggregated repos aggregator)
               {| coreSpan := c; spans := c :: tail |}) w3
      (λ a w4, returns (let '(res, _) := a in ret res) w4
         (λ res _, ∃ c0 tail0 t,
            opening_core c0 ∧ name c0 = coreName
            ∧ settled_pairs (span_id c0) repos tail0
            ∧ res = built_result repos c0 tail0 t
                      (aggregated repos aggregator)))) as Hfin.
  { intros w3. eapply returns_mono; [by apply (finalize_settled repos)|].
    intros [res ctx'] w4 (t & ->). apply returns_ret. by exists c, tail, t. }
  unfold aggregated in *. destruct (existsb throws repos); cbn [negb].
  - apply returns_ret. apply returns_bind, Hfin.
  - apply returns_try_call. intros w3 _.
    destruct (settles (aggregator (map placeholder repos))) as [a|error];
      apply returns_ret; apply returns_bind, Hfin.
Qed.

(** [executeWithSpans] in an environment of fresh identifiers none of which
    is the external parent's: the graph is the core span and one settled
    pair. *)
Lemma executeWithSpans_returns {T} coreName parentSpanId repoName agentName
    operation (fn : External T) w :
  fresh_ids w → parentSpanId ≠ Some (uuid_at w (uuid_pos w)) →
  renders fn →
  returns
    (executeWithSpans coreName parentSpanId repoName agentName operation fn) w
    (λ res w',
       ∃ c rid aid t1 t2 t3 t4 t,
         opening_core c ∧ name c = coreName
         ∧ rid ≠ span_id c ∧ aid ≠ span_id c ∧ aid ≠ rid ∧ rid ≠ []
         ∧ res = built_result
                   [RepoEntry.mk repoName agentName operation fn] c
                   [settled_repo
                      (RepoEntry.mk repoName agentName operation fn)
                      (span_id c) rid t1 t2;
                    settled_agent
                      (RepoEntry.mk repoName agentName operation fn)
                      rid aid t3 t4]
                   t
                   (placeholder (RepoEntry.mk repoName agentName operation fn))).
Proof.
  intros Hfresh Hparent Hrenders. unfold executeWithSpans.
  set (e := RepoEntry.mk repoName agentName operation fn).
  apply returns_bind.
  eapply returns_mono; [by apply new_ExecutionContext_returns|].
  intros ctx w1 (Hm1 & c & -> & Hc & Hname & _ & Hid).
  pose proof (fresh_ids_moved _ _ _ Hm1 Hfresh) as Hfresh1.
  assert (ids_below w1 [c]) as Hbelow.
  { intros s Hs. apply list_elem_of_singleton in Hs as ->.
    exists (uuid_pos w). destruct Hm1 as [-> ->]. split; [lia|done]. }
  apply returns_bind. eapply returns_mono; [apply startRepoSpan_returns|].
  intros [r0 ctx1] w2 (Hm2 & -> & t1 & ->). cbv beta iota.
  apply returns_bind. eapply returns_mono; [apply startAgentSpan_returns|].
  intros [a0 ctx2] w3 (Hm3 & -> & t3 & ->). cbv beta iota.
  rewrite push_push. cbn [coreSpan spans span_id].
  assert (uuid_at w2 (uuid_pos w2) = uuid_at w1 (S (uuid_pos w1))) as Haid.
  { destruct Hm2 as [-> ->]. f_equal. lia. }
  rewrite Haid. clear Haid.
  set (r := {| span_id := uuid_at w1 (uuid_pos w1); type := repo |}).
  set (a := {| span_id := uuid_at w1 (S (uuid_pos w1)); type := agent |}).
  assert (span_id r ∉ map span_id [c]) as Hr by by apply fresh_not_recorded.
  assert (span_id a ∉ map span_id [c]) as Ha
    by (apply fresh_not_recorded; [done|done|lia]).
  assert (span_id a ≠ span_id r) as Hne.
  { cbn. intros Heq. apply Hfresh1 in Heq. lia. }
  assert (settled_pairs (span_id c) [e]
            [settled_repo e (span_id c) (span_id r) t1 t1;
             settled_agent e (span_id r) (span_id a) t3 t3]) as Hpairs.
  { apply settled_cons; [apply Hfresh1| | |exact Hne|constructor].
    - intros Heq. apply Hr. cbn [map]. rewrite Heq. left.
    - intros Heq. apply Ha. cbn [map]. rewrite Heq. left. }
  assert (∀ payload r' a' w4,
    payload = placeholder e →
    (∃ t2, r' = settled_repo e (span_id c) (span_id r) t1 t2) →
    (∃ t4, a' = settled_agent e (span_id r) (span_id a) t3 t4) →
    returns (finalize payload {| coreSpan := c; spans := [c; r'; a'] |}) w4
      (λ x w5, returns (let '(res, _) := x in ret res) w5
         (λ res _,
            ∃ c0 rid aid t1 t2 t3 t4 t,
              opening_core c0 ∧ name c0 = coreName
              ∧ rid ≠ span_id c0 ∧ aid ≠ span_id c0 ∧ aid ≠ rid ∧ rid ≠ []
              ∧ res = built_result [e] c0
                        [settled_repo e (span_id c0) rid t1 t2;
                         settled_agent e rid aid t3 t4] t (placeholder e))))
    as Hfin.
  { intros payload r' a' w4 -> (t2 & ->) (t4 & ->). inversion Hpairs; subst.
    eapply returns_mono;
      [apply (finalize_settled [e]); [done|by apply settled_cons]|].
    intros [res ctx'] w5 (t & ->). apply returns_ret.
    by exists c, (span_id r), (span_id a), t1, t2, t3, t4, t. }
  apply returns_bind, returns_try_call. intros w4 Hm4.
  destruct (settles fn) as [v|error] eqn:Hset.
  - apply (resolved_updates _ [c] r a); [done..|].
    intros t2 t4 w5 Hm5. apply returns_ret. cbv beta iota.
    apply returns_bind. apply Hfin.
    + unfold placeholder. cbn. by rewrite Hset.
    + exists t4. unfold settled_repo. cbn. by rewrite Hset.
    + exists t2. unfold settled_agent. cbn. by rewrite Hset.
  - apply returns_errorMessage;
      [unfold renders in Hrenders; by rewrite Hset in Hrenders|].
    apply (rejected_updates _ [c] r a); [done..|].
    intros t2 t4 w5 Hm5. apply returns_ret. cbv beta iota.
    apply returns_bind. apply Hfin.
    + unfold placeholder. cbn. by rewrite Hset.
    + exists t4. unfold settled_repo. cbn. by rewrite Hset.
    + exists t2. unfold settled_agent. cbn. by rewrite Hset.
Qed.

(** ** The single-operation wrapper *)

Section built_reasons_cases.
Context {U : Type}.
Implicit Types (repos : list (RepoEntry.t U)) (c : ExecutionSpan).

Lemma filter_throws_nil repos :
  Forall (λ e, throws e = false) repos → filter (λ e, throws e) repos = [].
Proof.
  intros Hall. apply filter_Forall_nil. eapply Forall_impl; [exact Hall|].
  intros e He. cbn. rewrite He. tauto.
Qed.

Lemma filter_throws_pos repos :
  Exists (λ e, throws e = true) repos →
  0 < length (filter (λ e, throws e) repos).
Proof.
  induction 1 as [e repos He|e repos _ IH].
  - rewrite filter_cons_True by (by rewrite He). cbn. lia.
  - rewrite filter_cons. case_decide; cbn; lia.
Qed.

Lemma built_reasons_all_resolved repos c :
  repos ≠ [] → Forall (λ e, throws e = false) repos →
  built_reasons repos c = [].
Proof.
  intros Hne Hall. unfold built_reasons.
  rewrite filter_throws_nil by done. by rewrite decide_False.
Qed.

Lemma built_reasons_some_threw repos c :
  Exists (λ e, throws e = true) repos →
  built_reasons repos c
  = [String_of_nat (2 * length (filter (λ e, throws e) repos))
     ++ lit " child span(s) failed"].
Proof.
  intros Hex. unfold built_reasons.
  rewrite decide_False by (intros ->; by apply Exists_nil in Hex).
  apply filter_throws_pos in Hex. rewrite decide_True by lia. done.
Qed.
End built_reasons_cases.

Lemma sample_world_fresh : fresh_ids Sample.world.
Proof.
  split.
  - intros i j H. cbn in H. inversion H. lia.
  - intros i. cbn. discriminate.
Qed.

(** Reads the fields of a built result and of settled spans. *)
Ltac read_fields :=
  cbn [CoreExecutionResult.success CoreExecutionResult.execution_graph
       CoreExecutionResult.result CoreExecutionResult.failure_reasons
       CoreExecutionResult.core_span_id
       CoreExecutionResult.validation_failures
       built_result settled_repo settled_agent completed_at failed_at
       span_id parent_span_id type status evidence artifacts failure_reasons
       repo_name agent_name operation name
       RepoEntry.fn RepoEntry.repoName RepoEntry.agentName
       RepoEntry.operation].

(** The two lifecycles of the wrapper's tests, evaluated. *)
Example listing_resolved :
  ∃ res w',
    executeWithSpans (lit "ecosystem-core") (Some (lit "engine-parent-001"))
      (lit "marketplace") (lit "marketplace-agent") (lit "list_artifacts")
      Sample.resolving Sample.world
    = (Normal res, w')
    ∧ CoreExecutionResult.success res = true
    ∧ map type (CoreExecutionResult.execution_graph res) = [core; repo; agent]
    ∧ map status (CoreExecutionResult.execution_graph res)
      = [completed; completed; completed]
    ∧ map evidence (CoreExecutionResult.execution_graph res)
      = [[]; [];
         [SpanEvidence.mk id_evidence (lit "marketplace:list_artifacts:span-2")
            (lit "Completed list_artifacts via marketplace-agent")]].
Proof.
  eexists _, _. split; [vm_compute; reflexivity|].
  vm_compute. by split_and!.
Qed.

Example listing_refused :
  ∃ res w',
    executeWithSpans (lit "ecosystem-core") None (lit "marketplace")
      (lit "marketplace-agent") (lit "list_artifacts") Sample.refusing
      Sample.world
    = (Normal res, w')
    ∧ CoreExecutionResult.success res = false
    ∧ map status (CoreExecutionResult.execution_graph res)
      = [failed; failed; failed]
    ∧ map failure_reasons (CoreExecutionResult.execution_graph res)
      = [[lit "2 child span(s) failed"];
         [lit "Agent " ++ dquote ++ lit "marketplace-agent" ++ dquote
          ++ lit " failed: Connection refused"];
         [lit "Connection refused"]].
Proof.
  eexists _, _. split; [vm_compute; reflexivity|].
  vm_compute. by split_and!.
Qed.

(** C4. With identifiers that are fresh (pairwise distinct, non-empty, none
    the external parent's), a collaborator that resolves with [v] makes
    [executeWithSpans] return [success = true], a graph of the three spans
    core, repo, agent, all [completed], the result [v], and on the agent span
    the one evidence entry of type [id] whose value joins the repo name, the
    operation and the agent span's own identifier and whose description names
    the completed operation. *)
Theorem executeWithSpans_resolved {T} coreName parentSpanId repoName agentName
    operation (fn : External T) (v : T) w :
  fresh_ids w → parentSpanId ≠ Some (uuid_at w (uuid_pos w)) →
  settles fn = Normal v →
  ∃ res w' c r a,
    executeWithSpans coreName parentSpanId repoName agentName operation fn w
    = (Normal res, w')
    ∧ CoreExecutionResult.success res = true
    ∧ CoreExecutionResult.execution_graph res = [c; r; a]
    ∧ type c = core ∧ status c = completed
    ∧ type r = repo ∧ status r = completed
    ∧ type a = agent ∧ status a = completed
    ∧ CoreExecutionResult.result res = Some v
    ∧ evidence a
      = [SpanEvidence.mk id_evidence
           (repoName ++ lit ":" ++ operation ++ lit ":" ++ span_id a)
           (lit "Completed " ++ operation ++ lit " via " ++ agentName)].
Proof.
  intros Hfresh Hparent Hset.
  assert (renders fn) as Hrenders by (unfold renders; by rewrite Hset).
  destruct (executeWithSpans_returns coreName parentSpanId repoName agentName
              operation fn w Hfresh Hparent Hrenders)
    as (res & w' & Hrun & c & rid & aid & t1 & t2 & t3 & t4 & t
        & Hc & _ & _ & _ & _ & _ & ->).
  eexists _, w', _, _, _. split; [exact Hrun|].
  unfold placeholder. read_fields.
  rewrite built_reasons_all_resolved;
    [|done|by constructor; [unfold throws; cbn; rewrite Hset|]].
  rewrite decide_True by done. rewrite Hset.
  destruct Hc as (Hc & _).
  split_and!;
    first [done|reflexivity|by (read_fields; unfold outcome_status;
                                 rewrite Hset)].
Qed.

Lemma executeWithSpans_resolved_witness :
  fresh_ids Sample.world
  ∧ None ≠ Some (uuid_at Sample.world (uuid_pos Sample.world))
  ∧ settles Sample.resolving = Normal (JsString (lit "items"))
  ∧ ∃ res w' c r a,
      executeWithSpans (lit "ecosystem-core") None (lit "marketplace")
        (lit "marketplace-agent") (lit "list_artifacts") Sample.resolving
        Sample.world
      = (Normal res, w')
      ∧ CoreExecutionResult.success res = true
      ∧ CoreExecutionResult.execution_graph res = [c; r; a]
      ∧ type c = core ∧ status c = completed
      ∧ type r = repo ∧ status r = completed
      ∧ type a = agent ∧ status a = completed
      ∧ CoreExecutionResult.result res = Some (JsString (lit "items"))
      ∧ evidence a
        = [SpanEvidence.mk id_evidence
             (lit "marketplace" ++ lit ":" ++ lit "list_artifacts" ++ lit ":"
              ++ span_id a)
             (lit "Completed " ++ lit "list_artifacts" ++ lit " via "
              ++ lit "marketplace-agent")].
Proof.
  split_and!; [exact sample_world_fresh|discriminate|reflexivity|].
  apply (executeWithSpans_resolved (lit "ecosystem-core") None
           (lit "marketplace") (lit "marketplace-agent") (lit "list_artifacts")
           Sample.resolving (JsString (lit "items")) Sample.world
           sample_world_fresh);
    [discriminate|reflexivity].
Defined.

(** C2. With fresh identifiers, a collaborator that throws an error with
    message [m] makes [executeWithSpans] return normally, with
    [success = false]: the agent span is failed with [m] as its reason, the
    repo span is failed with the reason that names the agent and [m], the
    result is null, and the core span is failed with the one reason that
    counts the failed spans below it, which are those two. *)
Theorem executeWithSpans_rejected {T} coreName parentSpanId repoName agentName
    operation (fn : External T) (m : jsstring) w :
  fresh_ids w → parentSpanId ≠ Some (uuid_at w (uuid_pos w)) →
  settles fn = Abrupt (ErrorObject m) →
  ∃ res w' c r a,
    executeWithSpans coreName parentSpanId repoName agentName operation fn w
    = (Normal res, w')
    ∧ CoreExecutionResult.success res = false
    ∧ CoreExecutionResult.execution_graph res = [c; r; a]
    ∧ type a = agent ∧ status a = failed ∧ failure_reasons a = [m]
    ∧ type r = repo ∧ status r = failed
    ∧ failure_reasons r
      = [lit "Agent " ++ dquote ++ agentName ++ dquote ++ lit " failed: " ++ m]
    ∧ CoreExecutionResult.result res = None
    ∧ type c = core ∧ status c = failed
    ∧ span_id c = CoreExecutionResult.core_span_id res
    ∧ length (filter (λ s, span_id s ≠ span_id c ∧ status s = failed)
                [c; r; a]) = 2
    ∧ failure_reasons c = [lit "2 child span(s) failed"]
    ∧ CoreExecutionResult.failure_reasons res = [lit "2 child span(s) failed"].
Proof.
  intros Hfresh Hparent Hset.
  assert (renders fn) as Hrenders by (unfold renders; by rewrite Hset).
  destruct (executeWithSpans_returns coreName parentSpanId repoName agentName
              operation fn w Hfresh Hparent Hrenders)
    as (res & w' & Hrun & c & rid & aid & t1 & t2 & t3 & t4 & t
        & Hc & _ & Hrc & Hac & _ & _ & ->).
  eexists _, w', _, _, _. split; [exact Hrun|].
  unfold placeholder. read_fields.
  assert (throws (RepoEntry.mk repoName agentName operation fn) = true)
    as Hthrows by (unfold throws; cbn; by rewrite Hset).
  rewrite built_reasons_some_threw by (by constructor).
  rewrite decide_False by done.
  rewrite filter_one_True by (by rewrite Hthrows).
  destruct Hc as (Hc & _ & _ & _ & _ & _ & Hreasons).
  split_and!;
    try first [done|reflexivity
              |by (read_fields; unfold outcome_status; rewrite Hset)
              |by (read_fields; rewrite Hreasons)].
  rewrite filter_cons_False by (intros [? _]; done).
  rewrite !filter_cons_True; [done|split..];
    first [done|by (read_fields; unfold outcome_status; rewrite Hset)].
Qed.

Lemma executeWithSpans_rejected_witness :
  fresh_ids Sample.world
  ∧ None ≠ Some (uuid_at Sample.world (uuid_pos Sample.world))
  ∧ settles Sample.refusing = Abrupt (ErrorObject (lit "Connection refused"))
  ∧ ∃ res w' c r a,
      executeWithSpans (lit "ecosystem-core") None (lit "marketplace")
        (lit "marketplace-agent") (lit "list_artifacts") Sample.refusing
        Sample.world
      = (Normal res, w')
      ∧ CoreExecutionResult.success res = false
      ∧ CoreExecutionResult.execution_graph res = [c; r; a]
      ∧ type a = agent ∧ status a = failed
      ∧ failure_reasons a = [lit "Connection refused"]
      ∧ type r = repo ∧ status r = failed
      ∧ failure_reasons r
        = [lit "Agent " ++ dquote ++ lit "marketplace-agent" ++ dquote
           ++ lit " failed: " ++ lit "Connection refused"]
      ∧ CoreExecutionResult.result res = None
      ∧ type c = core ∧ status c = failed
      ∧ span_id c = CoreExecutionResult.core_span_id res
      ∧ length (filter (λ s, span_id s ≠ span_id c ∧ status s = failed)
                  [c; r; a]) = 2
      ∧ failure_reasons c = [lit "2 child span(s) failed"]
      ∧ CoreExecutionResult.failure_reasons res
        = [lit "2 child span(s) failed"].
Proof.
  split_and!; [exact sample_world_fresh|discriminate|reflexivity|].
  apply (executeWithSpans_rejected (lit "ecosystem-core") None
           (lit "marketplace") (lit "marketplace-agent") (lit "list_artifacts")
           Sample.refusing (lit "Connection refused") Sample.world
           sample_world_fresh);
    [discriminate|reflexivity].
Defined.

(** ** The multi-repo wrapper *)

Section settled_lookup.
Context {U : Type}.
Implicit Types (repos : list (RepoEntry.t U)) (tail : list ExecutionSpan).

Lemma settled_pairs_lookup coreId repos tail i e :
  settled_pairs coreId repos tail → repos !! i = Some e →
  ∃ rid aid t1 t2 t3 t4,
    tail !! (2 * i) = Some (settled_repo e coreId rid t1 t2)
    ∧ tail !! (1 + 2 * i) = Some (settled_agent e rid aid t3 t4).
Proof.
  intros Hpairs. revert i.
  induction Hpairs as [|e0 repos rid aid t1 t2 t3 t4 tail _ _ _ _ _ IH];
    intros i Hi; [done|].
  destruct i as [|i].
  - inversion Hi; subst. by exists rid, aid, t1, t2, t3, t4.
  - cbn in Hi. destruct (IH i Hi) as (rid' & aid' & t1' & t2' & t3' & t4' & Hr & Ha).
    exists rid', aid', t1', t2', t3', t4'.
    replace (2 * S i) with (S (S (2 * i))) by lia.
    replace (1 + S (S (2 * i))) with (S (S (1 + 2 * i))) by lia.
    done.
Qed.

Lemma settled_pairs_all_completed coreId repos tail :
  settled_pairs coreId repos tail →
  Forall (λ e, throws e = false) repos →
  Forall (λ s, status s = completed) tail.
Proof.
  induction 1 as [|e repos rid aid t1 t2 t3 t4 tail _ _ _ _ _ IH];
    intros Hall; [constructor|].
  apply Forall_cons in Hall as [He Hall]. unfold throws in He.
  repeat constructor; [| |by apply IH]; read_fields; unfold outcome_status;
    by destruct (settles (RepoEntry.fn e)).
Qed.

Lemma resolved_renders repos :
  Forall (λ e, throws e = false) repos →
  Forall (λ e, renders (RepoEntry.fn e)) repos.
Proof.
  intros Hall. eapply Forall_impl; [exact Hall|].
  intros e. unfold throws, renders.
  by destruct (settles (RepoEntry.fn e)).
Qed.
End settled_lookup.

(** C3, as the code has it. With fresh identifiers, and collaborators that
    resolve or throw a value with a message (an [Error], or a value that
    [String(...)] renders), the multi-repo wrapper over [k] entries returns a
    graph of [1 + 2k] spans in which entry [i] has its repo span at position
    [1 + 2i] and its agent span right after. Both are completed when its
    collaborator resolved. When it threw with message [m], the agent span is
    failed with [m] as its reason and the repo span is failed with the reason
    that names the agent and [m]. Every entry is run and leaves its value, or
    null when it threw, in [results]. When some entry threw, [success] is
    false and the result is null. When every entry resolved and there is at
    least one entry, [success] is true and the result is what the aggregator
    returns on the results in order. *)
Theorem executeMultiRepoWithSpans_spec {U T} coreName parentSpanId
    (repos : list (RepoEntry.t U)) (aggregator : list (option U) → External T)
    w :
  fresh_ids w → parentSpanId ≠ Some (uuid_at w (uuid_pos w)) →
  Forall (λ e, renders (RepoEntry.fn e)) repos →
  ∃ res w',
    executeMultiRepoWithSpans coreName parentSpanId repos aggregator w
    = (Normal res, w')
    ∧ length (CoreExecutionResult.execution_graph res) = 1 + 2 * length repos
    ∧ (∀ i e, repos !! i = Some e →
         ∃ r a,
           CoreExecutionResult.execution_graph res !! (1 + 2 * i) = Some r
           ∧ CoreExecutionResult.execution_graph res !! (2 + 2 * i) = Some a
           ∧ type r = repo ∧ repo_name r = Some (RepoEntry.repoName e)
           ∧ type a = agent ∧ agent_name a = Some (RepoEntry.agentName e)
           ∧ operation a = Some (RepoEntry.operation e)
           ∧ match settles (RepoEntry.fn e) with
             | Normal _ => status r = completed ∧ status a = completed
             | Abrupt (ErrorObject m) | Abrupt (NonError m) =>
                 status r = failed
                 ∧ failure_reasons r
                   = [lit "Agent " ++ dquote ++ RepoEntry.agentName e ++ dquote
                      ++ lit " failed: " ++ m]
                 ∧ status a = failed
                 ∧ failure_reasons a = [m]
             | Abrupt (Unrenderable _) => False
             end)
    ∧ (∃ ctx0 w0 st w1,
         new_ExecutionContext coreName parentSpanId w = (Normal ctx0, w0)
         ∧ multi_loop repos (Build_LoopState ctx0 [] false) w0 = (Normal st, w1)
         ∧ results st
           = map (λ e, match settles (RepoEntry.fn e) with
                       | Normal v => Some v
                       | Abrupt _ => None
                       end) repos)
    ∧ (Exists (λ e, throws e = true) repos →
       CoreExecutionResult.success res = false
       ∧ CoreExecutionResult.result res = None)
    ∧ (repos ≠ [] → Forall (λ e, throws e = false) repos →
       CoreExecutionResult.success res = true
       ∧ ∀ a, settles (aggregator (map placeholder repos)) = Normal a →
              CoreExecutionResult.result res = Some a).
Proof.
  intros Hfresh Hparent Hrenders.
  destruct (executeMultiRepoWithSpans_returns coreName parentSpanId repos
              aggregator w Hfresh Hparent Hrenders)
    as (res & w' & Hrun & c & tail & t & Hc & _ & Hpairs & ->).
  exists (built_result repos c tail t (aggregated repos aggregator)), w'.
  split; [exact Hrun|]. read_fields. split_and!.
  - cbn [length]. by rewrite (settled_pairs_length _ _ _ Hpairs).
  - intros i e Hi.
    destruct (settled_pairs_lookup _ _ _ i e Hpairs Hi)
      as (rid & aid & t1 & t2 & t3 & t4 & Hr & Ha).
    eexists _, _. split; [exact Hr|]. split; [exact Ha|].
    read_fields. unfold outcome_status.
    assert (renders (RepoEntry.fn e)) as He.
    { rewrite Forall_forall in Hrenders. apply Hrenders.
      by eapply list_elem_of_lookup_2. }
    unfold renders in He.
    by destruct (settles (RepoEntry.fn e)) as [v|[m|m|raised]].
  - destruct (new_ExecutionContext_returns coreName parentSpanId w Hfresh Hparent)
      as (ctx0 & w0 & Hnew & Hm & c0 & -> & _ & _ & _ & Hid0).
    destruct (multi_loop_returns repos
                (Build_LoopState {| coreSpan := c0; spans := [c0] |} [] false) w0)
      as (st & w1 & Hloop & tail0 & -> & _).
    + by eapply fresh_ids_moved.
    + intros s Hs. apply list_elem_of_singleton in Hs as ->.
      exists (uuid_pos w). destruct Hm as [-> ->]. split; [lia|done].
    + left.
    + done.
    + by eexists _, _, _, _.
  - intros Hex. rewrite built_reasons_some_threw by done.
    split; [done|]. unfold aggregated.
    assert (existsb throws repos = true) as ->; [|done].
    apply existsb_exists. apply Exists_exists in Hex as (e & He & Hthrows).
    exists e. by rewrite <- list_elem_of_In.
  - intros Hne Hall. rewrite built_reasons_all_resolved by done.
    split; [done|]. intros a Ha. unfold aggregated. rewrite Ha.
    assert (existsb throws repos = false) as ->; [|done].
    apply not_true_is_false. intros Hex. apply existsb_exists in Hex.
    destruct Hex as (e & He & Hthrows). rewrite Forall_forall in Hall.
    rewrite <- list_elem_of_In in He. specialize (Hall e He). congruence.
Qed.

(** C8, as the code has it. With fresh identifiers and at least one entry,
    when every collaborator resolves and the aggregator throws, the graph
    still has [1 + 2k] spans, all completed, the result is null, there is no
    validation failure and no failure reason, and [success] is true. *)
Theorem aggregator_failure_adds_no_span {U T} coreName parentSpanId
    (repos : list (RepoEntry.t U)) (aggregator : list (option U) → External T)
    (error : Thrown) w :
  fresh_ids w → parentSpanId ≠ Some (uuid_at w (uuid_pos w)) →
  repos ≠ [] →
  Forall (λ e, throws e = false) repos →
  settles (aggregator (map placeholder repos)) = Abrupt error →
  ∃ res w',
    executeMultiRepoWithSpans coreName parentSpanId repos aggregator w
    = (Normal res, w')
    ∧ length (CoreExecutionResult.execution_graph res) = 1 + 2 * length repos
    ∧ Forall (λ s, status s = completed)
        (CoreExecutionResult.execution_graph res)
    ∧ CoreExecutionResult.result res = None
    ∧ CoreExecutionResult.validation_failures res = []
    ∧ CoreExecutionResult.failure_reasons res = []
    ∧ CoreExecutionResult.success res = true.
Proof.
  intros Hfresh Hparent Hne Hall Hagg.
  destruct (executeMultiRepoWithSpans_returns coreName parentSpanId repos
              aggregator w Hfresh Hparent (resolved_renders repos Hall))
    as (res & w' & Hrun & c & tail & t & Hc & _ & Hpairs & ->).
  exists (built_result repos c tail t (aggregated repos aggregator)), w'.
  split; [exact Hrun|]. read_fields.
  rewrite built_reasons_all_resolved by done.
  rewrite decide_True by done. rewrite (decide_False (P := repos = [])) by done.
  split_and!; [| | |done..].
  - cbn [length]. by rewrite (settled_pairs_length _ _ _ Hpairs).
  - constructor; [done|]. by eapply settled_pairs_all_completed.
  - unfold aggregated. rewrite Hagg. by destruct (existsb throws repos).
Qed.

Lemma executeMultiRepoWithSpans_spec_witness :
  fresh_ids Sample.world
  ∧ None ≠ Some (uuid_at Sample.world (uuid_pos Sample.world))
  ∧ Forall (λ e, renders (RepoEntry.fn e)) Sample.three_one_refusing
  ∧ ∃ res w' r a,
      executeMultiRepoWithSpans (lit "ecosystem-core") None
        Sample.three_one_refusing Sample.counting Sample.world
      = (Normal res, w')
      ∧ length (CoreExecutionResult.execution_graph res) = 7
      ∧ CoreExecutionResult.execution_graph res !! 3 = Some r
      ∧ CoreExecutionResult.execution_graph res !! 4 = Some a
      ∧ failure_reasons r
        = [lit "Agent " ++ dquote ++ lit "agent" ++ dquote
           ++ lit " failed: " ++ lit "Connection refused"]
      ∧ failure_reasons a = [lit "Connection refused"]
      ∧ CoreExecutionResult.success res = false
      ∧ CoreExecutionResult.result res = None.
Proof.
  assert (Forall (λ e, renders (RepoEntry.fn e)) Sample.three_one_refusing)
    as Hrenders by (repeat constructor).
  split_and!; [exact sample_world_fresh|discriminate|exact Hrenders|].
  destruct (executeMultiRepoWithSpans_spec (lit "ecosystem-core") None
              Sample.three_one_refusing Sample.counting Sample.world
              sample_world_fresh)
    as (res & w' & Hrun & Hlen & Hentries & _ & Hthrew & _);
    [discriminate|exact Hrenders|].
  destruct (Hentries 1 (Sample.entry "marketplace" Sample.refusing) eq_refl)
    as (r & a & Hr & Ha & _ & _ & _ & _ & _ & _ & Hrr & _ & Har).
  exists res, w', r, a. split; [exact Hrun|]. split; [exact Hlen|].
  split; [exact Hr|]. split; [exact Ha|]. split; [exact Hrr|].
  split; [exact Har|].
  apply Hthrew. apply Exists_cons_tl, Exists_cons_hd. reflexivity.
Defined.

(** C3 as stated fails for no entry at all: every collaborator, there is
    none, resolved, and the aggregator returns, but the core span has no repo
    child, so that the validator complains and [success] is false. *)
Lemma empty_multi_repo_not_successful :
  ∃ res w',
    executeMultiRepoWithSpans (lit "ecosystem-core") None
      ([] : list (RepoEntry.t JsValue)) Sample.counting Sample.world
    = (Normal res, w')
    ∧ CoreExecutionResult.success res = false
    ∧ CoreExecutionResult.result res = Some (JsNumber 0)
    ∧ map ValidationFailure.rule (CoreExecutionResult.validation_failures res)
      = [lit "core_must_have_repo_children"]
    ∧ length (CoreExecutionResult.execution_graph res) = 1.
Proof.
  eexists _, _. split; [vm_compute; reflexivity|].
  vm_compute. by split_and!.
Qed.

Lemma aggregator_failure_adds_no_span_witness :
  fresh_ids Sample.world
  ∧ None ≠ Some (uuid_at Sample.world (uuid_pos Sample.world))
  ∧ Sample.two_resolving ≠ []
  ∧ Forall (λ e, throws e = false) Sample.two_resolving
  ∧ settles (Sample.crashing (map placeholder Sample.two_resolving))
    = Abrupt (ErrorObject (lit "cannot aggregate"))
  ∧ ∃ res w',
      executeMultiRepoWithSpans (lit "ecosystem-core") None
        Sample.two_resolving Sample.crashing Sample.world
      = (Normal res, w')
      ∧ length (CoreExecutionResult.execution_graph res) = 5
      ∧ Forall (λ s, status s = completed)
          (CoreExecutionResult.execution_graph res)
      ∧ CoreExecutionResult.result res = None
      ∧ CoreExecutionResult.validation_failures res = []
      ∧ CoreExecutionResult.failure_reasons res = []
      ∧ CoreExecutionResult.success res = true.
Proof.
  assert (Forall (λ e, throws e = false) Sample.two_resolving) as Hall
    by (repeat constructor).
  split_and!; [exact sample_world_fresh|discriminate|discriminate|exact Hall
              |reflexivity|].
  apply (aggregator_failure_adds_no_span (lit "ecosystem-core") None
           Sample.two_resolving Sample.crashing
           (ErrorObject (lit "cannot aggregate")) Sample.world
           sample_world_fresh);
    [discriminate|discriminate|exact Hall|reflexivity].
Defined.

(** C8 as stated fails for no entry at all: the aggregator throws on the
    empty results, and the one span of the graph, the core span, is failed,
    with [success] false. *)
Lemma empty_multi_repo_crashing_aggregator :
  ∃ res w' c,
    executeMultiRepoWithSpans (lit "ecosystem-core") None
      ([] : list (RepoEntry.t JsValue)) Sample.crashing Sample.world
    = (Normal res, w')
    ∧ CoreExecutionResult.execution_graph res = [c]
    ∧ status c = failed
    ∧ CoreExecutionResult.result res = None
    ∧ CoreExecutionResult.validation_failures res ≠ []
    ∧ CoreExecutionResult.success res = false.
Proof.
  eexists _, _, _. split; [vm_compute; reflexivity|].
  vm_compute. by split_and!.
Qed.

(** ** The order of the spans in a multi-repo graph *)

Section skeletons.
Implicit Types (w : World) (ctx : ExecutionContext).

Lemma map_insert_same {A B} (f : A → B) (l : list A) i x y :
  l !! i = Some x → f y = f x → map f (<[i := y]> l) = map f l.
Proof.
  revert i. induction l as [|a l IH]; intros i Hi Hf; [done|].
  destruct i as [|i]; cbn in *.
  - inversion Hi; subst. by rewrite Hf.
  - f_equal. by apply IH.
Qed.

Lemma updateSpan_keeps_skeletons spanId updater ctx w :
  keeps_skeleton updater →
  returns (updateSpan spanId updater ctx) w
    (λ ctx' _, coreSpan ctx' = coreSpan ctx
               ∧ map skeleton (spans ctx') = map skeleton (spans ctx)).
Proof.
  intros Hkeep. unfold updateSpan.
  destruct (list_find _ _) as [[index s]|] eqn:Hfind.
  - destruct (Hkeep s w) as (s' & w' & Hupd & Hsk).
    eexists _, w'. unfold bind. rewrite Hupd. split; [reflexivity|].
    split; [done|]. cbn. apply list_find_Some in Hfind as (Hlook & _).
    by eapply map_insert_same.
  - by apply returns_ret.
Qed.

Lemma keeps_skeleton_completeSpan : keeps_skeleton (λ s, completeSpan s).
Proof. intros s w. by eexists _, _. Qed.

Lemma keeps_skeleton_failSpan reasons : keeps_skeleton (λ s, failSpan s reasons).
Proof. intros s w. by eexists _, _. Qed.

Lemma keeps_skeleton_evidence ev :
  keeps_skeleton (λ s, ret (with_evidence s (evidence s ++ [ev]))).
Proof. intros s w. by eexists _, _. Qed.

Lemma finalize_keeps_skeletons {R} (payload : R) ctx w :
  returns (finalize payload ctx) w
    (λ '(res, _) _,
       map skeleton (CoreExecutionResult.execution_graph res)
       = map skeleton (spans ctx)).
Proof.
  unfold finalize. cbv zeta. apply returns_bind.
  match goal with |- context [if ?b then _ else _] => destruct b end.
  - eapply returns_mono;
      [apply updateSpan_keeps_skeletons, keeps_skeleton_completeSpan|].
    intros ctx' w' [_ Hsk]. by apply returns_ret.
  - eapply returns_mono;
      [apply updateSpan_keeps_skeletons, keeps_skeleton_failSpan|].
    intros ctx' w' [_ Hsk]. by apply returns_ret.
Qed.

(** One turn of the loop appends the two skeletons of its entry, whatever
    the identifiers are. *)
Lemma multi_step_skeletons {U} (st : LoopState U) (e : RepoEntry.t U) w :
  renders (RepoEntry.fn e) →
  returns (multi_step st e) w
    (λ st' _,
       coreSpan (loop_ctx st') = coreSpan (loop_ctx st)
       ∧ ∃ ids,
           map skeleton (spans (loop_ctx st'))
           = map skeleton (spans (loop_ctx st))
             ++ entry_skeletons (span_id (coreSpan (loop_ctx st))) e ids).
Proof.
  intros Hrenders. unfold renders in Hrenders. unfold multi_step.
  apply returns_bind. eapply returns_mono; [apply startRepoSpan_returns|].
  intros [r ctx1] w1 (_ & -> & t1 & ->). cbv beta iota.
  apply returns_bind. eapply returns_mono; [apply startAgentSpan_returns|].
  intros [a ctx2] w2 (_ & -> & t3 & ->). cbv beta iota.
  rewrite push_push.
  set (r := {| span_id := uuid_at w (uuid_pos w); type := repo |}).
  set (a := {| span_id := uuid_at w1 (uuid_pos w1); type := agent |}).
  set (ctx2 := {| coreSpan := coreSpan (loop_ctx st);
                  spans := spans (loop_ctx st) ++ [r; a] |}).
  assert (map skeleton (spans ctx2)
          = map skeleton (spans (loop_ctx st))
            ++ entry_skeletons (span_id (coreSpan (loop_ctx st))) e
                 (span_id r, span_id a)) as Hsk2.
  { unfold ctx2. cbn [spans]. by rewrite map_app. }
  apply returns_try_call. intros w3 _.
  destruct (settles (RepoEntry.fn e)) as [v|error].
  - apply returns_bind. eapply returns_mono;
      [apply updateSpan_keeps_skeletons, keeps_skeleton_evidence|].
    intros ctx3 w4 [Hc3 Hsk3].
    apply returns_bind. eapply returns_mono;
      [apply updateSpan_keeps_skeletons, keeps_skeleton_completeSpan|].
    intros ctx4 w5 [Hc4 Hsk4].
    apply returns_bind. eapply returns_mono;
      [apply updateSpan_keeps_skeletons, keeps_skeleton_completeSpan|].
    intros ctx5 w6 [Hc5 Hsk5]. apply returns_ret. cbn [loop_ctx].
    split; [by rewrite Hc5, Hc4, Hc3|].
    eexists. rewrite Hsk5, Hsk4, Hsk3. exact Hsk2.
  - apply returns_errorMessage; [done|].
    apply returns_bind. eapply returns_mono;
      [apply updateSpan_keeps_skeletons, keeps_skeleton_failSpan|].
    intros ctx4 w5 [Hc4 Hsk4].
    apply returns_bind. eapply returns_mono;
      [apply updateSpan_keeps_skeletons, keeps_skeleton_failSpan|].
    intros ctx5 w6 [Hc5 Hsk5]. apply returns_ret. cbn [loop_ctx].
    split; [by rewrite Hc5, Hc4|]. eexists. rewrite Hsk5, Hsk4. exact Hsk2.
Qed.

Lemma multi_loop_skeletons {U} (repos : list (RepoEntry.t U)) (st : LoopState U) w :
  Forall (λ e, renders (RepoEntry.fn e)) repos →
  returns (multi_loop repos st) w
    (λ st' _,
       coreSpan (loop_ctx st') = coreSpan (loop_ctx st)
       ∧ ∃ ids,
           length ids = length repos
           ∧ map skeleton (spans (loop_ctx st'))
             = map skeleton (spans (loop_ctx st))
               ++ concat (zip_with
                            (entry_skeletons (span_id (coreSpan (loop_ctx st))))
                            repos ids)).
Proof.
  revert st w. induction repos as [|e repos IH]; intros st w Hrenders.
  - apply returns_ret. split; [done|]. exists []. by rewrite app_nil_r.
  - apply Forall_cons in Hrenders as [Hrender Hrenders].
    cbn [multi_loop]. apply returns_bind.
    eapply returns_mono; [by apply multi_step_skeletons|].
    intros st1 w1 (Hc1 & ids1 & Hsk1).
    eapply returns_mono; [by apply IH|].
    intros st2 w2 (Hc2 & ids & Hlen & Hsk2).
    split; [congruence|]. exists (ids1 :: ids). split; [cbn; lia|].
    rewrite Hsk2, Hsk1, Hc1. cbn [zip_with concat]. by rewrite <- app_assoc.
Qed.
End skeletons.

(** In a list of skeletons that ends with the pairs of the entries, behind a
    prefix that starts with the core span, each span of a pair has its parent
    strictly before it. *)
Lemma parents_come_first {U} coreId (repos : list (RepoEntry.t U)) :
  ∀ ids pre c0,
    pre !! 0 = Some c0 → sk_id c0 = coreId →
    ∀ i p,
      (pre ++ concat (zip_with (entry_skeletons coreId) repos ids)) !! i
      = Some p →
      length pre ≤ i →
      ∃ j q,
        j < i
        ∧ (pre ++ concat (zip_with (entry_skeletons coreId) repos ids)) !! j
          = Some q
        ∧ sk_parent p = Some (sk_id q).
Proof.
  induction repos as [|e repos IH]; intros ids pre c0 H0 Hid i p Hi Hle.
  { cbn in Hi. rewrite app_nil_r in Hi. apply lookup_lt_Some in Hi. lia. }
  destruct ids as [|[rid aid] ids].
  { cbn in Hi. rewrite app_nil_r in Hi. apply lookup_lt_Some in Hi. lia. }
  cbn [zip_with concat] in Hi |- *.
  set (rest := concat (zip_with (entry_skeletons coreId) repos ids)) in Hi |- *.
  unfold entry_skeletons in Hi |- *. cbn [fst snd app] in Hi |- *.
  set (rp := {| sk_id := rid; sk_type := repo |}) in Hi |- *.
  set (ap := {| sk_id := aid; sk_type := agent |}) in Hi |- *.
  assert (0 < length pre) as Hpre by (by eapply lookup_lt_Some).
  destruct (decide (i = length pre)) as [->|Hi1].
  - rewrite list_lookup_middle in Hi by done.
    assert (p = rp) as -> by congruence.
    exists 0, c0. split_and!; [lia| |by cbn; rewrite Hid].
    by apply lookup_app_l_Some.
  - destruct (decide (i = S (length pre))) as [->|Hi2].
    + rewrite (lookup_app_r pre) in Hi by lia.
      replace (S (length pre) - length pre) with 1 in Hi by lia.
      assert (p = ap) as -> by (cbn in Hi; congruence).
      exists (length pre), rp. split_and!; [lia| |reflexivity].
      by rewrite list_lookup_middle.
    + destruct (IH ids (pre ++ [rp; ap]) c0) with (i := i) (p := p)
        as (j & q & Hj & Hq & Hparent).
      * by apply lookup_app_l_Some.
      * done.
      * by rewrite <- app_assoc.
      * rewrite length_app. cbn. lia.
      * exists j, q. split_and!; [done| |done]. by rewrite <- app_assoc in Hq.
Qed.

(** ** Collaborators that throw what cannot be rendered *)

Section unrenderable.
Context {A B : Type}.

Lemma raises_bind_l (m : M A) (f : A → M B) w e :
  raises m w e → raises (bind m f) w e.
Proof. intros (w' & Hm). exists w'. unfold bind. by rewrite Hm. Qed.

Lemma raises_bind_r (m : M A) (f : A → M B) w e :
  returns m w (λ a w', raises (f a) w' e) → raises (bind m f) w e.
Proof.
  intros (a & w1 & Hm & w' & Hf). exists w'. unfold bind. by rewrite Hm.
Qed.

(** A [try] block whose collaborator throws what the [catch] clause cannot
    render: the clause throws in its turn. *)
Lemma raises_try_call (fn : External A) (f : A → M B)
    (h : jsstring → M B) w raised :
  settles fn = Abrupt (Unrenderable raised) →
  raises (try_catch (bind (call fn) f)
            (λ error, bind (errorMessage error) h)) w raised.
Proof.
  intros Hset. unfold raises, try_catch, bind, call. rewrite Hset.
  cbn. by eexists.
Qed.
End unrenderable.

Lemma multi_step_raises {U} (st : LoopState U) (e : RepoEntry.t U) raised w :
  settles (RepoEntry.fn e) = Abrupt (Unrenderable raised) →
  raises (multi_step st e) w raised.
Proof.
  intros Hset. unfold multi_step.
  apply raises_bind_r. eapply returns_mono; [apply startRepoSpan_returns|].
  intros [r ctx1] w1 _. cbv beta iota.
  apply raises_bind_r. eapply returns_mono; [apply startAgentSpan_returns|].
  intros [a ctx2] w2 _. cbv beta iota.
  by apply raises_try_call.
Qed.

Lemma multi_loop_raises {U} (pre : list (RepoEntry.t U)) e post raised st w :
  Forall (λ e, renders (RepoEntry.fn e)) pre →
  settles (RepoEntry.fn e) = Abrupt (Unrenderable raised) →
  raises (multi_loop (pre ++ e :: post) st) w raised.
Proof.
  intros Hpre Hset. revert st w.
  induction pre as [|e0 pre IH]; intros st w; cbn [app multi_loop].
  - by apply raises_bind_l, multi_step_raises.
  - apply Forall_cons in Hpre as [He0 Hpre].
    apply raises_bind_r.
    eapply returns_mono; [by apply multi_step_skeletons|].
    intros st1 w1 _. by apply IH.
Qed.

Lemma executeMultiRepoWithSpans_raises {U T} coreName parentSpanId
    (pre : list (RepoEntry.t U)) e post
    (aggregator : list (option U) → External T) raised w :
  Forall (λ e, renders (RepoEntry.fn e)) pre →
  settles (RepoEntry.fn e) = Abrupt (Unrenderable raised) →
  raises
    (executeMultiRepoWithSpans coreName parentSpanId (pre ++ e :: post)
       aggregator) w raised.
Proof.
  intros Hpre Hset. unfold executeMultiRepoWithSpans, new_ExecutionContext.
  apply raises_bind_r, returns_bind.
  eapply returns_mono; [apply createCoreSpan_returns|].
  intros c w1 _. apply returns_ret.
  by apply raises_bind_l, multi_loop_raises.
Qed.

(** Every collaborator of a list renders, or there is a first one that
    does not. *)
Lemma renders_or_not {U} (repos : list (RepoEntry.t U)) :
  Forall (λ e, renders (RepoEntry.fn e)) repos
  ∨ ∃ pre e post raised,
      repos = pre ++ e :: post
      ∧ Forall (λ e, renders (RepoEntry.fn e)) pre
      ∧ settles (RepoEntry.fn e) = Abrupt (Unrenderable raised).
Proof.
  induction repos as [|e repos IH]; [by left|].
  destruct (settles (RepoEntry.fn e)) as [v|[m|m|raised]] eqn:Hset.
  4:{ right. by exists [], e, repos, raised. }
  all: assert (renders (RepoEntry.fn e)) as He
         by (unfold renders; by rewrite Hset).
  all: destruct IH as [Hall|(pre & e' & post & raised & -> & Hpre & Hset')];
         [left; by constructor|right].
  all: exists (e :: pre), e', post, raised; split; [done|];
         split; [by constructor|done].
Qed.

(** C9. The wrapper returns a graph whenever every collaborator resolves or
    throws a value with a message. Whatever the identifiers and the outcomes
    are, a graph that it returns is the core span followed, entry after entry
    in the order supplied, by the entry's repo span, whose parent is the core
    span, and its agent span, whose parent is that repo span. So the parent
    of every non-core span is the [span_id] of a span at a strictly earlier
    position. *)
Theorem multi_repo_span_order {U T} coreName parentSpanId
    (repos : list (RepoEntry.t U)) (aggregator : list (option U) → External T)
    w :
  (Forall (λ e, renders (RepoEntry.fn e)) repos →
   ∃ res w',
     executeMultiRepoWithSpans coreName parentSpanId repos aggregator w
     = (Normal res, w'))
  ∧ ∀ res w',
      executeMultiRepoWithSpans coreName parentSpanId repos aggregator w
      = (Normal res, w') →
      ∃ coreId ids,
        length ids = length repos
        ∧ map skeleton (CoreExecutionResult.execution_graph res)
          = core_skeleton coreName parentSpanId coreId
            :: concat (zip_with (entry_skeletons coreId) repos ids)
        ∧ ∀ i s,
            CoreExecutionResult.execution_graph res !! i = Some s →
            type s ≠ core →
            ∃ j t,
              j < i
              ∧ CoreExecutionResult.execution_graph res !! j = Some t
              ∧ parent_span_id s = Some (span_id t).
Proof.
  assert (Forall (λ e, renders (RepoEntry.fn e)) repos →
          returns
            (executeMultiRepoWithSpans coreName parentSpanId repos aggregator) w
            (λ res _,
               ∃ coreId ids,
                 length ids = length repos
                 ∧ map skeleton (CoreExecutionResult.execution_graph res)
                   = core_skeleton coreName parentSpanId coreId
                     :: concat (zip_with (entry_skeletons coreId) repos ids)))
    as Hreturns.
  { intros Hrenders.
    unfold executeMultiRepoWithSpans, new_ExecutionContext.
    apply returns_bind, returns_bind.
    eapply returns_mono; [apply createCoreSpan_returns|].
    intros c w1 (_ & t & ->). apply returns_ret.
    apply returns_bind.
    eapply returns_mono; [by apply multi_loop_skeletons|].
    cbn [loop_ctx coreSpan spans span_id].
    intros st w2 (Hcore & ids & Hlen & Hsk).
    assert (∀ payload w3,
      returns (finalize (R := option T) payload (loop_ctx st)) w3
        (λ x w4, returns (let '(res, _) := x in ret res) w4
           (λ res _,
              ∃ coreId ids0,
                length ids0 = length repos
                ∧ map skeleton (CoreExecutionResult.execution_graph res)
                  = core_skeleton coreName parentSpanId coreId
                    :: concat (zip_with (entry_skeletons coreId) repos ids0))))
      as Hfin.
    { intros payload w3.
      eapply returns_mono; [apply finalize_keeps_skeletons|].
      intros [res ctx'] w4 Hres. apply returns_ret.
      exists (uuid_at w (uuid_pos w)), ids. split; [done|].
      by rewrite Hres, Hsk. }
    apply returns_bind. destruct (hasFailure st); cbn [negb].
    - apply returns_ret. apply returns_bind, Hfin.
    - apply returns_try_call. intros w3 _.
      destruct (settles (aggregator (results st)));
        apply returns_ret; apply returns_bind, Hfin. }
  split.
  { intros Hrenders.
    destruct (Hreturns Hrenders) as (res & w' & Hrun & _). by exists res, w'. }
  intros res w' Hrun.
  destruct (renders_or_not repos)
    as [Hrenders|(pre & e & post & raised & -> & Hpre & Hset)].
  2:{ destruct (executeMultiRepoWithSpans_raises coreName parentSpanId pre e
                  post aggregator raised w Hpre Hset) as (w2 & Hraise).
      rewrite Hraise in Hrun. discriminate Hrun. }
  destruct (Hreturns Hrenders) as (res0 & w0 & Hrun0 & coreId & ids & Hlen & Hsk).
  rewrite Hrun in Hrun0. injection Hrun0 as <- <-.
  exists coreId, ids. split_and!; [done..|].
  intros i s Hi Hnoncore.
  assert (map skeleton (CoreExecutionResult.execution_graph res) !! i
          = Some (skeleton s)) as Hski.
  { change (map skeleton ?l) with (skeleton <$> l).
    by rewrite list_lookup_fmap, Hi. }
  rewrite Hsk in Hski.
  destruct i as [|i]; [by inversion Hski; subst|].
  destruct (parents_come_first coreId repos ids
              [core_skeleton coreName parentSpanId coreId]
              (core_skeleton coreName parentSpanId coreId)
              eq_refl eq_refl (S i) (skeleton s) Hski)
    as (j & q & Hj & Hq & Hparent); [cbn; lia|].
  cbn [app] in Hq. rewrite <- Hsk in Hq.
  change (map skeleton ?l) with (skeleton <$> l) in Hq.
  rewrite list_lookup_fmap in Hq.
  destruct (CoreExecutionResult.execution_graph res !! j) as [t|] eqn:Ht;
    [|done].
  inversion Hq; subst q. by exists j, t.
Qed.

Lemma multi_repo_span_order_witness :
  Forall (λ e, renders (RepoEntry.fn e)) Sample.three_one_refusing
  ∧ ∃ res w' coreId ids,
      executeMultiRepoWithSpans (lit "ecosystem-core") None
        Sample.three_one_refusing Sample.counting Sample.world
      = (Normal res, w')
      ∧ length ids = 3
      ∧ map skeleton (CoreExecutionResult.execution_graph res)
        = core_skeleton (lit "ecosystem-core") None coreId
          :: concat (zip_with (entry_skeletons coreId)
                       Sample.three_one_refusing ids).
Proof.
  assert (Forall (λ e, renders (RepoEntry.fn e)) Sample.three_one_refusing)
    as Hrenders by (repeat constructor).
  split; [exact Hrenders|].
  destruct (multi_repo_span_order (lit "ecosystem-core") None
              Sample.three_one_refusing Sample.counting Sample.world)
    as [Hreturns Hgraph].
  destruct (Hreturns Hrenders) as (res & w' & Hrun).
  destruct (Hgraph res w' Hrun) as (coreId & ids & Hlen & Hsk & _).
  exists res, w', coreId, ids.
  split; [exact Hrun|]. split; [exact Hlen|exact Hsk].
Defined.

(* ===================================================================== *)
(** * Further properties of the validator *)
(* ===================================================================== *)

Section validator_passes.
Implicit Types (l : list ExecutionSpan) (s c r : ExecutionSpan).

Lemma flat_map_nil_iff {A B} (f : A → list B) (k : list A) :
  flat_map f k = [] ↔ ∀ a, a ∈ k → f a = [].
Proof.
  split; [|apply flat_map_nil_in].
  induction k as [|a k IH]; simpl; intros Hnil b Hb.
  - by apply not_elem_of_nil in Hb.
  - apply app_nil in Hnil as [Ha Hk].
    apply elem_of_cons in Hb as [->|Hb]; [done|by apply IH].
Qed.

Lemma filter_nil_iff {A} (P : A → Prop) `{∀ a, Decision (P a)} (k : list A) :
  filter P k = [] ↔ ∀ a, a ∈ k → ¬ P a.
Proof.
  split.
  - intros Hnil a Ha HP. by eapply filter_nil_not_elem_of.
  - intros Hno. apply filter_Forall_nil, Forall_forall. exact Hno.
Qed.

Lemma blank_false_iff (t : jsstring) : blank t = false ↔ visible t.
Proof.
  rewrite blank_whitespace_only. unfold visible.
  induction t as [|c t IH]; simpl.
  - split; [done|]. intros (c & Hc & _). by apply not_elem_of_nil in Hc.
  - destruct (isWhiteSpace c) eqn:Hc; simpl.
    + rewrite IH. split.
      * intros (d & Hd & Hw). exists d. split; [by right|done].
      * intros (d & Hd & Hw). apply elem_of_cons in Hd as [->|Hd];
          [congruence|by exists d].
    + split; [|done]. intros _. exists c. split; [left|done].
Qed.

Lemma elem_of_repo_children l c r :
  r ∈ repo_children l c
  ↔ r ∈ l ∧ type r = repo ∧ parent_span_id r = Some (span_id c)
    ∧ span_id c ≠ [].
Proof.
  unfold repo_children, is_child_of, is_type.
  rewrite !list_elem_of_filter, bool_decide_spec. tauto.
Qed.

Lemma elem_of_agent_children l r a :
  a ∈ agent_children l r
  ↔ a ∈ l ∧ type a = agent ∧ parent_span_id a = Some (span_id r)
    ∧ span_id r ≠ [].
Proof.
  unfold agent_children, is_child_of, is_type.
  rewrite !list_elem_of_filter, bool_decide_spec. tauto.
Qed.

Lemma nil_iff_no_elem {A} (k : list A) : k = [] ↔ ∀ a, a ∉ k.
Proof.
  split; [intros -> a; apply not_elem_of_nil|].
  destruct k as [|a k]; [done|]. intros Hno. exfalso. apply (Hno a). left.
Qed.

Lemma core_failures_nil_iff l c :
  core_failures l c = []
  ↔ (∃ r, r ∈ repo_children l c)
    ∧ ∀ r, r ∈ repo_children l c → ∃ a, a ∈ agent_children l r.
Proof.
  unfold core_failures. rewrite app_nil, flat_map_nil_iff. split.
  - intros [Hrepo Hagents]. split.
    + case_decide as Hnil; [done|].
      destruct (repo_children l c) as [|r k]; [done|]. exists r. left.
    + intros r Hr. specialize (Hagents r Hr). case_decide as Hnil; [done|].
      destruct (agent_children l r) as [|a k]; [done|]. exists a. left.
  - intros [(r & Hr) Hagents]. split.
    + rewrite decide_False; [done|]. intros Hnil. rewrite Hnil in Hr.
      by apply not_elem_of_nil in Hr.
    + intros r' Hr'. destruct (Hagents r' Hr') as (a & Ha).
      rewrite decide_False; [done|]. intros Hnil. rewrite Hnil in Ha.
      by apply not_elem_of_nil in Ha.
Qed.

Lemma parent_failures_nil_iff l s :
  parent_failures l s = []
  ↔ ∀ p, parent_span_id s = Some p → ¬ dangling l s p.
Proof.
  unfold parent_failures. destruct (parent_span_id s) as [p|].
  - case_decide as Hd; split; try done.
    + intros Hno. exfalso. by apply (Hno p).
    + intros _ q [= <-]. done.
  - split; [by intros _ p|done].
Qed.

Lemma check_self_nil_iff s :
  check_self s = [] ↔ parent_span_id s ≠ Some (span_id s).
Proof. unfold check_self. by case_decide. Qed.

Lemma check_evidence_nil_iff s :
  check_evidence s = []
  ↔ ∀ ev, ev ∈ evidence s → visible (SpanEvidence.value ev).
Proof.
  unfold check_evidence. rewrite flat_map_nil_iff.
  split; intros H ev Hev; specialize (H ev Hev).
  - apply blank_false_iff. by destruct (blank _).
  - apply blank_false_iff in H. by rewrite H.
Qed.

Lemma check_artifacts_nil_iff s :
  check_artifacts s = []
  ↔ ∀ a, a ∈ artifacts s → visible (SpanArtifact.id a).
Proof.
  unfold check_artifacts. rewrite flat_map_nil_iff.
  split; intros H a Ha; specialize (H a Ha).
  - apply blank_false_iff. by destruct (blank _).
  - apply blank_false_iff in H. by rewrite H.
Qed.
End validator_passes.

Lemma validate_nil_iff_accepted (l : list ExecutionSpan) :
  validateExecutionGraph l = [] ↔ accepted l.
Proof.
  rewrite validateExecutionGraph_lists. unfold accepted.
  destruct (decide (filter (λ s, is_type core s) l = [])) as [Hnone|Hsome].
  { split; [done|]. intros ((c & Hc & Ht) & _). exfalso.
    eapply (filter_nil_not_elem_of _ _ c); [exact Hnone| |exact Hc].
    by apply bool_decide_pack. }
  assert (∃ c, c ∈ l ∧ type c = core) as Hcore.
  { destruct (filter (λ s, is_type core s) l) as [|c k] eqn:Hf; [done|].
    assert (c ∈ filter (λ s, is_type core s) l) as Hc by (rewrite Hf; left).
    apply list_elem_of_filter in Hc as [Ht Hc]. exists c.
    split; [done|]. by apply bool_decide_unpack in Ht. }
  assert (∀ c, c ∈ filter (λ s, is_type core s) l ↔ c ∈ l ∧ type c = core)
    as Hcores_iff.
  { intros c. rewrite list_elem_of_filter. unfold is_type.
    rewrite bool_decide_spec. tauto. }
  rewrite !app_nil, !flat_map_nil_iff. split.
  - intros (Hcores & Hparents & Hself & Hev & Har).
    split_and!; [done| | | | | |].
    + intros c Hc Ht.
      destruct (proj1 (core_failures_nil_iff l c)) as [(r & Hr) _].
      { apply Hcores, Hcores_iff. done. }
      apply elem_of_repo_children in Hr as (? & ? & ? & ?). eauto.
    + intros c r Hc Ht Hr Hrt Hrp.
      destruct (proj1 (core_failures_nil_iff l c)) as [(r0 & Hr0) Hagents].
      { apply Hcores, Hcores_iff. done. }
      apply elem_of_repo_children in Hr0 as (_ & _ & _ & Hid).
      destruct (Hagents r) as (a & Ha).
      { apply elem_of_repo_children. done. }
      apply elem_of_agent_children in Ha as (? & ? & ? & ?). eauto.
    + intros s p Hs Ht Hp Hne.
      destruct (decide (p ∈ map span_id l)) as [|Hnotin]; [done|].
      exfalso. by apply (proj1 (parent_failures_nil_iff l s) (Hparents s Hs) p).
    + intros s Hs. apply check_self_nil_iff. by apply Hself.
    + intros s ev Hs. apply check_evidence_nil_iff. by apply Hev.
    + intros s a Hs. apply check_artifacts_nil_iff. by apply Har.
  - intros (_ & Hcores & Hagents & Hparents & Hself & Hev & Har).
    split_and!.
    + intros c Hc. apply Hcores_iff in Hc as [Hc Ht].
      destruct (Hcores c Hc Ht) as (Hid & r & Hr & Hrt & Hrp).
      apply core_failures_nil_iff. split.
      * exists r. apply elem_of_repo_children. done.
      * intros r' Hr'. apply elem_of_repo_children in Hr' as (Hr' & Hrt' & Hrp' & _).
        destruct (Hagents c r' Hc Ht Hr' Hrt' Hrp') as (Hrid & a & ? & ? & ?).
        exists a. apply elem_of_agent_children. done.
    + intros s Hs. apply parent_failures_nil_iff.
      intros p Hp (Hne & Hnotin & Ht). apply Hnotin. by apply (Hparents s p).
    + intros s Hs. apply check_self_nil_iff. by apply Hself.
    + intros s Hs. apply check_evidence_nil_iff. intros ev. by apply Hev.
    + intros s Hs. apply check_artifacts_nil_iff. intros a. by apply Har.
Qed.

(** X1. The validator returns no failure, and [isValidExecutionGraph] says
    true, exactly for the graphs that meet the seven conditions of
    [accepted]. *)
Theorem isValidExecutionGraph_iff_accepted (l : list ExecutionSpan) :
  (isValidExecutionGraph l = true ↔ accepted l)
  ∧ (validateExecutionGraph l = [] ↔ accepted l).
Proof.
  split; [|apply validate_nil_iff_accepted].
  unfold isValidExecutionGraph.
  rewrite bool_decide_eq_true, length_zero_iff_nil.
  apply validate_nil_iff_accepted.
Qed.

Lemma filter_flat_map {A B} (P : B → Prop) `{∀ b, Decision (P b)}
    (f : A → list B) (k : list A) :
  filter P (flat_map f k) = flat_map (λ a, filter P (f a)) k.
Proof.
  induction k as [|a k IH]; simpl; [done|]. by rewrite filter_app, IH.
Qed.

Lemma no_core_filter (l : list ExecutionSpan) :
  ¬ (∃ c, c ∈ l ∧ type c = core) → filter (λ s, is_type core s) l = [].
Proof.
  intros Hno. apply filter_nil_iff. intros c Hc Ht. apply Hno. exists c.
  split; [done|]. by apply bool_decide_unpack in Ht.
Qed.

(** X2. The validator returns the one failure [core_span_required], and
    looks at no other rule, exactly when no span of the graph is a core
    span; the empty graph is such a graph. *)
Theorem core_span_required_iff_no_core (l : list ExecutionSpan) :
  validateExecutionGraph l = [core_span_required]
  ↔ ∀ s, s ∈ l → type s ≠ core.
Proof.
  split.
  - intros Hval s Hs Ht.
    assert (∃ c, c ∈ l ∧ type c = core) as Hcore by eauto.
    pose proof (filter_rule_validate (lit "core_span_required") l Hcore) as Hf.
    rewrite Hval in Hf.
    rewrite (filter_Forall_nil _ (flat_map (core_failures l) _)) in Hf.
    2:{ apply Forall_flat_map_intro. intros c. other_rule core_failures_rules. }
    rewrite (filter_Forall_nil _ (flat_map (parent_failures l) l)) in Hf.
    2:{ apply Forall_flat_map_intro. intros c. other_rule parent_failures_rules. }
    rewrite (filter_Forall_nil _ (flat_map check_self l)) in Hf.
    2:{ apply Forall_flat_map_intro. intros c. other_rule check_self_rules. }
    rewrite (filter_Forall_nil _ (flat_map check_evidence l)) in Hf.
    2:{ apply Forall_flat_map_intro. intros c. other_rule check_evidence_rules. }
    rewrite (filter_Forall_nil _ (flat_map check_artifacts l)) in Hf.
    2:{ apply Forall_flat_map_intro. intros c. other_rule check_artifacts_rules. }
    by rewrite filter_one_True in Hf.
  - intros Hno. rewrite validateExecutionGraph_lists.
    rewrite decide_True; [done|]. apply no_core_filter.
    intros (c & Hc & Ht). by apply (Hno c).
Qed.

(** X3. In a graph with a core span, the [no_self_reference] failures are,
    in graph order, one for each span whose [parent_span_id] is its own
    [span_id]; core spans are not exempt. *)
Theorem no_self_reference_failures (l : list ExecutionSpan) :
  (∃ c, c ∈ l ∧ type c = core) →
  filter (has_rule (lit "no_self_reference")) (validateExecutionGraph l)
  = flat_map
      (λ s, if decide (parent_span_id s = Some (span_id s))
            then [no_self_reference s] else []) l.
Proof.
  intros Hcore. rewrite filter_rule_validate by done.
  rewrite (filter_Forall_nil _ (flat_map (core_failures l) _)).
  2:{ apply Forall_flat_map_intro. intros c. other_rule core_failures_rules. }
  rewrite (filter_Forall_nil _ (flat_map (parent_failures l) l)).
  2:{ apply Forall_flat_map_intro. intros s. other_rule parent_failures_rules. }
  rewrite (filter_Forall_id _ (flat_map check_self l)).
  2:{ apply Forall_flat_map_intro. intros s. apply check_self_rules. }
  rewrite (filter_Forall_nil _ (flat_map check_evidence l)).
  2:{ apply Forall_flat_map_intro. intros s. other_rule check_evidence_rules. }
  rewrite (filter_Forall_nil _ (flat_map check_artifacts l)).
  2:{ apply Forall_flat_map_intro. intros s. other_rule check_artifacts_rules. }
  cbn [app]. by rewrite app_nil_r.
Qed.

Lemma no_self_reference_failures_witness :
  (∃ c, c ∈ [Sample.core1; Cases.own_parent] ∧ type c = core)
  ∧ filter (has_rule (lit "no_self_reference"))
      (validateExecutionGraph [Sample.core1; Cases.own_parent])
    = [no_self_reference Cases.own_parent].
Proof.
  assert (∃ c, c ∈ [Sample.core1; Cases.own_parent] ∧ type c = core)
    as Hcore by (exists Sample.core1; split; [left|reflexivity]).
  split; [exact Hcore|].
  rewrite (no_self_reference_failures _ Hcore).
  vm_compute. reflexivity.
Defined.

(** X4. In a graph with a core span, the [artifact_must_have_id] failures
    are, in graph order, one for each artifact whose [id] is empty or made of
    white space only, reported on the span that carries it. *)
Theorem artifact_must_have_id_failures (l : list ExecutionSpan) :
  (∃ c, c ∈ l ∧ type c = core) →
  filter (has_rule (lit "artifact_must_have_id")) (validateExecutionGraph l)
  = flat_map
      (λ s, flat_map
              (λ artifact, if forallb isWhiteSpace (SpanArtifact.id artifact)
                           then [artifact_must_have_id s] else [])
              (artifacts s)) l.
Proof.
  intros Hcore. rewrite filter_rule_validate by done.
  rewrite (filter_Forall_nil _ (flat_map (core_failures l) _)).
  2:{ apply Forall_flat_map_intro. intros c. other_rule core_failures_rules. }
  rewrite (filter_Forall_nil _ (flat_map (parent_failures l) l)).
  2:{ apply Forall_flat_map_intro. intros s. other_rule parent_failures_rules. }
  rewrite (filter_Forall_nil _ (flat_map check_self l)).
  2:{ apply Forall_flat_map_intro. intros s. other_rule check_self_rules. }
  rewrite (filter_Forall_nil _ (flat_map check_evidence l)).
  2:{ apply Forall_flat_map_intro. intros s. other_rule check_evidence_rules. }
  rewrite (filter_Forall_id _ (flat_map check_artifacts l)).
  2:{ apply Forall_flat_map_intro. intros s. apply check_artifacts_rules. }
  cbn [app].
  apply flat_map_ext. intros s. unfold check_artifacts.
  apply flat_map_ext. intros a. by rewrite blank_whitespace_only.
Qed.

Lemma artifact_must_have_id_failures_witness :
  (∃ c, c ∈ [Sample.core1; Sample.repo1; Cases.agent_with_artifacts]
        ∧ type c = core)
  ∧ filter (has_rule (lit "artifact_must_have_id"))
      (validateExecutionGraph
         [Sample.core1; Sample.repo1; Cases.agent_with_artifacts])
    = [artifact_must_have_id Cases.agent_with_artifacts].
Proof.
  assert (∃ c, c ∈ [Sample.core1; Sample.repo1; Cases.agent_with_artifacts]
               ∧ type c = core)
    as Hcore by (exists Sample.core1; split; [left|reflexivity]).
  split; [exact Hcore|].
  rewrite (artifact_must_have_id_failures _ Hcore).
  vm_compute. reflexivity.
Defined.

(** The failures of one rule among those reported for one core span. *)
Lemma filter_core_rule (l : list ExecutionSpan) (c : ExecutionSpan) :
  filter (has_rule (lit "core_must_have_repo_children")) (core_failures l c)
  = if decide (repo_children l c = [])
    then [core_must_have_repo_children c] else [].
Proof.
  unfold core_failures. rewrite filter_app.
  rewrite (filter_Forall_nil _ (flat_map _ _)).
  2:{ apply Forall_flat_map_intro. intros r. case_decide; [|constructor].
      constructor; [|constructor]. unfold has_rule. cbn. discriminate. }
  rewrite app_nil_r. case_decide; [|done]. by rewrite filter_one_True.
Qed.

Lemma filter_repo_rule (l : list ExecutionSpan) (c : ExecutionSpan) :
  filter (has_rule (lit "repo_must_have_agent_children")) (core_failures l c)
  = flat_map
      (λ r, if decide (agent_children l r = [])
            then [repo_must_have_agent_children r] else [])
      (repo_children l c).
Proof.
  unfold core_failures. rewrite filter_app.
  rewrite (filter_Forall_nil _ (if decide _ then _ else _)).
  2:{ case_decide; [|constructor].
      constructor; [|constructor]. unfold has_rule. cbn. discriminate. }
  cbn [app]. apply filter_Forall_id, Forall_flat_map_intro. intros r.
  case_decide; each_rule.
Qed.

(** The failures of a structural rule, in any graph. *)
Lemma filter_structural_rule (rule : jsstring) (l : list ExecutionSpan) :
  rule = lit "core_must_have_repo_children"
  ∨ rule = lit "repo_must_have_agent_children" →
  filter (has_rule rule) (validateExecutionGraph l)
  = flat_map (λ c, filter (has_rule rule) (core_failures l c))
      (filter (λ s, is_type core s) l).
Proof.
  intros Hrule.
  destruct (decide (filter (λ s, is_type core s) l = [])) as [Hno|Hsome].
  2:{ assert (∃ c, c ∈ l ∧ type c = core) as Hcore.
      { destruct (filter (λ s, is_type core s) l) as [|c k] eqn:Hk; [done|].
        assert (c ∈ filter (λ s, is_type core s) l) as Hc by (rewrite Hk; left).
        apply list_elem_of_filter in Hc as [Ht Hc]. exists c. split; [done|].
        by apply bool_decide_unpack in Ht. }
    rewrite filter_rule_validate by done. rewrite filter_flat_map.
    rewrite (filter_Forall_nil _ (flat_map (parent_failures l) l)).
    2:{ apply Forall_flat_map_intro. intros s.
        destruct Hrule as [-> | ->]; other_rule parent_failures_rules. }
    rewrite (filter_Forall_nil _ (flat_map check_self l)).
    2:{ apply Forall_flat_map_intro. intros s.
        destruct Hrule as [-> | ->]; other_rule check_self_rules. }
    rewrite (filter_Forall_nil _ (flat_map check_evidence l)).
    2:{ apply Forall_flat_map_intro. intros s.
        destruct Hrule as [-> | ->]; other_rule check_evidence_rules. }
    rewrite (filter_Forall_nil _ (flat_map check_artifacts l)).
    2:{ apply Forall_flat_map_intro. intros s.
        destruct Hrule as [-> | ->]; other_rule check_artifacts_rules. }
    by rewrite !app_nil_r. }
  rewrite validateExecutionGraph_lists.
  rewrite Hno. rewrite decide_True by done.
  rewrite filter_one_False; [done|].
    unfold has_rule. cbn. destruct Hrule as [-> | ->]; discriminate.
Qed.

(** X5. In any graph, the [core_must_have_repo_children] failures are, in
    graph order, one for each core span that has no repo child: no repo span
    names its [span_id] as parent, or that [span_id] is the empty string. *)
Theorem core_must_have_repo_children_failures (l : list ExecutionSpan) :
  filter (has_rule (lit "core_must_have_repo_children"))
    (validateExecutionGraph l)
  = flat_map
      (λ c, if decide (span_id c ≠ []
                       ∧ Exists (λ r, type r = repo
                                      ∧ parent_span_id r = Some (span_id c)) l)
            then [] else [core_must_have_repo_children c])
      (filter (λ s, type s = core) l).
Proof.
  rewrite filter_structural_rule by by left.
  assert (filter (λ s, is_type core s) l = filter (λ s, type s = core) l) as ->.
  { apply list_filter_iff. intros s. unfold is_type.
    by rewrite bool_decide_spec. }
  apply flat_map_ext. intros c. rewrite filter_core_rule.
  destruct (decide (repo_children l c = [])) as [Hnil|Hsome].
  - rewrite decide_False; [done|]. intros [Hid Hex].
    apply Exists_exists in Hex as (r & Hr & Hrt & Hrp).
    apply (proj1 (nil_iff_no_elem _) Hnil r), elem_of_repo_children. done.
  - rewrite decide_True; [done|].
    destruct (repo_children l c) as [|r k] eqn:Hk; [done|].
    assert (r ∈ repo_children l c) as Hr by (rewrite Hk; left).
    apply elem_of_repo_children in Hr as (? & ? & ? & ?).
    split; [done|]. apply Exists_exists. eauto.
Qed.

Lemma elem_of_flat_map {A B} (f : A → list B) (k : list A) (b : B) :
  b ∈ flat_map f k ↔ ∃ a, a ∈ k ∧ b ∈ f a.
Proof.
  induction k as [|a k IH]; simpl.
  - split; [by intros ?%not_elem_of_nil|].
    by intros (a & ?%not_elem_of_nil & _).
  - rewrite elem_of_app, IH. split.
    + intros [Hb|(a' & Ha' & Hb)].
      * exists a. split; [left|done].
      * exists a'. split; [by right|done].
    + intros (a' & Ha' & Hb). apply elem_of_cons in Ha' as [->|Ha'].
      * by left.
      * right. eauto.
Qed.

Lemma agent_children_nil_iff l r :
  agent_children l r = []
  ↔ span_id r = []
    ∨ ∀ a, a ∈ l → type a = agent → parent_span_id a ≠ Some (span_id r).
Proof.
  rewrite nil_iff_no_elem. split.
  - intros Hno. destruct (decide (span_id r = [])) as [|Hid]; [by left|].
    right. intros a Ha Ht Hp. apply (Hno a), elem_of_agent_children. done.
  - intros Hor a Ha. apply elem_of_agent_children in Ha as (Ha & Ht & Hp & Hid).
    destruct Hor as [Hnil|Hno]; [done|]. by apply (Hno a).
Qed.

(** X6. A [repo_must_have_agent_children] failure is reported exactly for a
    repo span that is the child of a core span with a non-empty [span_id] and
    that has no agent child: no agent span names its [span_id] as parent, or
    that [span_id] is empty. A repo span that is not the child of a core span
    is never reported by this rule. *)
Theorem repo_must_have_agent_children_iff
    (l : list ExecutionSpan) (f : ValidationFailure.t) :
  f ∈ validateExecutionGraph l
  ∧ has_rule (lit "repo_must_have_agent_children") f
  ↔ ∃ c r, c ∈ l ∧ type c = core ∧ span_id c ≠ []
           ∧ r ∈ l ∧ type r = repo ∧ parent_span_id r = Some (span_id c)
           ∧ (span_id r = []
              ∨ ∀ a, a ∈ l → type a = agent
                     → parent_span_id a ≠ Some (span_id r))
           ∧ f = repo_must_have_agent_children r.
Proof.
  rewrite (and_comm (f ∈ _)), <- (list_elem_of_filter (has_rule _)).
  rewrite filter_structural_rule by by right.
  rewrite elem_of_flat_map. split.
  - intros (c & Hc & Hf). rewrite filter_repo_rule in Hf.
    apply list_elem_of_filter in Hc as [Hct Hc].
    apply bool_decide_unpack in Hct.
    apply elem_of_flat_map in Hf as (r & Hr & Hf).
    apply elem_of_repo_children in Hr as (Hr & Hrt & Hrp & Hid).
    case_decide as Hag; [|by apply not_elem_of_nil in Hf].
    apply list_elem_of_singleton in Hf. apply agent_children_nil_iff in Hag.
    exists c, r. done.
  - intros (c & r & Hc & Hct & Hid & Hr & Hrt & Hrp & Hag & ->).
    exists c. split.
    + apply list_elem_of_filter. split; [|done].
      unfold is_type. by apply bool_decide_pack.
    + rewrite filter_repo_rule. apply elem_of_flat_map. exists r. split.
      * by apply elem_of_repo_children.
      * rewrite decide_True by by apply agent_children_nil_iff. left.
Qed.

(** * The validator and the life cycle of spans *)

Section checked_fields.
Implicit Types (l k : list ExecutionSpan) (s c r : ExecutionSpan).

Lemma map_eq_Forall2 {A B} (f : A → B) (k k' : list A) :
  map f k = map f k' → Forall2 (λ a b, f a = f b) k k'.
Proof.
  revert k'. induction k as [|a k IH]; intros [|b k'] Heq; simpl in Heq.
  - constructor.
  - discriminate.
  - discriminate.
  - injection Heq as Hab Hk. constructor; [done|by apply IH].
Qed.

Lemma Forall2_filter_related {A} (R : A → A → Prop) (P P' : A → Prop)
    `{∀ a, Decision (P a)} `{∀ a, Decision (P' a)} (k k' : list A) :
  (∀ a b, R a b → (P a ↔ P' b)) →
  Forall2 R k k' → Forall2 R (filter P k) (filter P' k').
Proof.
  intros HP. induction 1 as [|a b k k' Hab Hk IH]; [constructor|].
  rewrite !filter_cons. pose proof (HP a b Hab) as Hiff.
  destruct (decide (P a)), (decide (P' b)); try tauto.
  by constructor.
Qed.

Lemma flat_map_related {A B} (R : A → A → Prop) (f f' : A → list B)
    (k k' : list A) :
  (∀ a b, R a b → f a = f' b) →
  Forall2 R k k' → flat_map f k = flat_map f' k'.
Proof.
  intros Hf. induction 1 as [|a b k k' Hab Hk IH]; [done|].
  simpl. by rewrite (Hf a b Hab), IH.
Qed.

Lemma Forall2_nil_iff {A} (R : A → A → Prop) (k k' : list A) :
  Forall2 R k k' → (k = [] ↔ k' = []).
Proof. by destruct 1. Qed.

Lemma flat_map_map {A B C} (g : A → B) (f : B → list C) (k : list A) :
  flat_map (λ a, f (g a)) k = flat_map f (map g k).
Proof. induction k as [|a k IH]; simpl; [done|]. by rewrite IH. Qed.

Lemma checked_inv s s' :
  checked s = checked s' →
  span_id s = span_id s' ∧ parent_span_id s = parent_span_id s'
  ∧ type s = type s' ∧ name s = name s'
  ∧ map SpanEvidence.value (evidence s) = map SpanEvidence.value (evidence s')
  ∧ map SpanArtifact.id (artifacts s) = map SpanArtifact.id (artifacts s').
Proof. unfold checked. intros [= ? ? ? ? ? ?]. done. Qed.

Lemma children_related l l' c c' (t : SpanType) :
  Forall2 (λ a b, checked a = checked b) l l' →
  checked c = checked c' →
  Forall2 (λ a b, checked a = checked b)
    (filter (λ s, is_type t s) (filter (is_child_of (span_id c)) l))
    (filter (λ s, is_type t s) (filter (is_child_of (span_id c')) l')).
Proof.
  intros Hl Hc. apply checked_inv in Hc as (Hid & _).
  apply Forall2_filter_related.
  { intros a b (_ & _ & Ht & _)%checked_inv. unfold is_type. by rewrite Ht. }
  apply Forall2_filter_related; [|done].
  intros a b (_ & Hp & _)%checked_inv. unfold is_child_of.
  by rewrite Hp, Hid.
Qed.

Lemma core_failures_related l l' c c' :
  Forall2 (λ a b, checked a = checked b) l l' →
  checked c = checked c' →
  core_failures l c = core_failures l' c'.
Proof.
  intros Hl Hc. unfold core_failures.
  pose proof (children_related l l' c c' repo Hl Hc) as Hrepos.
  fold (repo_children l c) in Hrepos. fold (repo_children l' c') in Hrepos.
  f_equal.
  - pose proof (Forall2_nil_iff _ _ _ Hrepos) as Hnil.
    apply checked_inv in Hc as (Hid & _ & _ & Hname & _).
    unfold core_must_have_repo_children. rewrite Hid, Hname.
    destruct (decide (repo_children l c = [])),
      (decide (repo_children l' c' = [])); tauto.
  - eapply flat_map_related; [|exact Hrepos]. cbn beta.
    intros r r' Hr.
    pose proof (children_related l l' r r' agent Hl Hr) as Hagents.
    fold (agent_children l r) in Hagents.
    fold (agent_children l' r') in Hagents.
    pose proof (Forall2_nil_iff _ _ _ Hagents) as Hnil.
    apply checked_inv in Hr as (Hid & _ & _ & Hname & _).
    unfold repo_must_have_agent_children. rewrite Hid, Hname.
    destruct (decide (agent_children l r = [])),
      (decide (agent_children l' r' = [])); tauto.
Qed.

Lemma parent_failures_related l l' s s' :
  map span_id l = map span_id l' →
  checked s = checked s' →
  parent_failures l s = parent_failures l' s'.
Proof.
  intros Hids (Hid & Hp & Ht & Hname & _)%checked_inv.
  unfold parent_failures. rewrite <- Hp.
  destruct (parent_span_id s) as [p|]; [|done].
  unfold valid_parent_reference. rewrite Hid, Hname.
  assert (dangling l s p ↔ dangling l' s' p) as Hiff
    by (unfold dangling; by rewrite Hids, Ht).
  destruct (decide (dangling l s p)), (decide (dangling l' s' p)); tauto.
Qed.

Lemma check_self_related s s' :
  checked s = checked s' → check_self s = check_self s'.
Proof.
  intros (Hid & Hp & _ & Hname & _)%checked_inv.
  unfold check_self, no_self_reference. by rewrite Hid, Hp, Hname.
Qed.

Lemma check_evidence_related s s' :
  checked s = checked s' → check_evidence s = check_evidence s'.
Proof.
  intros (Hid & _ & _ & Hname & Hev & _)%checked_inv.
  unfold check_evidence.
  rewrite (flat_map_map SpanEvidence.value
             (λ v, if blank v then [evidence_must_be_verifiable s] else [])).
  rewrite (flat_map_map SpanEvidence.value
             (λ v, if blank v then [evidence_must_be_verifiable s'] else [])).
  unfold evidence_must_be_verifiable. by rewrite Hid, Hname, Hev.
Qed.

Lemma check_artifacts_related s s' :
  checked s = checked s' → check_artifacts s = check_artifacts s'.
Proof.
  intros (Hid & _ & _ & Hname & _ & Hart)%checked_inv.
  unfold check_artifacts.
  rewrite (flat_map_map SpanArtifact.id
             (λ v, if blank v then [artifact_must_have_id s] else [])).
  rewrite (flat_map_map SpanArtifact.id
             (λ v, if blank v then [artifact_must_have_id s'] else [])).
  unfold artifact_must_have_id. by rewrite Hid, Hname, Hart.
Qed.

Lemma validate_related l l' :
  map checked l = map checked l' →
  validateExecutionGraph l = validateExecutionGraph l'.
Proof.
  intros Hmap.
  assert (map span_id l = map span_id l') as Hids.
  { assert (∀ k, map span_id k = map (λ v, v.1.1.1.1.1) (map checked k)) as Hk
      by (intros k; rewrite map_map; by apply map_ext).
    by rewrite !Hk, Hmap. }
  apply map_eq_Forall2 in Hmap.
  rewrite !validateExecutionGraph_lists.
  assert (Forall2 (λ a b, checked a = checked b)
            (filter (λ s, is_type core s) l)
            (filter (λ s, is_type core s) l')) as Hcores.
  { apply Forall2_filter_related; [|done].
    intros a b (_ & _ & Ht & _)%checked_inv. unfold is_type. by rewrite Ht. }
  pose proof (Forall2_nil_iff _ _ _ Hcores) as Hnil.
  destruct (decide (filter (λ s, is_type core s) l = [])),
    (decide (filter (λ s, is_type core s) l' = [])); try tauto.
  f_equal; [|f_equal; [|f_equal; [|f_equal]]].
  - eapply flat_map_related; [|exact Hcores].
    intros c c'. by apply core_failures_related.
  - eapply flat_map_related; [|exact Hmap].
    intros s s'. by apply parent_failures_related.
  - eapply flat_map_related; [|exact Hmap]. apply check_self_related.
  - eapply flat_map_related; [|exact Hmap]. apply check_evidence_related.
  - eapply flat_map_related; [|exact Hmap]. apply check_artifacts_related.
Qed.

End checked_fields.

(** X7. The validator reads nothing of a span but its identifier, parent,
    type, name, evidence values and artifact identifiers: two graphs that
    agree on these, span by span, get the same failures. Status, times,
    failure reasons and metadata play no part. *)
Theorem validation_reads_checked_fields (l l' : list ExecutionSpan) :
  map checked l = map checked l' →
  validateExecutionGraph l = validateExecutionGraph l'.
Proof. apply validate_related. Qed.

Lemma validation_reads_checked_fields_witness :
  map checked Lifecycle.before = map checked Lifecycle.after
  ∧ validateExecutionGraph Lifecycle.before
    = validateExecutionGraph Lifecycle.after.
Proof.
  assert (map checked Lifecycle.before = map checked Lifecycle.after) as Heq
    by reflexivity.
  split; [exact Heq|].
  exact (validation_reads_checked_fields _ _ Heq).
Defined.

(** * The context only adds *)

Section context_history.
Implicit Types (ctx : ExecutionContext) (s : ExecutionSpan).

(** What a normal return of [updateSpan] says: nothing changed because no
    span has the identifier, or the first span that has it was replaced by
    what the updater returned on it. *)
Lemma updateSpan_inv spanId updater ctx w ctx' w' :
  updateSpan spanId updater ctx w = (Normal ctx', w') →
  coreSpan ctx' = coreSpan ctx
  ∧ ((ctx' = ctx ∧ w' = w ∧ spanId ∉ map span_id (spans ctx))
     ∨ ∃ pre s post s',
         spans ctx = pre ++ s :: post
         ∧ (spanId ∉ map span_id pre)
         ∧ span_id s = spanId
         ∧ updater s w = (Normal s', w')
         ∧ spans ctx' = pre ++ s' :: post).
Proof.
  unfold updateSpan.
  destruct (list_find _ _) as [[index s]|] eqn:Hfind.
  - apply list_find_Some in Hfind as (Hlook & Hid & Hfirst).
    unfold bind, ret. destruct (updater s w) as [[s'|e] w1] eqn:Hupd; [|done].
    intros [= <- <-]. split; [done|]. right.
    exists (take index (spans ctx)), s, (drop (S index) (spans ctx)), s'.
    pose proof (lookup_lt_Some _ _ _ Hlook) as Hlt.
    split_and!; try done.
    + symmetry. by apply take_drop_middle.
    + intros (y & Hy & Hyid)%elem_of_map_span_id.
      apply list_elem_of_lookup in Hy as (j & Hj).
      pose proof (lookup_lt_Some _ _ _ Hj) as Hjlt.
      rewrite length_take in Hjlt.
      rewrite lookup_take_lt in Hj by lia.
      apply (Hfirst j y Hj); [lia|done].
    + cbn. by apply insert_take_drop.
  - unfold ret. intros [= <- <-]. split; [done|]. left. split_and!; try done.
    intros (y & Hy & Hyid)%elem_of_map_span_id.
    apply list_elem_of_lookup in Hy as (j & Hj).
    eapply list_find_None in Hfind. rewrite Forall_forall in Hfind.
    apply (Hfind y); [|done]. by eapply list_elem_of_lookup_2.
Qed.

Lemma grows_refl s : grows s s.
Proof.
  unfold grows. split_and!; try done; exists []; by rewrite app_nil_r.
Qed.

Lemma grows_trans s1 s2 s3 : grows s1 s2 → grows s2 s3 → grows s1 s3.
Proof.
  intros (Hk1 & Ht1 & Hm1 & Hr1 & (a1 & Ha1) & (e1 & He1) & (f1 & Hf1))
         (Hk2 & Ht2 & Hm2 & Hr2 & (a2 & Ha2) & (e2 & He2) & (f2 & Hf2)).
  unfold grows. split_and!.
  - congruence.
  - congruence.
  - congruence.
  - intros Hrun. destruct (Hr2 Hrun) as [Hrun2 Hend2].
    destruct (Hr1 Hrun2) as [Hrun1 Hend1]. split; congruence.
  - exists (a1 ++ a2). by rewrite Ha2, Ha1, app_assoc.
  - exists (e1 ++ e2). by rewrite He2, He1, app_assoc.
  - exists (f1 ++ f2). by rewrite Hf2, Hf1, app_assoc.
Qed.

Lemma Forall2_grows_refl (l : list ExecutionSpan) : Forall2 grows l l.
Proof. induction l; constructor; [apply grows_refl|done]. Qed.

Lemma completeSpan_grows s w s' w' :
  completeSpan s w = (Normal s', w') → grows s s'.
Proof.
  unfold completeSpan, bind, now, ret. intros [= <- <-].
  unfold grows. cbn. split_and!; try done; exists []; by rewrite app_nil_r.
Qed.

Lemma failSpan_grows s reasons w s' w' :
  failSpan s reasons w = (Normal s', w') → grows s s'.
Proof.
  unfold failSpan, bind, now, ret. intros [= <- <-].
  unfold grows. cbn. split_and!; try done;
    first [by eexists | exists []; by rewrite app_nil_r].
Qed.

(** The spans after [updateSpan] with an updater under which spans grow. *)
Lemma updateSpan_grows spanId updater ctx w ctx' w' :
  (∀ s w s' w', updater s w = (Normal s', w') → grows s s') →
  updateSpan spanId updater ctx w = (Normal ctx', w') →
  coreSpan ctx' = coreSpan ctx
  ∧ ∃ old new, spans ctx' = old ++ new ∧ Forall2 grows (spans ctx) old.
Proof.
  intros Hupd Hrun. apply updateSpan_inv in Hrun as [Hcore Hcases].
  split; [done|].
  destruct Hcases as [(-> & _ & _)|(pre & s & post & s' & Hs & _ & _ & Hu & Hs')].
  - exists (spans ctx), []. split; [by rewrite app_nil_r|].
    apply Forall2_grows_refl.
  - exists (pre ++ s' :: post), []. split; [by rewrite app_nil_r|].
    rewrite Hs. apply Forall2_app; [apply Forall2_grows_refl|].
    constructor; [by eapply Hupd|apply Forall2_grows_refl].
Qed.

(** [finalize] ends with one [updateSpan] on the core span's identifier. *)
Lemma finalize_inv {R} (operationResult : R) ctx w res ctx' w' :
  finalize operationResult ctx w = (Normal (res, ctx'), w') →
  CoreExecutionResult.execution_graph res = spans ctx'
  ∧ CoreExecutionResult.validation_failures res
    = validateExecutionGraph (spans ctx)
  ∧ CoreExecutionResult.failure_reasons res = core_failure_reasons ctx
  ∧ CoreExecutionResult.success res
    = bool_decide (core_failure_reasons ctx = [])
  ∧ CoreExecutionResult.core_span_id res = span_id (coreSpan ctx')
  ∧ CoreExecutionResult.result res = operationResult
  ∧ (updateSpan (span_id (coreSpan ctx)) (λ s, completeSpan s) ctx w
     = (Normal ctx', w')
     ∨ updateSpan (span_id (coreSpan ctx))
         (λ s, failSpan s (core_failure_reasons ctx)) ctx w
       = (Normal ctx', w')).
Proof.
  assert
    ((if negb (bool_decide (length (validateExecutionGraph (spans ctx)) = 0))
      then [] ++ map format_failure (validateExecutionGraph (spans ctx))
      else [])
     = map format_failure (validateExecutionGraph (spans ctx))) as Hfmt.
  { destruct (validateExecutionGraph (spans ctx)); done. }
  assert
    ((if decide (0 < length (filter (is_failed_child ctx) (spans ctx)))
      then map format_failure (validateExecutionGraph (spans ctx))
           ++ [String_of_nat (length (filter (is_failed_child ctx) (spans ctx)))
               ++ lit " child span(s) failed"]
      else map format_failure (validateExecutionGraph (spans ctx)))
     = core_failure_reasons ctx) as Hreasons.
  { unfold core_failure_reasons, child_summary. cbn zeta.
    destruct (decide (0 < length (filter (is_failed_child ctx) (spans ctx))));
      [done|by rewrite app_nil_r]. }
  unfold finalize. cbn zeta. rewrite Hfmt, Hreasons.
  assert (bool_decide (length (core_failure_reasons ctx) = 0)
          = bool_decide (core_failure_reasons ctx = [])) as ->.
  { apply bool_decide_ext, length_zero_iff_nil. }
  unfold bind at 1.
  destruct (bool_decide (core_failure_reasons ctx = [])) eqn:Hok.
  - destruct (updateSpan _ _ ctx w) as [[ctx1|e] w1] eqn:Hupd; [|done].
    unfold ret. intros [= <- <- <-]. cbn. split_and!; try done.
    by left.
  - destruct (updateSpan _ _ ctx w) as [[ctx1|e] w1] eqn:Hupd; [|done].
    unfold ret. intros [= <- <- <-]. cbn. split_and!; try done.
    by right.
Qed.

Lemma method_call_grows ctx ctx' :
  method_call ctx ctx' →
  coreSpan ctx' = coreSpan ctx
  ∧ ∃ old new, spans ctx' = old ++ new ∧ Forall2 grows (spans ctx) old.
Proof.
  assert (∀ ctx s, coreSpan (push ctx s) = coreSpan ctx
                   ∧ ∃ old new, spans (push ctx s) = old ++ new
                                ∧ Forall2 grows (spans ctx) old) as Hpush.
  { intros c s. split; [done|]. exists (spans c), [s].
    split; [done|apply Forall2_grows_refl]. }
  destruct 1 as [ctx repoName w span ctx' w' Hrun
                |ctx parent agentName operation w span ctx' w' Hrun
                |ctx spanId w ctx' w' Hrun
                |ctx spanId reasons w ctx' w' Hrun
                |ctx spanId w ctx' w' Hrun
                |ctx spanId reasons w ctx' w' Hrun
                |ctx fuel spans_argument ctx' Hrun
                |ctx spanId artifact w ctx' w' Hrun
                |ctx spanId ev w ctx' w' Hrun
                |R operationResult ctx w res ctx' w' Hrun].
  - destruct (startRepoSpan_returns repoName ctx w)
      as ([span1 ctx1] & w1 & Heq & _ & -> & _).
    rewrite Heq in Hrun. injection Hrun as <- <- <-. apply Hpush.
  - destruct (startAgentSpan_returns parent agentName operation ctx w)
      as ([span1 ctx1] & w1 & Heq & _ & -> & _).
    rewrite Heq in Hrun. injection Hrun as <- <- <-. apply Hpush.
  - eapply updateSpan_grows; [|exact Hrun]. apply completeSpan_grows.
  - eapply updateSpan_grows; [|exact Hrun].
    intros s w0 s' w0'. apply failSpan_grows.
  - eapply updateSpan_grows; [|exact Hrun]. apply completeSpan_grows.
  - eapply updateSpan_grows; [|exact Hrun].
    intros s w0 s' w0'. apply failSpan_grows.
  - apply ingestRepoSpans_inv in Hrun as (l & ->). cbn. split; [done|].
    exists (spans ctx), l. split; [done|apply Forall2_grows_refl].
  - eapply updateSpan_grows; [|exact Hrun].
    intros s w0 s' w0'. unfold bind, now, ret. intros [= <- <-].
    unfold grows. cbn. split_and!; try done;
      first [by eexists | exists []; by rewrite app_nil_r].
  - eapply updateSpan_grows; [|exact Hrun].
    intros s w0 s' w0'. unfold ret. intros [= <- <-].
    unfold grows. cbn. split_and!; try done;
      first [by eexists | exists []; by rewrite app_nil_r].
  - apply finalize_inv in Hrun as (_ & _ & _ & _ & _ & _ & [Hrun|Hrun]).
    + eapply updateSpan_grows; [|exact Hrun]. apply completeSpan_grows.
    + eapply updateSpan_grows; [|exact Hrun].
      intros s w0 s' w0'. apply failSpan_grows.
Qed.

End context_history.

(** X8. Whatever methods are called on a context, in whatever order and
    environment, its core span field never changes and the list of recorded
    spans only grows: every span recorded before is still at its position
    with the same identifier, parent, type, names, start time and metadata,
    it is not running again once it ended, and its artifacts, evidence and
    failure reasons have only gained entries at the end; new spans come
    after. *)
Theorem recorded_spans_only_grow (ctx ctx' : ExecutionContext) :
  rtc method_call ctx ctx' →
  coreSpan ctx' = coreSpan ctx
  ∧ ∃ old new, spans ctx' = old ++ new ∧ Forall2 grows (spans ctx) old.
Proof.
  induction 1 as [ctx|ctx ctx1 ctx2 Hstep _ IH].
  - split; [done|]. exists (spans ctx), [].
    split; [by rewrite app_nil_r|apply Forall2_grows_refl].
  - apply method_call_grows in Hstep as (Hcore1 & old1 & new1 & Hs1 & Hg1).
    destruct IH as (Hcore2 & old2 & new2 & Hs2 & Hg2).
    split; [congruence|].
    rewrite Hs1 in Hg2.
    apply Forall2_app_inv_l in Hg2 as (a & b & Ha & Hb & ->).
    exists a, (b ++ new2). split; [by rewrite Hs2, app_assoc|].
    clear -Hg1 Ha. revert a Ha.
    induction Hg1 as [|x y l k Hxy Hlk IH]; intros a Ha.
    + inversion Ha. constructor.
    + inversion Ha as [|y' z k' a' Hyz Hk']; subst.
      constructor; [by eapply grows_trans|by apply IH].
Qed.

Lemma recorded_spans_only_grow_witness :
  rtc method_call Sample.new_context Lifecycle.failed_context
  ∧ coreSpan Lifecycle.failed_context = coreSpan Sample.new_context
  ∧ ∃ old new, spans Lifecycle.failed_context = old ++ new
               ∧ Forall2 grows (spans Sample.new_context) old.
Proof.
  assert (rtc method_call Sample.new_context Lifecycle.failed_context) as Hrun.
  { apply rtc_once.
    apply (call_failRepoSpan Sample.new_context (lit "span-0") [lit "boom"]
             Sample.world Lifecycle.failed_context
             {| uuid_at := uuid_at Sample.world; uuid_pos := 0;
                iso_at := iso_at Sample.world; clock_pos := 1 |}).
    vm_compute. reflexivity. }
  split; [exact Hrun|].
  exact (recorded_spans_only_grow _ _ Hrun).
Defined.

Section verdicts.
Implicit Types (ctx : ExecutionContext) (s : ExecutionSpan).

Lemma updateSpan_checked spanId updater ctx w ctx' w' :
  (∀ s w s' w', updater s w = (Normal s', w') → checked s' = checked s) →
  updateSpan spanId updater ctx w = (Normal ctx', w') →
  map checked (spans ctx') = map checked (spans ctx).
Proof.
  intros Hupd Hrun. apply updateSpan_inv in Hrun as [_ Hcases].
  destruct Hcases as [(-> & _ & _)|(pre & s & post & s' & Hs & _ & _ & Hu & Hs')];
    [done|].
  rewrite Hs, Hs', !map_app. cbn [map]. by rewrite (Hupd _ _ _ _ Hu).
Qed.

Lemma completeSpan_checked s w s' w' :
  completeSpan s w = (Normal s', w') → checked s' = checked s.
Proof. unfold completeSpan, bind, now, ret. by intros [= <- <-]. Qed.

Lemma failSpan_checked reasons s w s' w' :
  failSpan s reasons w = (Normal s', w') → checked s' = checked s.
Proof. unfold failSpan, bind, now, ret. by intros [= <- <-]. Qed.

Lemma updateSpan_failed_children spanId updater ctx w ctx' w' :
  (∀ s w s' w', updater s w = (Normal s', w') → span_id s' = span_id s) →
  spanId = span_id (coreSpan ctx) →
  updateSpan spanId updater ctx w = (Normal ctx', w') →
  filter (is_failed_child ctx') (spans ctx')
  = filter (is_failed_child ctx) (spans ctx).
Proof.
  intros Hupd -> Hrun. apply updateSpan_inv in Hrun as [Hcore Hcases].
  destruct Hcases as [(-> & _ & _)|(pre & s & post & s' & Hs & _ & Hid & Hu & Hs')];
    [done|].
  rewrite (list_filter_iff (is_failed_child ctx') (is_failed_child ctx))
    by (intros x; unfold is_failed_child; by rewrite Hcore).
  rewrite Hs, Hs', !filter_app, !filter_cons.
  pose proof (Hupd _ _ _ _ Hu) as Hid'.
  rewrite !decide_False; [done| |]; unfold is_failed_child; intros [Hne _];
    congruence.
Qed.

Lemma finalize_total {R} (operationResult : R) ctx w :
  ∃ res ctx' w', finalize operationResult ctx w = (Normal (res, ctx'), w').
Proof.
  destruct (finalize_keeps_skeletons operationResult ctx w)
    as ([res ctx'] & w' & Heq & _).
  by exists res, ctx', w'.
Qed.

End verdicts.

(** X9. Completing or failing a repo or agent span by identifier never
    changes what the validator reports on the recorded spans, whether the
    identifier is found or not. *)
Theorem settling_keeps_validation (spanId : jsstring) (reasons : list jsstring)
    (ctx : ExecutionContext) (w : World) (ctx' : ExecutionContext) (w' : World) :
  completeRepoSpan spanId ctx w = (Normal ctx', w')
  ∨ failRepoSpan spanId reasons ctx w = (Normal ctx', w')
  ∨ completeAgentSpan spanId ctx w = (Normal ctx', w')
  ∨ failAgentSpan spanId reasons ctx w = (Normal ctx', w') →
  validateExecutionGraph (spans ctx') = validateExecutionGraph (spans ctx).
Proof.
  intros Hrun. apply validate_related.
  destruct Hrun as [Hrun|[Hrun|[Hrun|Hrun]]];
    (eapply updateSpan_checked; [|exact Hrun]);
    first [apply completeSpan_checked | apply failSpan_checked].
Qed.

Lemma settling_keeps_validation_witness :
  (completeRepoSpan (lit "span-0") Sample.new_context Sample.world
   = (Normal Lifecycle.failed_context,
      {| uuid_at := uuid_at Sample.world; uuid_pos := 0;
         iso_at := iso_at Sample.world; clock_pos := 1 |})
   ∨ failRepoSpan (lit "span-0") [lit "boom"] Sample.new_context Sample.world
     = (Normal Lifecycle.failed_context,
        {| uuid_at := uuid_at Sample.world; uuid_pos := 0;
           iso_at := iso_at Sample.world; clock_pos := 1 |})
   ∨ completeAgentSpan (lit "span-0") Sample.new_context Sample.world
     = (Normal Lifecycle.failed_context,
        {| uuid_at := uuid_at Sample.world; uuid_pos := 0;
           iso_at := iso_at Sample.world; clock_pos := 1 |})
   ∨ failAgentSpan (lit "span-0") [lit "boom"] Sample.new_context Sample.world
     = (Normal Lifecycle.failed_context,
        {| uuid_at := uuid_at Sample.world; uuid_pos := 0;
           iso_at := iso_at Sample.world; clock_pos := 1 |}))
  ∧ validateExecutionGraph (spans Lifecycle.failed_context)
    = validateExecutionGraph (spans Sample.new_context).
Proof.
  refine (let H := _ in conj H (settling_keeps_validation _ _ _ _ _ _ H)).
  right. left. vm_compute. reflexivity.
Defined.

(** X10. [finalize] always returns. The validation failures it reports are
    also what the validator finds on the graph it returns, and calling
    [finalize] again, with any result and in any environment, returns the
    same success flag, validation failures, failure reasons and core span
    identifier. *)
Theorem finalize_verdict_is_stable {R R' : Type} (operationResult : R)
    (again : R') (ctx : ExecutionContext) (w : World) :
  ∃ res ctx1 w1,
    finalize operationResult ctx w = (Normal (res, ctx1), w1)
    ∧ validateExecutionGraph (CoreExecutionResult.execution_graph res)
      = CoreExecutionResult.validation_failures res
    ∧ ∀ w2, ∃ res' ctx2 w3,
        finalize again ctx1 w2 = (Normal (res', ctx2), w3)
        ∧ CoreExecutionResult.success res' = CoreExecutionResult.success res
        ∧ CoreExecutionResult.validation_failures res'
          = CoreExecutionResult.validation_failures res
        ∧ CoreExecutionResult.failure_reasons res'
          = CoreExecutionResult.failure_reasons res
        ∧ CoreExecutionResult.core_span_id res'
          = CoreExecutionResult.core_span_id res.
Proof.
  destruct (finalize_total operationResult ctx w) as (res & ctx1 & w1 & Hrun).
  exists res, ctx1, w1. split; [exact Hrun|].
  apply finalize_inv in Hrun as (Hg & Hv & Hr & Hs & Hc & _ & Hupd).
  assert (coreSpan ctx1 = coreSpan ctx
          ∧ map checked (spans ctx1) = map checked (spans ctx)
          ∧ filter (is_failed_child ctx1) (spans ctx1)
            = filter (is_failed_child ctx) (spans ctx)) as (Hcore & Hchk & Hfc).
  { destruct Hupd as [Hupd|Hupd]; split_and!.
    - by apply updateSpan_inv in Hupd as [? _].
    - eapply updateSpan_checked; [|exact Hupd]. apply completeSpan_checked.
    - eapply updateSpan_failed_children; [|reflexivity|exact Hupd].
      apply keeps_id_completeSpan.
    - by apply updateSpan_inv in Hupd as [? _].
    - eapply updateSpan_checked; [|exact Hupd].
      intros s w0 s' w0'. apply failSpan_checked.
    - eapply updateSpan_failed_children; [|reflexivity|exact Hupd].
      apply keeps_id_failSpan. }
  pose proof (validate_related _ _ Hchk) as Hval.
  assert (core_failure_reasons ctx1 = core_failure_reasons ctx) as Hreasons.
  { unfold core_failure_reasons, child_summary. by rewrite Hval, Hfc. }
  split; [by rewrite Hg, Hv|].
  intros w2.
  destruct (finalize_total again ctx1 w2) as (res' & ctx2 & w3 & Hrun').
  exists res', ctx2, w3. split; [exact Hrun'|].
  apply finalize_inv in Hrun' as (_ & Hv' & Hr' & Hs' & Hc' & _ & Hupd').
  assert (coreSpan ctx2 = coreSpan ctx1) as Hcore'
    by (destruct Hupd' as [Hupd'|Hupd'];
        by apply updateSpan_inv in Hupd' as [? _]).
  split_and!.
  - by rewrite Hs', Hs, Hreasons.
  - by rewrite Hv', Hv, Hval.
  - by rewrite Hr', Hr, Hreasons.
  - by rewrite Hc', Hc, Hcore'.
Qed.

(** X11. [finalize] reports success exactly when the recorded spans pass
    the validator, that is meet the conditions of [accepted], and no recorded
    span with another identifier than the core span's is failed. *)
Theorem finalize_success_iff {R : Type} (operationResult : R)
    (ctx : ExecutionContext) (w : World) :
  ∃ res ctx' w',
    finalize operationResult ctx w = (Normal (res, ctx'), w')
    ∧ (CoreExecutionResult.success res = true
       ↔ accepted (spans ctx)
         ∧ ∀ s, s ∈ spans ctx → status s = failed →
                span_id s = coreSpanId ctx).
Proof.
  destruct (finalize_total operationResult ctx w) as (res & ctx' & w' & Hrun).
  exists res, ctx', w'. split; [exact Hrun|].
  apply finalize_inv in Hrun as (_ & _ & _ & -> & _).
  rewrite bool_decide_eq_true. unfold core_failure_reasons.
  rewrite app_nil, <- validate_nil_iff_accepted.
  assert (child_summary ctx = []
          ↔ ∀ s, s ∈ spans ctx → status s = failed →
                 span_id s = coreSpanId ctx) as ->.
  { unfold child_summary. cbn zeta. unfold coreSpanId.
    destruct (filter (is_failed_child ctx) (spans ctx)) as [|x k] eqn:Hf.
    - rewrite decide_False by (cbn; lia). split; [intros _|done].
      intros s Hs Hfailed.
      destruct (decide (span_id s = span_id (coreSpan ctx))) as [|Hne]; [done|].
      exfalso. eapply (filter_nil_not_elem_of _ _ s); [exact Hf| |exact Hs].
      by split.
    - rewrite decide_True by (cbn; lia). split; [done|]. intros Hall.
      assert (x ∈ filter (is_failed_child ctx) (spans ctx)) as Hx
        by (rewrite Hf; left).
      apply list_elem_of_filter in Hx as [[Hne Hfailed] Hx].
      exfalso. apply Hne. by apply Hall. }
  split; [intros [Hv ?]|intros [Hv ?]]; split; try done.
  - by destruct (validateExecutionGraph (spans ctx)).
  - by rewrite Hv.
Qed.

(** X12. On a context a caller can hold, [ingestRepoSpans] given an array
    other than the recorded one returns, as soon as it has more turns than
    the array has spans, with these spans appended as they are and in order
    behind the recorded ones. Given the recorded array itself, which is what
    [finalize] returns as [execution_graph.spans], it never returns: each
    span it pushes makes the array it walks one longer. *)
Theorem ingestRepoSpans_appends_or_never_ends (ctx : ExecutionContext) :
  reachable ctx →
  (∀ l fuel, length l < fuel →
     ingestRepoSpans fuel (OtherArray l) ctx
     = Some {| coreSpan := coreSpan ctx; spans := spans ctx ++ l |})
  ∧ ∀ fuel, ingestRepoSpans fuel RecordedArray ctx = None.
Proof.
  intros Hreach. split.
  - intros l fuel Hfuel. unfold ingestRepoSpans.
    assert (∀ n i c, length l - i < n →
              ingest_from n i (OtherArray l) c
              = Some {| coreSpan := coreSpan c;
                        spans := spans c ++ drop i l |}) as Hloop.
    { induction n as [|n IH]; intros i c Hn; [lia|].
      cbn [ingest_from]. destruct (l !! i) as [span|] eqn:Hi.
      - pose proof (lookup_lt_Some _ _ _ Hi) as Hlt.
        rewrite IH by lia. unfold push. cbn.
        rewrite <- app_assoc. cbn. by rewrite <- (drop_S _ _ _ Hi).
      - apply lookup_ge_None in Hi.
        rewrite drop_ge, app_nil_r by done. by destruct c. }
    rewrite Hloop by lia. by rewrite drop_0.
  - intros fuel. apply ingest_from_recorded.
    apply reachable_core_first in Hreach as (c & rest & Hs & _).
    rewrite Hs. cbn. lia.
Qed.

Lemma ingestRepoSpans_appends_or_never_ends_witness :
  reachable Sample.new_context
  ∧ ingestRepoSpans 3 (OtherArray [Sample.repo1; Sample.agent1])
      Sample.new_context
    = Some {| coreSpan := Sample.started_core;
              spans := [Sample.started_core; Sample.repo1; Sample.agent1] |}
  ∧ ingestRepoSpans 1000 RecordedArray Sample.new_context = None.
Proof.
  assert (reachable Sample.new_context) as Hreach.
  { by eapply (reach_new (lit "test-core") None Sample.world). }
  split; [exact Hreach|].
  destruct (ingestRepoSpans_appends_or_never_ends _ Hreach) as [Hother Hown].
  split; [apply (Hother [Sample.repo1; Sample.agent1] 3); cbn; lia|].
  apply Hown.
Defined.

(** X13. When some recorded span has the identifier, each of the six
    by-identifier operations replaces the first such span, and only it:
    the spans before and after it, also those with the same identifier, stay
    as they are, and the type of the span is not looked at. Completing and
    failing read the clock once for the end time, attaching an artifact reads
    it once for [produced_at], attaching evidence does not read it. *)
Theorem known_span_id_updates_first_match
    (ctx : ExecutionContext) (pre : list ExecutionSpan) (s : ExecutionSpan)
    (post : list ExecutionSpan) (spanId : jsstring) (reasons : list jsstring)
    (artifact : ArtifactArg.t) (ev : SpanEvidence.t) (w : World) :
  spans ctx = pre ++ s :: post →
  spanId ∉ map span_id pre →
  span_id s = spanId →
  completeRepoSpan spanId ctx w
  = (Normal {| coreSpan := coreSpan ctx;
               spans := pre ++ completed_at s (iso_at w (clock_pos w)) :: post |},
     after_clock_reading w)
  ∧ failRepoSpan spanId reasons ctx w
    = (Normal {| coreSpan := coreSpan ctx;
                 spans := pre ++ failed_at s reasons (iso_at w (clock_pos w))
                          :: post |},
       after_clock_reading w)
  ∧ completeAgentSpan spanId ctx w
    = (Normal {| coreSpan := coreSpan ctx;
                 spans := pre ++ completed_at s (iso_at w (clock_pos w))
                          :: post |},
       after_clock_reading w)
  ∧ failAgentSpan spanId reasons ctx w
    = (Normal {| coreSpan := coreSpan ctx;
                 spans := pre ++ failed_at s reasons (iso_at w (clock_pos w))
                          :: post |},
       after_clock_reading w)
  ∧ attachArtifactToSpan spanId artifact ctx w
    = (Normal {| coreSpan := coreSpan ctx;
                 spans := pre
                          ++ with_artifacts s
                               (artifacts s
                                ++ [SpanArtifact.mk (ArtifactArg.id artifact)
                                      (ArtifactArg.type artifact)
                                      (ArtifactArg.name artifact)
                                      (ArtifactArg.content artifact)
                                      (iso_at w (clock_pos w))])
                          :: post |},
       after_clock_reading w)
  ∧ attachEvidenceToSpan spanId ev ctx w
    = (Normal {| coreSpan := coreSpan ctx;
                 spans := pre ++ with_evidence s (evidence s ++ [ev]) :: post |},
       w).
Proof.
  intros Hspans Hpre Hid.
  split_and!; by eapply updateSpan_hit.
Qed.

Lemma known_span_id_updates_first_match_witness :
  completeRepoSpan (lit "repo-1") Twins.context Sample.world
  = (Normal {| coreSpan := Sample.started_core;
               spans := [Sample.started_core;
                         completed_at Sample.repo1 (lit "t0");
                         Sample.repo1] |},
     after_clock_reading Sample.world).
Proof.
  refine (proj1 (known_span_id_updates_first_match Twins.context
                   [Sample.started_core] Sample.repo1 [Sample.repo1]
                   (lit "repo-1") [] Sample.report Sample.id_evidence_123
                   Sample.world _ _ _)).
  - reflexivity.
  - cbn [map]. apply not_elem_of_cons. split; [|apply not_elem_of_nil].
    intros H. vm_compute in H. discriminate H.
  - reflexivity.
Defined.

(** * What every span of the span model looks like *)

(** X14. Every span that the factories and the span operations give, in
    any order and environment, has the fields of its kind: a core span has no
    repo name, agent name or operation; a repo span has a parent, a repo name
    and the name [repo:] followed by it; an agent span has a parent, an agent
    name, an operation and the name [agent:], agent name, colon, operation. *)
Theorem obtainable_span_has_fields_of_its_kind
    (G : ExecutionSpan → Prop) (s : ExecutionSpan) :
  obtainable G s →
  match type s with
  | core =>
      repo_name s = None ∧ agent_name s = None ∧ operation s = None
  | repo =>
      ∃ repoName parentSpanId,
        name s = lit "repo:" ++ repoName
        ∧ repo_name s = Some repoName
        ∧ parent_span_id s = Some parentSpanId
        ∧ agent_name s = None ∧ operation s = None
  | agent =>
      ∃ agentName op parentSpanId,
        name s = lit "agent:" ++ agentName ++ lit ":" ++ op
        ∧ agent_name s = Some agentName
        ∧ operation s = Some op
        ∧ parent_span_id s = Some parentSpanId
        ∧ repo_name s = None
  end.
Proof.
  induction 1 as [nm parent w s w' Hrun
                 |repoName parent w s w' Hrun
                 |agentName op parent w s w' Hrun
                 |s w s' w' _ IH _ Hrun
                 |s reasons w s' w' _ IH Hrun
                 |s artifact w s' w' _ IH Hrun
                 |s ev w s' w' _ IH Hrun].
  - unfold createCoreSpan, bind, generateSpanId, now, ret in Hrun.
    injection Hrun as <- _. by cbn.
  - unfold createRepoSpan, bind, generateSpanId, now, ret in Hrun.
    injection Hrun as <- _. cbn. by exists repoName, parent.
  - unfold createAgentSpan, bind, generateSpanId, now, ret in Hrun.
    injection Hrun as <- _. cbn. by exists agentName, op, parent.
  - unfold completeSpan, bind, now, ret in Hrun.
    injection Hrun as <- _. exact IH.
  - unfold failSpan, bind, now, ret in Hrun.
    injection Hrun as <- _. exact IH.
  - unfold attachArtifact, bind in Hrun.
    destruct (ArtifactInput.produced_at artifact) as [p|];
      [destruct (truthy p)|]; unfold now, ret in Hrun;
      injection Hrun as <- _; exact IH.
  - unfold attachEvidence, ret in Hrun. injection Hrun as <- _. exact IH.
Qed.

Lemma obtainable_span_has_fields_of_its_kind_witness :
  obtainable (λ _, True) Sample.started_core
  ∧ repo_name Sample.started_core = None
  ∧ agent_name Sample.started_core = None
  ∧ operation Sample.started_core = None.
Proof.
  assert (obtainable (λ _, True) Sample.started_core) as Hob.
  { apply (obtain_core _ (lit "test-core") None Sample.world _
             {| uuid_at := uuid_at Sample.world; uuid_pos := 1;
                iso_at := iso_at Sample.world; clock_pos := 1 |}).
    vm_compute. reflexivity. }
  split; [exact Hob|].
  exact (obtainable_span_has_fields_of_its_kind _ _ Hob).
Defined.

(** X15. Every such span has an end time exactly when it is no longer
    running, and its metadata is empty: no factory and no operation of the
    span model writes metadata. *)
Theorem obtainable_span_ends_when_settled
    (G : ExecutionSpan → Prop) (s : ExecutionSpan) :
  obtainable G s →
  (end_time s = None ↔ status s = running) ∧ metadata s = ∅.
Proof.
  induction 1 as [nm parent w s w' Hrun
                 |repoName parent w s w' Hrun
                 |agentName op parent w s w' Hrun
                 |s w s' w' _ IH _ Hrun
                 |s reasons w s' w' _ IH Hrun
                 |s artifact w s' w' _ IH Hrun
                 |s ev w s' w' _ IH Hrun].
  - unfold createCoreSpan, bind, generateSpanId, now, ret in Hrun.
    injection Hrun as <- _. by cbn.
  - unfold createRepoSpan, bind, generateSpanId, now, ret in Hrun.
    injection Hrun as <- _. by cbn.
  - unfold createAgentSpan, bind, generateSpanId, now, ret in Hrun.
    injection Hrun as <- _. by cbn.
  - unfold completeSpan, bind, now, ret in Hrun.
    injection Hrun as <- _. cbn. by destruct IH.
  - unfold failSpan, bind, now, ret in Hrun.
    injection Hrun as <- _. cbn. by destruct IH.
  - unfold attachArtifact, bind in Hrun.
    destruct (ArtifactInput.produced_at artifact) as [p|];
      [destruct (truthy p)|]; unfold now, ret in Hrun;
      injection Hrun as <- _; exact IH.
  - unfold attachEvidence, ret in Hrun. injection Hrun as <- _. exact IH.
Qed.

Lemma obtainable_span_ends_when_settled_witness :
  obtainable (λ _, True) Sample.failed_core
  ∧ (end_time Sample.failed_core = None ↔ status Sample.failed_core = running)
  ∧ metadata Sample.failed_core = ∅.
Proof.
  assert (obtainable (λ _, True) Sample.failed_core) as Hob.
  { apply (obtain_fail _ Sample.started_core [lit "boom"] Sample.world _
             {| uuid_at := uuid_at Sample.world; uuid_pos := 0;
                iso_at := iso_at Sample.world; clock_pos := 1 |}).
    - apply (obtain_core _ (lit "test-core") None Sample.world _
               {| uuid_at := uuid_at Sample.world; uuid_pos := 1;
                  iso_at := iso_at Sample.world; clock_pos := 1 |}).
      vm_compute. reflexivity.
    - vm_compute. reflexivity. }
  split; [exact Hob|].
  exact (obtainable_span_ends_when_settled _ _ Hob).
Defined.

(** * The wrappers in any environment *)

Section wrappers_anywhere.
Implicit Types (w : World) (ctx : ExecutionContext).

(** [finalize] in terms of what the wrappers need of it. *)
Lemma finalize_returns_anywhere {R} (payload : R) ctx w :
  returns (finalize payload ctx) w
    (λ '(res, _) _,
       map skeleton (CoreExecutionResult.execution_graph res)
       = map skeleton (spans ctx)
       ∧ CoreExecutionResult.core_span_id res = span_id (coreSpan ctx)
       ∧ CoreExecutionResult.result res = payload).
Proof.
  destruct (finalize_keeps_skeletons payload ctx w)
    as ([res ctx'] & w' & Hrun & Hsk).
  exists (res, ctx'), w'. split; [exact Hrun|]. split; [exact Hsk|].
  apply finalize_inv in Hrun as (_ & _ & _ & _ & Hid & Hres & Hupd).
  split; [|done]. rewrite Hid.
  destruct Hupd as [Hupd|Hupd]; apply updateSpan_inv in Hupd as [-> _]; done.
Qed.

Lemma executeWithSpans_returns_anywhere {T} coreName parentSpanId repoName
    agentName operation (fn : External T) w :
  renders fn →
  returns
    (executeWithSpans coreName parentSpanId repoName agentName operation fn) w
    (λ res _,
       ∃ coreId rid aid,
         map skeleton (CoreExecutionResult.execution_graph res)
         = core_skeleton coreName parentSpanId coreId
           :: entry_skeletons coreId
                (RepoEntry.mk repoName agentName operation fn) (rid, aid)
         ∧ CoreExecutionResult.core_span_id res = coreId
         ∧ CoreExecutionResult.result res
           = match settles fn with
             | Normal v => Some v
             | Abrupt _ => None
             end).
Proof.
  intros Hrenders. unfold renders in Hrenders.
  unfold executeWithSpans, new_ExecutionContext.
  apply returns_bind, returns_bind.
  eapply returns_mono; [apply createCoreSpan_returns|].
  intros c w1 (_ & t & ->). apply returns_ret.
  apply returns_bind. eapply returns_mono; [apply startRepoSpan_returns|].
  intros [r ctx1] w2 (_ & -> & t1 & ->). cbv beta iota.
  apply returns_bind. eapply returns_mono; [apply startAgentSpan_returns|].
  intros [a ctx2] w3 (_ & -> & t3 & ->). cbv beta iota.
  rewrite push_push. cbn [coreSpan spans span_id].
  set (c := {| span_id := uuid_at w (uuid_pos w); type := core |}).
  set (r := {| span_id := uuid_at w1 (uuid_pos w1); type := repo |}).
  set (a := {| span_id := uuid_at w2 (uuid_pos w2); type := agent |}).
  set (ctx2 := {| coreSpan := c; spans := [c] ++ [r; a] |}).
  assert (∀ payload ctx w4,
    coreSpan ctx = c →
    map skeleton (spans ctx) = map skeleton (spans ctx2) →
    payload = match settles fn with
              | Normal v => Some v
              | Abrupt _ => None
              end →
    returns (finalize (R := option T) payload ctx) w4
      (λ x w5, returns (let '(res, _) := x in ret res) w5
         (λ res _,
            ∃ coreId rid aid,
              map skeleton (CoreExecutionResult.execution_graph res)
              = core_skeleton coreName parentSpanId coreId
                :: entry_skeletons coreId
                     (RepoEntry.mk repoName agentName operation fn) (rid, aid)
              ∧ CoreExecutionResult.core_span_id res = coreId
              ∧ CoreExecutionResult.result res
                = match settles fn with
                  | Normal v => Some v
                  | Abrupt _ => None
                  end))) as Hfin.
  { intros payload ctx w4 Hcore Hsk Hpayload.
    eapply returns_mono; [apply finalize_returns_anywhere|].
    intros [res ctx'] w5 (Hres & Hid & Hresult). apply returns_ret.
    exists (span_id c), (span_id r), (span_id a).
    rewrite Hres, Hsk, Hid, Hcore, Hresult. done. }
  apply returns_bind. apply returns_try_call. intros w4 _.
  destruct (settles fn) as [v|error] eqn:Hset.
  - apply returns_bind. eapply returns_mono;
      [apply updateSpan_keeps_skeletons, keeps_skeleton_evidence|].
    intros ctx3 w5 [Hc3 Hsk3].
    apply returns_bind. eapply returns_mono;
      [apply updateSpan_keeps_skeletons, keeps_skeleton_completeSpan|].
    intros ctx4 w6 [Hc4 Hsk4].
    apply returns_bind. eapply returns_mono;
      [apply updateSpan_keeps_skeletons, keeps_skeleton_completeSpan|].
    intros ctx5 w7 [Hc5 Hsk5]. apply returns_ret.
    apply returns_bind, Hfin; [|by rewrite Hsk5, Hsk4, Hsk3|done].
    by rewrite Hc5, Hc4, Hc3.
  - apply returns_errorMessage; [done|].
    apply returns_bind. eapply returns_mono;
      [apply updateSpan_keeps_skeletons, keeps_skeleton_failSpan|].
    intros ctx4 w6 [Hc4 Hsk4].
    apply returns_bind. eapply returns_mono;
      [apply updateSpan_keeps_skeletons, keeps_skeleton_failSpan|].
    intros ctx5 w7 [Hc5 Hsk5]. apply returns_ret.
    apply returns_bind, Hfin; [|by rewrite Hsk5, Hsk4|done].
    by rewrite Hc5, Hc4.
Qed.

Lemma executeWithSpans_raises {T} coreName parentSpanId repoName agentName
    operation (fn : External T) raised w :
  settles fn = Abrupt (Unrenderable raised) →
  raises
    (executeWithSpans coreName parentSpanId repoName agentName operation fn)
    w raised.
Proof.
  intros Hset. unfold executeWithSpans, new_ExecutionContext.
  apply raises_bind_r, returns_bind.
  eapply returns_mono; [apply createCoreSpan_returns|].
  intros c w1 _. apply returns_ret.
  apply raises_bind_r. eapply returns_mono; [apply startRepoSpan_returns|].
  intros [r ctx1] w2 _. cbv beta iota.
  apply raises_bind_r. eapply returns_mono; [apply startAgentSpan_returns|].
  intros [a ctx2] w3 _. cbv beta iota.
  apply raises_bind_l. by apply raises_try_call.
Qed.

End wrappers_anywhere.

(** X16. Whatever the identifiers and the clock are, [executeWithSpans]
    returns normally when the collaborator resolves or throws a value with a
    message (an [Error], or a value that [String(...)] renders). The graph it
    returns is then the core span under the caller's parent, the repo span
    under the core span and the agent span under the repo span, in this
    order, named after the arguments; [core_span_id] is the core span's
    identifier, and the result is the value the collaborator resolved with,
    or null when it threw. When the collaborator throws a value whose
    rendering throws, the wrapper does not return: it throws what the
    rendering threw. *)
Theorem executeWithSpans_returns_or_rethrows {T} (coreName : jsstring)
    (parentSpanId : option jsstring) (repoName agentName operation : jsstring)
    (fn : External T) (w : World) :
  (renders fn →
   ∃ res w' coreId rid aid,
     executeWithSpans coreName parentSpanId repoName agentName operation fn w
     = (Normal res, w')
     ∧ map skeleton (CoreExecutionResult.execution_graph res)
       = core_skeleton coreName parentSpanId coreId
         :: entry_skeletons coreId
              (RepoEntry.mk repoName agentName operation fn) (rid, aid)
     ∧ CoreExecutionResult.core_span_id res = coreId
     ∧ CoreExecutionResult.result res
       = match settles fn with
         | Normal v => Some v
         | Abrupt _ => None
         end)
  ∧ ∀ raised,
      settles fn = Abrupt (Unrenderable raised) →
      ∃ w',
        executeWithSpans coreName parentSpanId repoName agentName operation
          fn w
        = (Abrupt raised, w').
Proof.
  split.
  - intros Hrenders.
    destruct (executeWithSpans_returns_anywhere coreName parentSpanId repoName
                agentName operation fn w Hrenders)
      as (res & w' & Hrun & coreId & rid & aid & H).
    by exists res, w', coreId, rid, aid.
  - intros raised Hset.
    by apply executeWithSpans_raises.
Qed.

Lemma executeWithSpans_returns_or_rethrows_witness :
  renders Sample.refusing
  ∧ settles Unprintable.bare_object
    = Abrupt (Unrenderable Unprintable.type_error)
  ∧ (∃ res w',
       executeWithSpans (lit "ecosystem-core") None (lit "marketplace")
         (lit "marketplace-agent") (lit "list_artifacts") Sample.refusing
         Sample.world
       = (Normal res, w')
       ∧ CoreExecutionResult.result res = None)
  ∧ ∃ w',
      executeWithSpans (lit "ecosystem-core") None (lit "marketplace")
        (lit "marketplace-agent") (lit "list_artifacts")
        Unprintable.bare_object Sample.world
      = (Abrupt Unprintable.type_error, w').
Proof.
  split; [exact I|]. split; [reflexivity|]. split.
  - destruct (proj1 (executeWithSpans_returns_or_rethrows (lit "ecosystem-core")
                       None (lit "marketplace") (lit "marketplace-agent")
                       (lit "list_artifacts") Sample.refusing Sample.world) I)
      as (res & w' & coreId & rid & aid & Hrun & _ & _ & Hres).
    exists res, w'. split; [exact Hrun|exact Hres].
  - apply (proj2 (executeWithSpans_returns_or_rethrows (lit "ecosystem-core")
                    None (lit "marketplace") (lit "marketplace-agent")
                    (lit "list_artifacts") Unprintable.bare_object
                    Sample.world)).
    reflexivity.
Defined.

Lemma lone_core_validation (c : ExecutionSpan) :
  type c = core →
  ∃ rest, validateExecutionGraph [c] = core_must_have_repo_children c :: rest.
Proof.
  intros Ht. rewrite validateExecutionGraph_lists.
  assert (filter (λ s, is_type core s) [c] = [c]) as ->.
  { rewrite filter_cons_True by (by apply bool_decide_pack). done. }
  rewrite decide_False by done. cbn [flat_map]. unfold core_failures at 1.
  assert (repo_children [c] c = []) as ->.
  { apply nil_iff_no_elem. intros r Hr.
    apply elem_of_repo_children in Hr as (Hr & Hrt & _).
    apply list_elem_of_singleton in Hr. congruence. }
  rewrite decide_True by done. cbn [flat_map app]. by eexists.
Qed.

Lemma executeMultiRepoWithSpans_nil_returns {U T} coreName parentSpanId
    (aggregator : list (option U) → External T) w :
  returns
    (executeMultiRepoWithSpans coreName parentSpanId
       ([] : list (RepoEntry.t U)) aggregator) w
    (λ res _,
       ∃ c,
         CoreExecutionResult.success res = false
         ∧ CoreExecutionResult.execution_graph res = [c]
         ∧ type c = core ∧ status c = failed
         ∧ span_id c = CoreExecutionResult.core_span_id res
         ∧ core_must_have_repo_children c
           ∈ CoreExecutionResult.validation_failures res
         ∧ CoreExecutionResult.result res
           = match settles (aggregator []) with
             | Normal a => Some a
             | Abrupt _ => None
             end).
Proof.
  unfold executeMultiRepoWithSpans, new_ExecutionContext.
  apply returns_bind, returns_bind.
  eapply returns_mono; [apply createCoreSpan_returns|].
  intros c w1 (_ & t & Hc). apply returns_ret.
  cbn [multi_loop]. apply returns_bind, returns_ret.
  cbn [hasFailure negb results loop_ctx].
  assert (type c = core) as Ht by (by rewrite Hc).
  set (ctx := {| coreSpan := c; spans := [c] |}).
  destruct (lone_core_validation c Ht) as (rest & Hval).
  assert (core_failure_reasons ctx ≠ []) as Hreasons.
  { unfold core_failure_reasons, ctx. cbn [spans]. by rewrite Hval. }
  assert (∀ payload w3,
    payload = match settles (aggregator []) with
              | Normal a => Some a
              | Abrupt _ => None
              end →
    returns (finalize (R := option T) payload ctx) w3
      (λ x w4, returns (let '(res, _) := x in ret res) w4
         (λ res _,
            ∃ c0,
              CoreExecutionResult.success res = false
              ∧ CoreExecutionResult.execution_graph res = [c0]
              ∧ type c0 = core ∧ status c0 = failed
              ∧ span_id c0 = CoreExecutionResult.core_span_id res
              ∧ core_must_have_repo_children c0
                ∈ CoreExecutionResult.validation_failures res
              ∧ CoreExecutionResult.result res
                = match settles (aggregator []) with
                  | Normal a => Some a
                  | Abrupt _ => None
                  end))) as Hfin.
  { intros payload w3 Hpayload.
    pose proof (finalize_run ctx payload w3 c [] eq_refl eq_refl) as Hfr.
    cbv zeta in Hfr. destruct Hfr as (c' & w4 & Hupd & Hstatus & Hrun).
    rewrite decide_False in Hupd by done.
    rewrite decide_False in Hstatus by done.
    rewrite bool_decide_eq_false_2 in Hrun by done.
    eexists _, w4. split; [exact Hrun|]. apply returns_ret.
    exists c'. cbn [CoreExecutionResult.success
                    CoreExecutionResult.execution_graph
                    CoreExecutionResult.core_span_id
                    CoreExecutionResult.validation_failures
                    CoreExecutionResult.result].
    unfold failSpan, bind, now, ret in Hupd. injection Hupd as <- _.
    cbn [type status span_id]. unfold coreSpanId, ctx. cbn [coreSpan spans].
    split_and!; try done.
    rewrite Hval. unfold core_must_have_repo_children. cbn [span_id name].
    left. }
  apply returns_bind. apply returns_try_call. intros w3 _.
  destruct (settles (aggregator [])) as [v|error];
    apply returns_ret; by apply returns_bind, Hfin.
Qed.

(** X17. Over an empty list of entries [executeMultiRepoWithSpans] never
    succeeds, in any environment and with any aggregator: the graph is the
    core span alone, failed, and the validator's complaint that the core span
    has no repo child is among the validation failures. The aggregator is
    still called, on the empty list, and its value, or null when it throws,
    is the result. *)
Theorem executeMultiRepoWithSpans_without_entries {U T} (coreName : jsstring)
    (parentSpanId : option jsstring)
    (aggregator : list (option U) → External T) (w : World) :
  ∃ res w' c,
    executeMultiRepoWithSpans coreName parentSpanId
      ([] : list (RepoEntry.t U)) aggregator w
    = (Normal res, w')
    ∧ CoreExecutionResult.success res = false
    ∧ CoreExecutionResult.execution_graph res = [c]
    ∧ type c = core ∧ status c = failed
    ∧ span_id c = CoreExecutionResult.core_span_id res
    ∧ core_must_have_repo_children c
      ∈ CoreExecutionResult.validation_failures res
    ∧ CoreExecutionResult.result res
      = match settles (aggregator []) with
        | Normal a => Some a
        | Abrupt _ => None
        end.
Proof.
  destruct (executeMultiRepoWithSpans_nil_returns (U := U) coreName
              parentSpanId aggregator w)
    as (res & w' & Hrun & c & H).
  by exists res, w', c.
Qed.

(** X18. With fresh identifiers, at least one entry, and collaborators that
    resolve or throw a value with a message (an [Error], or a value that
    [String(...)] renders), the graph of [executeMultiRepoWithSpans] passes
    the validator. With [j] the number of entries whose collaborator threw,
    [success] is true exactly when [j] is 0; otherwise the one failure reason
    counts the [2j] failed spans. The first span of the graph is the core
    span, completed on success and failed otherwise, and it carries the same
    reasons as the result. *)
Theorem multi_repo_verdict {U T} (coreName : jsstring)
    (parentSpanId : option jsstring) (repos : list (RepoEntry.t U))
    (aggregator : list (option U) → External T) (w : World) :
  fresh_ids w → parentSpanId ≠ Some (uuid_at w (uuid_pos w)) →
  Forall (λ e, renders (RepoEntry.fn e)) repos →
  repos ≠ [] →
  let j := length (filter (λ e, throws e) repos) in
  ∃ res w' c,
    executeMultiRepoWithSpans coreName parentSpanId repos aggregator w
    = (Normal res, w')
    ∧ CoreExecutionResult.validation_failures res = []
    ∧ CoreExecutionResult.success res = bool_decide (j = 0)
    ∧ CoreExecutionResult.failure_reasons res
      = (if decide (j = 0) then []
         else [String_of_nat (2 * j) ++ lit " child span(s) failed"])
    ∧ head (CoreExecutionResult.execution_graph res) = Some c
    ∧ type c = core
    ∧ span_id c = CoreExecutionResult.core_span_id res
    ∧ status c = (if decide (j = 0) then completed else failed)
    ∧ failure_reasons c = CoreExecutionResult.failure_reasons res.
Proof.
  intros Hfresh Hparent Hrenders Hrepos j.
  destruct (executeMultiRepoWithSpans_returns coreName parentSpanId repos
              aggregator w Hfresh Hparent Hrenders)
    as (res & w' & Hrun & c & tail & t & Hopen & _ & _ & ->).
  destruct Hopen as (Hct & _ & _ & _ & _ & _ & Hnone).
  assert (built_reasons repos c
          = (if decide (j = 0) then []
             else [String_of_nat (2 * j) ++ lit " child span(s) failed"]))
    as Hreasons.
  { unfold built_reasons. rewrite decide_False by done. cbn [app].
    fold j. destruct (decide (j = 0)) as [Hj|Hj].
    - rewrite decide_False by lia. done.
    - rewrite decide_True by lia. done. }
  eexists _, w', _. split; [exact Hrun|].
  unfold built_result.
  cbn [CoreExecutionResult.success CoreExecutionResult.execution_graph
       CoreExecutionResult.failure_reasons CoreExecutionResult.core_span_id
       CoreExecutionResult.validation_failures head].
  rewrite Hreasons, decide_False by done.
  split; [done|]. split.
  { destruct (decide (j = 0)) as [Hj|Hj].
    - by rewrite !bool_decide_eq_true_2.
    - by rewrite !bool_decide_eq_false_2. }
  split; [done|]. split; [reflexivity|].
  destruct (decide (j = 0)) as [Hj|Hj].
  - rewrite decide_True by done. cbn. by rewrite Hnone.
  - rewrite decide_False by done. cbn. by rewrite Hnone.
Qed.

Lemma multi_repo_verdict_witness :
  fresh_ids Sample.world
  ∧ None ≠ Some (uuid_at Sample.world (uuid_pos Sample.world))
  ∧ Forall (λ e, renders (RepoEntry.fn e)) Sample.three_one_refusing
  ∧ Sample.three_one_refusing ≠ []
  ∧ ∃ res w',
      executeMultiRepoWithSpans (lit "ecosystem-core") None
        Sample.three_one_refusing Sample.counting Sample.world
      = (Normal res, w')
      ∧ CoreExecutionResult.validation_failures res = []
      ∧ CoreExecutionResult.success res = false
      ∧ CoreExecutionResult.failure_reasons res
        = [lit "2 child span(s) failed"].
Proof.
  assert (Forall (λ e, renders (RepoEntry.fn e)) Sample.three_one_refusing)
    as Hrenders by (repeat constructor).
  split_and!;
    [exact sample_world_fresh|discriminate|exact Hrenders|discriminate|].
  destruct (multi_repo_verdict (lit "ecosystem-core") None
              Sample.three_one_refusing Sample.counting Sample.world
              sample_world_fresh)
    as (res & w' & c & Hrun & Hval & Hsuccess & Hreasons & _);
    [discriminate|exact Hrenders|discriminate|].
  exists res, w'. split; [exact Hrun|]. split; [exact Hval|].
  split; [rewrite Hsuccess|rewrite Hreasons]; vm_compute; reflexivity.
Defined.

(** * Contexts a caller can hold, and misuse the context does not stop *)

Section held_contexts.
Implicit Types (ctx : ExecutionContext) (s : ExecutionSpan).

Lemma method_call_head ctx ctx' c rest :
  method_call ctx ctx' →
  spans ctx = c :: rest → type c = core → span_id c = coreSpanId ctx →
  ∃ c' rest', spans ctx' = c' :: rest' ∧ type c' = core
              ∧ span_id c' = coreSpanId ctx'.
Proof.
  intros Hcall Hs Ht Hid.
  apply method_call_grows in Hcall as (Hcore & old & new & Hs' & Hg).
  rewrite Hs in Hg. inversion Hg as [|? c' ? old' Hcc' _]; subst.
  destruct Hcc' as (Hsk & _). exists c', (old' ++ new).
  split; [by rewrite Hs'|].
  assert (type c' = type c) as -> by (by injection Hsk).
  assert (span_id c' = span_id c) as -> by (by injection Hsk).
  unfold coreSpanId in *. by rewrite Hcore.
Qed.

Lemma reachable_head_core ctx :
  reachable ctx →
  ∃ c rest, spans ctx = c :: rest ∧ type c = core
            ∧ span_id c = coreSpanId ctx.
Proof.
  induction 1 as [coreName parentSpanId w ctx w' Hrun
                 |ctx repoName w span ctx' w' _ IH Hrun
                 |ctx parent agentName operation w span ctx' w' _ IH Hrun
                 |ctx spanId w ctx' w' _ IH Hrun
                 |ctx spanId reasons w ctx' w' _ IH Hrun
                 |ctx spanId w ctx' w' _ IH Hrun
                 |ctx spanId reasons w ctx' w' _ IH Hrun
                 |ctx fuel spans_argument ctx' _ IH Hrun
                 |ctx spanId artifact w ctx' w' _ IH Hrun
                 |ctx spanId ev w ctx' w' _ IH Hrun
                 |R operationResult ctx w res ctx' w' _ IH Hrun].
  - unfold new_ExecutionContext, createCoreSpan, bind, generateSpanId, now,
      ret in Hrun.
    injection Hrun as <- _. by eexists _, [].
  - destruct IH as (c & rest & Hs & Ht & Hid).
    eapply method_call_head; [|exact Hs|exact Ht|exact Hid].
    by eapply call_startRepoSpan.
  - destruct IH as (c & rest & Hs & Ht & Hid).
    eapply method_call_head; [|exact Hs|exact Ht|exact Hid].
    by eapply call_startAgentSpan.
  - destruct IH as (c & rest & Hs & Ht & Hid).
    eapply method_call_head; [|exact Hs|exact Ht|exact Hid].
    by eapply call_completeRepoSpan.
  - destruct IH as (c & rest & Hs & Ht & Hid).
    eapply method_call_head; [|exact Hs|exact Ht|exact Hid].
    by eapply call_failRepoSpan.
  - destruct IH as (c & rest & Hs & Ht & Hid).
    eapply method_call_head; [|exact Hs|exact Ht|exact Hid].
    by eapply call_completeAgentSpan.
  - destruct IH as (c & rest & Hs & Ht & Hid).
    eapply method_call_head; [|exact Hs|exact Ht|exact Hid].
    by eapply call_failAgentSpan.
  - destruct IH as (c & rest & Hs & Ht & Hid).
    eapply method_call_head; [|exact Hs|exact Ht|exact Hid].
    by eapply call_ingestRepoSpans.
  - destruct IH as (c & rest & Hs & Ht & Hid).
    eapply method_call_head; [|exact Hs|exact Ht|exact Hid].
    by eapply call_attachArtifactToSpan.
  - destruct IH as (c & rest & Hs & Ht & Hid).
    eapply method_call_head; [|exact Hs|exact Ht|exact Hid].
    by eapply call_attachEvidenceToSpan.
  - destruct IH as (c & rest & Hs & Ht & Hid).
    eapply method_call_head; [|exact Hs|exact Ht|exact Hid].
    by eapply call_finalize.
Qed.

Lemma core_span_required_absent (l : list ExecutionSpan) :
  (∃ c, c ∈ l ∧ type c = core) →
  filter (has_rule (lit "core_span_required")) (validateExecutionGraph l) = [].
Proof.
  intros Hcore. rewrite filter_rule_validate by done.
  rewrite (filter_Forall_nil _ (flat_map (core_failures l) _)).
  2:{ apply Forall_flat_map_intro. intros c. other_rule core_failures_rules. }
  rewrite (filter_Forall_nil _ (flat_map (parent_failures l) l)).
  2:{ apply Forall_flat_map_intro. intros c. other_rule parent_failures_rules. }
  rewrite (filter_Forall_nil _ (flat_map check_self l)).
  2:{ apply Forall_flat_map_intro. intros c. other_rule check_self_rules. }
  rewrite (filter_Forall_nil _ (flat_map check_evidence l)).
  2:{ apply Forall_flat_map_intro. intros c. other_rule check_evidence_rules. }
  rewrite (filter_Forall_nil _ (flat_map check_artifacts l)).
  2:{ apply Forall_flat_map_intro. intros c. other_rule check_artifacts_rules. }
  done.
Qed.

(** In a graph with a core span, what the per-span checks find is reported. *)
Lemma per_span_failures_reported (l : list ExecutionSpan) s f :
  (∃ c, c ∈ l ∧ type c = core) →
  s ∈ l →
  f ∈ parent_failures l s ++ check_self s ++ check_evidence s
      ++ check_artifacts s →
  f ∈ validateExecutionGraph l.
Proof.
  intros Hcore Hs Hf. rewrite validateExecutionGraph_lists.
  rewrite decide_False by by apply has_core_filter.
  rewrite !elem_of_app in Hf. rewrite !elem_of_app, !elem_of_flat_map.
  destruct Hf as [Hf|[Hf|[Hf|Hf]]]; eauto 8.
Qed.

End held_contexts.

(** X19. A context that the constructor and the public methods gave always
    has a core span at the head of its recorded spans, with the identifier
    [coreSpanId] returns; so on such a context the validator, and [finalize]
    with it, never reports [core_span_required]. *)
Theorem reachable_context_has_core_span (ctx : ExecutionContext) :
  reachable ctx →
  (∃ c rest, spans ctx = c :: rest ∧ type c = core
             ∧ span_id c = coreSpanId ctx)
  ∧ ∀ f, f ∈ validateExecutionGraph (spans ctx) →
         ValidationFailure.rule f ≠ lit "core_span_required".
Proof.
  intros Hreach.
  destruct (reachable_head_core ctx Hreach) as (c & rest & Hs & Ht & Hid).
  split; [by exists c, rest|].
  intros f Hf Hrule.
  assert (f ∈ filter (has_rule (lit "core_span_required"))
                (validateExecutionGraph (spans ctx))) as Hin
    by (by apply list_elem_of_filter).
  rewrite core_span_required_absent in Hin.
  - by apply not_elem_of_nil in Hin.
  - exists c. split; [rewrite Hs; left|done].
Qed.

Lemma reachable_context_has_core_span_witness :
  reachable Sample.new_context
  ∧ ∃ c rest, spans Sample.new_context = c :: rest ∧ type c = core
              ∧ span_id c = coreSpanId Sample.new_context.
Proof.
  assert (reachable Sample.new_context) as Hreach.
  { by eapply (reach_new (lit "test-core") None Sample.world). }
  split; [exact Hreach|].
  exact (proj1 (reachable_context_has_core_span _ Hreach)).
Defined.

Section misuse.
Implicit Types (ctx : ExecutionContext) (s : ExecutionSpan).

(** A failure the validator finds on the recorded spans is in the result of
    [finalize], and makes it unsuccessful. *)
Lemma finalize_reports {R} (payload : R) ctx w f :
  f ∈ validateExecutionGraph (spans ctx) →
  ∃ res ctx' w',
    finalize payload ctx w = (Normal (res, ctx'), w')
    ∧ CoreExecutionResult.success res = false
    ∧ f ∈ CoreExecutionResult.validation_failures res.
Proof.
  intros Hf.
  destruct (finalize_total payload ctx w) as (res & ctx' & w' & Hrun).
  exists res, ctx', w'. split; [exact Hrun|].
  apply finalize_inv in Hrun as (_ & -> & _ & -> & _).
  split; [|done]. apply bool_decide_eq_false_2.
  unfold core_failure_reasons.
  destruct (validateExecutionGraph (spans ctx)); [|done].
  by apply not_elem_of_nil in Hf.
Qed.

Lemma reachable_has_core ctx :
  reachable ctx → ∃ c, c ∈ spans ctx ∧ type c = core.
Proof.
  intros (c & rest & Hs & Ht & _)%reachable_head_core.
  exists c. split; [rewrite Hs; left|done].
Qed.

(** What an attaching operation leaves when the identifier is known. *)
Lemma attach_known spanId (updater : ExecutionSpan → M ExecutionSpan)
    (change : ExecutionSpan → World → ExecutionSpan) ctx w :
  (∀ s w, ∃ w', updater s w = (Normal (change s w), w')) →
  spanId ∈ map span_id (spans ctx) →
  ∃ ctx' w' s,
    updateSpan spanId updater ctx w = (Normal ctx', w')
    ∧ span_id s = spanId
    ∧ change s w ∈ spans ctx'.
Proof.
  intros Hupd Hin. unfold updateSpan.
  destruct (list_find _ _) as [[index s]|] eqn:Hfind.
  - apply list_find_Some in Hfind as (Hlook & Hid & _).
    destruct (Hupd s w) as (w' & Hrun).
    eexists _, w', s. unfold bind. rewrite Hrun. unfold ret.
    split; [reflexivity|]. split; [done|]. cbn.
    eapply list_elem_of_lookup_2.
    apply list_lookup_insert_eq. by eapply lookup_lt_Some.
  - exfalso. apply elem_of_map_span_id in Hin as (y & Hy & Hyid).
    eapply list_find_None in Hfind. rewrite Forall_forall in Hfind.
    by apply (Hfind y).
Qed.

End misuse.

(** X20. [startAgentSpan] does not look for the parent it is given. On a
    context a caller can hold, a non-empty parent identifier that no recorded
    span has, and that is not the identifier the new span gets, is accepted:
    the agent span is recorded, and from then on the validator reports
    [valid_parent_reference] for it and [finalize] is unsuccessful. *)
Theorem startAgentSpan_unknown_parent {R : Type} (ctx : ExecutionContext)
    (parentRepoSpanId agentName operation : jsstring) (payload : R)
    (w w2 : World) :
  reachable ctx →
  parentRepoSpanId ≠ [] →
  parentRepoSpanId ∉ map span_id (spans ctx) →
  parentRepoSpanId ≠ uuid_at w (uuid_pos w) →
  ∃ span ctx' w' res ctx2 w3,
    startAgentSpan parentRepoSpanId agentName operation ctx w
    = (Normal (span, ctx'), w')
    ∧ spans ctx' = spans ctx ++ [span]
    ∧ valid_parent_reference span parentRepoSpanId
      ∈ validateExecutionGraph (spans ctx')
    ∧ finalize payload ctx' w2 = (Normal (res, ctx2), w3)
    ∧ CoreExecutionResult.success res = false
    ∧ valid_parent_reference span parentRepoSpanId
      ∈ CoreExecutionResult.validation_failures res.
Proof.
  intros Hreach Hne Hnotin Hown.
  destruct (startAgentSpan_returns parentRepoSpanId agentName operation ctx w)
    as ([span ctx'] & w' & Hrun & _ & -> & t & Hspan).
  assert (valid_parent_reference span parentRepoSpanId
          ∈ validateExecutionGraph (spans (push ctx span))) as Hf.
  { apply (per_span_failures_reported _ span).
    - destruct (reachable_has_core ctx Hreach) as (c & Hc & Ht).
      exists c. split; [|done]. cbn. apply elem_of_app. by left.
    - cbn. apply elem_of_app. right. left.
    - apply elem_of_app. left. unfold parent_failures.
      assert (parent_span_id span = Some parentRepoSpanId) as ->
        by (by rewrite Hspan).
      rewrite decide_True; [left|]. unfold dangling. split_and!.
      + done.
      + cbn. rewrite map_app. cbn. rewrite elem_of_app.
        intros [?|Hin]; [done|]. apply list_elem_of_singleton in Hin.
        apply Hown. rewrite Hin, Hspan. done.
      + by rewrite Hspan. }
  destruct (finalize_reports payload (push ctx span) w2 _ Hf)
    as (res & ctx2 & w3 & Hfin & Hsuccess & Hres).
  by exists span, (push ctx span), w', res, ctx2, w3.
Qed.

Lemma startAgentSpan_unknown_parent_witness :
  reachable Sample.new_context
  ∧ ∃ span ctx' w',
      startAgentSpan (lit "ghost") (lit "agent") (lit "list")
        Sample.new_context Sample.world
      = (Normal (span, ctx'), w')
      ∧ valid_parent_reference span (lit "ghost")
        ∈ validateExecutionGraph (spans ctx').
Proof.
  assert (reachable Sample.new_context) as Hreach.
  { by eapply (reach_new (lit "test-core") None Sample.world). }
  split; [exact Hreach|].
  destruct (startAgentSpan_unknown_parent Sample.new_context (lit "ghost")
              (lit "agent") (lit "list") JsNull Sample.world Sample.world
              Hreach)
    as (span & ctx' & w' & _ & _ & _ & Hrun & _ & Hf & _).
  - discriminate.
  - cbn [map]. apply not_elem_of_cons. split; [|apply not_elem_of_nil].
    intros H. vm_compute in H. discriminate H.
  - intros H. vm_compute in H. discriminate H.
  - by exists span, ctx', w'.
Defined.

(** X21. The attaching methods do not check what they attach. On a context
    a caller can hold, evidence whose value is empty or white space only, and
    an artifact whose identifier is, are attached to the span that has the
    given identifier; from then on the validator reports
    [evidence_must_be_verifiable], respectively [artifact_must_have_id], for
    that span, and [finalize] is unsuccessful. *)
Theorem attaching_blank_fails_validation {R : Type} (ctx : ExecutionContext)
    (spanId : jsstring) (ev : SpanEvidence.t) (artifact : ArtifactArg.t)
    (payload : R) (w w2 : World) :
  reachable ctx →
  spanId ∈ map span_id (spans ctx) →
  (forallb isWhiteSpace (SpanEvidence.value ev) = true →
   ∃ ctx' w' s res ctx2 w3,
     attachEvidenceToSpan spanId ev ctx w = (Normal ctx', w')
     ∧ s ∈ spans ctx' ∧ span_id s = spanId
     ∧ evidence_must_be_verifiable s ∈ validateExecutionGraph (spans ctx')
     ∧ finalize payload ctx' w2 = (Normal (res, ctx2), w3)
     ∧ CoreExecutionResult.success res = false)
  ∧ (forallb isWhiteSpace (ArtifactArg.id artifact) = true →
     ∃ ctx' w' s res ctx2 w3,
       attachArtifactToSpan spanId artifact ctx w = (Normal ctx', w')
       ∧ s ∈ spans ctx' ∧ span_id s = spanId
       ∧ artifact_must_have_id s ∈ validateExecutionGraph (spans ctx')
       ∧ finalize payload ctx' w2 = (Normal (res, ctx2), w3)
       ∧ CoreExecutionResult.success res = false).
Proof.
  intros Hreach Hin. split; intros Hblank.
  - destruct (attach_known spanId
                (λ s, ret (with_evidence s (evidence s ++ [ev])))
                (λ s _, with_evidence s (evidence s ++ [ev])) ctx w)
      as (ctx' & w' & s & Hrun & Hid & Hs'); [by eexists|done|].
    set (s' := with_evidence s (evidence s ++ [ev])) in *.
    assert (evidence_must_be_verifiable s'
            ∈ validateExecutionGraph (spans ctx')) as Hf.
    { apply (per_span_failures_reported _ s').
      - apply reachable_has_core. by eapply reach_attachEvidenceToSpan.
      - done.
      - rewrite !elem_of_app. right. right. left.
        unfold check_evidence. apply elem_of_flat_map. exists ev. split.
        + unfold s'. cbn. apply elem_of_app. right. left.
        + rewrite blank_whitespace_only, Hblank. left. }
    destruct (finalize_reports payload ctx' w2 _ Hf)
      as (res & ctx2 & w3 & Hfin & Hsuccess & _).
    exists ctx', w', s', res, ctx2, w3. split_and!; try done.
  - set (change := λ (s : ExecutionSpan) (w0 : World),
           with_artifacts s
             (artifacts s
              ++ [SpanArtifact.mk (ArtifactArg.id artifact)
                    (ArtifactArg.type artifact) (ArtifactArg.name artifact)
                    (ArtifactArg.content artifact)
                    (iso_at w0 (clock_pos w0))])).
    destruct (attach_known spanId
                (λ s, do produced <- now;
                      ret (with_artifacts s
                             (artifacts s
                              ++ [SpanArtifact.mk (ArtifactArg.id artifact)
                                    (ArtifactArg.type artifact)
                                    (ArtifactArg.name artifact)
                                    (ArtifactArg.content artifact) produced])))
                change ctx w)
      as (ctx' & w' & s & Hrun & Hid & Hs'); [by eexists|done|].
    set (s' := change s w) in *.
    assert (artifact_must_have_id s'
            ∈ validateExecutionGraph (spans ctx')) as Hf.
    { apply (per_span_failures_reported _ s').
      - apply reachable_has_core. by eapply reach_attachArtifactToSpan.
      - done.
      - rewrite !elem_of_app. right. right. right.
        unfold check_artifacts. apply elem_of_flat_map. eexists. split.
        + unfold s', change. cbn. apply elem_of_app. right. left.
        + cbn. rewrite blank_whitespace_only, Hblank. left. }
    destruct (finalize_reports payload ctx' w2 _ Hf)
      as (res & ctx2 & w3 & Hfin & Hsuccess & _).
    exists ctx', w', s', res, ctx2, w3. split_and!; try done.
Qed.

Lemma attaching_blank_fails_validation_witness :
  reachable Sample.new_context
  ∧ lit "span-0" ∈ map span_id (spans Sample.new_context)
  ∧ forallb isWhiteSpace (SpanEvidence.value Misuse.blank_evidence) = true
  ∧ ∃ ctx' w' s,
      attachEvidenceToSpan (lit "span-0") Misuse.blank_evidence
        Sample.new_context Sample.world
      = (Normal ctx', w')
      ∧ evidence_must_be_verifiable s ∈ validateExecutionGraph (spans ctx').
Proof.
  assert (reachable Sample.new_context) as Hreach.
  { by eapply (reach_new (lit "test-core") None Sample.world). }
  assert (lit "span-0" ∈ map span_id (spans Sample.new_context)) as Hin
    by (cbn; left).
  split; [exact Hreach|]. split; [exact Hin|]. split; [reflexivity|].
  destruct (proj1 (attaching_blank_fails_validation Sample.new_context
                     (lit "span-0") Misuse.blank_evidence
                     Misuse.anonymous_artifact JsNull Sample.world
                     Sample.world Hreach Hin) eq_refl)
    as (ctx' & w' & s & _ & _ & _ & Hrun & _ & _ & Hf & _).
  by exists ctx', w', s.
Defined.

(** * The verdict and the order of the spans *)

Lemma accepted_same_spans (l l' : list ExecutionSpan) :
  (∀ s, s ∈ l ↔ s ∈ l') → accepted l → accepted l'.
Proof.
  intros Hset ((c & Hc & Ht) & Hcores & Hagents & Hparents & Hself & Hev & Har).
  unfold accepted. split_and!.
  - exists c. split; [by apply Hset|done].
  - intros c0 Hc0 Ht0.
    destruct (Hcores c0 (proj2 (Hset c0) Hc0) Ht0) as (Hid & r & Hr & Hrt & Hrp).
    split; [done|]. exists r. split; [by apply Hset|done].
  - intros c0 r Hc0 Ht0 Hr Hrt Hrp.
    destruct (Hagents c0 r (proj2 (Hset c0) Hc0) Ht0 (proj2 (Hset r) Hr)
                Hrt Hrp) as (Hid & a & Ha & Hat & Hap).
    split; [done|]. exists a. split; [by apply Hset|done].
  - intros s p Hs Ht0 Hp Hne.
    pose proof (Hparents s p (proj2 (Hset s) Hs) Ht0 Hp Hne) as Hin.
    apply elem_of_map_span_id in Hin as (q & Hq & Hqid).
    apply elem_of_map_span_id. exists q. split; [by apply Hset|done].
  - intros s Hs. apply Hself. by apply Hset.
  - intros s ev Hs. apply Hev. by apply Hset.
  - intros s a Hs. apply Har. by apply Hset.
Qed.

(** X22. Whether a graph is valid depends on which spans it holds, not on
    their order or on repetitions: two graphs with the same spans are both
    valid or both invalid. (The list of failures does depend on the
    order.) *)
Theorem validity_ignores_span_order (l l' : list ExecutionSpan) :
  (∀ s, s ∈ l ↔ s ∈ l') →
  isValidExecutionGraph l = isValidExecutionGraph l'.
Proof.
  intros Hset. unfold isValidExecutionGraph. apply bool_decide_ext.
  rewrite !length_zero_iff_nil, !validate_nil_iff_accepted.
  split; apply accepted_same_spans; [done|]. intros s. by rewrite Hset.
Qed.

Lemma validity_ignores_span_order_witness :
  (∀ s, s ∈ Shuffled.root_first ↔ s ∈ Shuffled.leaf_first)
  ∧ isValidExecutionGraph Shuffled.root_first
    = isValidExecutionGraph Shuffled.leaf_first.
Proof.
  assert (∀ s, s ∈ Shuffled.root_first ↔ s ∈ Shuffled.leaf_first) as Hset.
  { intros s. unfold Shuffled.root_first, Shuffled.leaf_first.
    rewrite !elem_of_cons. tauto. }
  split; [exact Hset|].
  exact (validity_ignores_span_order _ _ Hset).
Defined.

(** * A throw that cannot be rendered ends the multi-repo loop *)

Lemma multi_loop_aborts {U} (pre : list (RepoEntry.t U)) e raised st w :
  Forall (λ e, renders (RepoEntry.fn e)) pre →
  settles (RepoEntry.fn e) = Abrupt (Unrenderable raised) →
  ∃ w', ∀ post, multi_loop (pre ++ e :: post) st w = (Abrupt raised, w').
Proof.
  intros Hpre Hset. revert st w.
  induction pre as [|e0 pre IH]; intros st w.
  - destruct (multi_step_raises st e raised w Hset) as (w' & Hstep).
    exists w'. intros post. cbn [app multi_loop]. unfold bind.
    by rewrite Hstep.
  - apply Forall_cons in Hpre as [He0 Hpre].
    destruct (multi_step_skeletons st e0 w He0) as (st1 & w1 & Hstep & _).
    destruct (IH Hpre st1 w1) as (w' & Hrest).
    exists w'. intros post. cbn [app multi_loop]. unfold bind at 1.
    rewrite Hstep. apply Hrest.
Qed.

(** X23. When, in [executeMultiRepoWithSpans], an entry's collaborator
    throws a value whose rendering throws, every entry before it having
    resolved or thrown a value with a message, the wrapper does not return a
    result: it throws what the rendering threw. The entries after that one
    and the aggregator have no part in the run: whatever they are, the thrown
    value and the environment the wrapper leaves are the same. *)
Theorem unrenderable_throw_ends_the_loop {U T} (coreName : jsstring)
    (parentSpanId : option jsstring) (pre : list (RepoEntry.t U))
    (e : RepoEntry.t U) (raised : Thrown) (w : World) :
  Forall (λ e, renders (RepoEntry.fn e)) pre →
  settles (RepoEntry.fn e) = Abrupt (Unrenderable raised) →
  ∃ w', ∀ (post : list (RepoEntry.t U))
          (aggregator : list (option U) → External T),
    executeMultiRepoWithSpans coreName parentSpanId (pre ++ e :: post)
      aggregator w
    = (Abrupt raised, w').
Proof.
  intros Hpre Hset.
  destruct (createCoreSpan_returns coreName parentSpanId w)
    as (c & w0 & Hcore & _).
  destruct (multi_loop_aborts pre e raised
              (Build_LoopState {| coreSpan := c; spans := [c] |} [] false)
              w0 Hpre Hset) as (w' & Hloop).
  exists w'. intros post aggregator.
  unfold executeMultiRepoWithSpans, new_ExecutionContext.
  unfold bind at 1. unfold bind at 1. rewrite Hcore. unfold ret at 1.
  unfold bind at 1. by rewrite Hloop.
Qed.

Lemma unrenderable_throw_ends_the_loop_witness :
  Forall (λ e, renders (RepoEntry.fn e))
    [Sample.entry "analytics" Sample.resolving]
  ∧ settles (RepoEntry.fn (Sample.entry "marketplace" Unprintable.bare_object))
    = Abrupt (Unrenderable Unprintable.type_error)
  ∧ ∃ w',
      executeMultiRepoWithSpans (lit "ecosystem-core") None
        Unprintable.second_unprintable Sample.counting Sample.world
      = (Abrupt Unprintable.type_error, w').
Proof.
  assert (Forall (λ e, renders (RepoEntry.fn e))
            [Sample.entry "analytics" Sample.resolving]) as Hpre
    by (repeat constructor).
  split; [exact Hpre|]. split; [reflexivity|].
  destruct (unrenderable_throw_ends_the_loop (T := JsValue)
              (lit "ecosystem-core") None
              [Sample.entry "analytics" Sample.resolving]
              (Sample.entry "marketplace" Unprintable.bare_object)
              Unprintable.type_error Sample.world Hpre eq_refl)
    as (w' & Hrun).
  exists w'.
  exact (Hrun [Sample.entry "benchmark" Sample.resolving] Sample.counting).
Defined.

(** * [finalize], spelled out *)

(** C1, as the code has it. On a context a caller can hold, the first
    recorded span [c] is the core span. [finalize] runs the validator over
    the recorded spans and collects as reasons one entry [[rule] message] per
    validation failure and then, when some recorded span whose identifier is
    not the core span's is failed, whatever its type, the entry that counts
    these spans. It reads the clock once and replaces [c] by [c] completed at
    that time when there is no reason, and otherwise by [c] failed at that
    time with the reasons appended to those [c] had. It returns the success
    flag, the core span's identifier, all recorded spans with [c] replaced,
    the validation failures, the reasons and the caller's result as it was
    given. *)
Theorem finalize_spec {R : Type} (ctx : ExecutionContext) (operationResult : R)
    (w : World) :
  reachable ctx →
  let failures := validateExecutionGraph (spans ctx) in
  let n :=
    length (filter (λ s, span_id s ≠ coreSpanId ctx ∧ status s = failed)
              (spans ctx)) in
  let reasons :=
    map (λ f, lit "[" ++ ValidationFailure.rule f ++ lit "] "
              ++ ValidationFailure.message f) failures
    ++ (if decide (0 < n)
        then [String_of_nat n ++ lit " child span(s) failed"] else []) in
  let t := iso_at w (clock_pos w) in
  ∃ c rest,
    spans ctx = c :: rest
    ∧ type c = core
    ∧ span_id c = coreSpanId ctx
    ∧ let c' := if decide (reasons = []) then completed_at c t
                else failed_at c reasons t in
      finalize operationResult ctx w
      = (Normal
           (CoreExecutionResult.mk (bool_decide (reasons = []))
              (coreSpanId ctx) (c' :: rest) failures reasons operationResult,
            {| coreSpan := coreSpan ctx; spans := c' :: rest |}),
         after_clock_reading w).
Proof.
  intros Hreach failures n reasons t.
  destruct (reachable_head_core ctx Hreach) as (c & rest & Hspans & Htype & Hid).
  exists c, rest. split_and!; [done..|]. cbv zeta.
  assert (core_failure_reasons ctx = reasons) as Hreasons.
  { unfold core_failure_reasons, child_summary, reasons, n, failures.
    cbv zeta.
    rewrite (list_filter_iff (is_failed_child ctx)
               (λ s, span_id s ≠ coreSpanId ctx ∧ status s = failed))
      by (intros s; unfold is_failed_child, coreSpanId; tauto).
    reflexivity. }
  pose proof (finalize_run ctx operationResult w c rest Hspans Hid) as Hfr.
  cbv zeta in Hfr. rewrite Hreasons in Hfr.
  destruct Hfr as (c' & w' & Hupd & _ & Hrun). rewrite Hrun.
  destruct (decide (reasons = [])) as [Hnil|Hsome];
    unfold completeSpan, failSpan, bind, now, ret in Hupd;
    injection Hupd as <- <-; reflexivity.
Qed.

Lemma finalize_spec_witness :
  reachable Recount.childless_context
  ∧ ∃ res ctx' w' c',
      finalize (JsNumber 7) Recount.childless_context Sample.world
      = (Normal (res, ctx'), w')
      ∧ CoreExecutionResult.success res = false
      ∧ CoreExecutionResult.failure_reasons res
        = [lit "[repo_must_have_agent_children] Repo span " ++ dquote
           ++ lit "repo:billing" ++ dquote
           ++ lit " has no agent-level child spans";
           lit "1 child span(s) failed"]
      ∧ CoreExecutionResult.result res = JsNumber 7
      ∧ CoreExecutionResult.execution_graph res = [c'; Recount.failed_repo]
      ∧ status c' = failed
      ∧ failure_reasons c' = CoreExecutionResult.failure_reasons res.
Proof.
  assert (reachable Recount.childless_context) as Hreach.
  { apply (reach_failRepoSpan Recount.open_context (lit "span-1") [lit "down"]
             (Recount.world_at 2 2) _ (Recount.world_at 2 3));
      [|vm_compute; reflexivity].
    apply (reach_startRepoSpan Sample.new_context (lit "billing")
             (Recount.world_at 1 1) Recount.started_repo _
             (Recount.world_at 2 2));
      [|vm_compute; reflexivity].
    by eapply (reach_new (lit "test-core") None Sample.world). }
  split; [exact Hreach|].
  pose proof (finalize_spec Recount.childless_context (JsNumber 7)
                Sample.world Hreach) as Hspec.
  cbv zeta in Hspec.
  destruct Hspec as (c & rest & Hspans & _ & _ & Hrun).
  injection Hspans as <- <-.
  eexists _, _, _, _. split; [exact Hrun|].
  vm_compute. by split_and!.
Defined.

(** C1 as stated fails on contexts a caller can hold. After a failed span of
    type core was ingested, no span of another type than core is failed, and
    yet the reasons have the entry that counts one failed span. And after
    [failRepoSpan] was called with the core span's identifier, the failed
    core span carries the reason it was given before those of [finalize]. *)
Lemma finalize_counts_by_id_and_appends :
  (reachable Recount.ingested
   ∧ (∀ s, s ∈ spans Recount.ingested → type s ≠ core → status s ≠ failed)
   ∧ ∃ res ctx' w',
       finalize JsNull Recount.ingested Sample.world = (Normal (res, ctx'), w')
       ∧ lit "1 child span(s) failed"
         ∈ CoreExecutionResult.failure_reasons res)
  ∧ (reachable Lifecycle.failed_context
     ∧ ∃ res ctx' w' c',
         finalize JsNull Lifecycle.failed_context Sample.world
         = (Normal (res, ctx'), w')
         ∧ CoreExecutionResult.execution_graph res = [c']
         ∧ type c' = core ∧ status c' = failed
         ∧ failure_reasons c'
           = lit "boom" :: CoreExecutionResult.failure_reasons res).
Proof.
  assert (reachable Sample.new_context) as Hnew.
  { by eapply (reach_new (lit "test-core") None Sample.world). }
  split.
  - split_and!.
    + apply (reach_ingestRepoSpans Sample.new_context 2
               (OtherArray [Recount.foreign_core]) _ Hnew).
      vm_compute. reflexivity.
    + intros s Hs Htype. cbn in Hs.
      apply elem_of_cons in Hs as [->|Hs]; [done|].
      apply list_elem_of_singleton in Hs as ->. done.
    + eexists _, _, _. split; [vm_compute; reflexivity|].
      cbn [CoreExecutionResult.failure_reasons].
      apply elem_of_cons. right. apply elem_of_cons. right.
      apply elem_of_cons. left. vm_compute. reflexivity.
  - split.
    + apply (reach_failRepoSpan Sample.new_context (lit "span-0") [lit "boom"]
               Sample.world _ (Recount.world_at 0 1) Hnew).
      vm_compute. reflexivity.
    + eexists _, _, _, _. split; [vm_compute; reflexivity|].
      vm_compute. by split_and!.
Qed.
